(** * PiGlow Ambient: the day/night fade scheduler and its liveness gate

    A shallow embedding of [main.go]: the fade computations of the main
    loop, the quick ramps of [pause] and [resume], the ping handlers set up
    by [initPing], the partial configuration reload, and the interleaving
    of the three goroutines that share [currentPower] and [isPaused]. *)

From Stdlib Require Import ZArith QArith Qround Qpower Qabs Lia Lqa List Bool String Morphisms.
From Stdlib Require SpecFloat.
Import ListNotations.

Local Open Scope Z_scope.

(** ** IEEE-754 binary64 arithmetic

    The brightness formulas are evaluated in Go's [float64].  A finite
    double is a rational number, so a [float64] is modelled as a [Q] and
    every operation as the exact rational operation followed by rounding to
    the nearest value with a 53-bit significand, ties to even.  The exponent
    range is not limited: every magnitude the program computes with lies
    between 2^-70 and 2^70, far inside the normal range of binary64, where
    this is what the hardware does. *)
Module Float64.

Local Open Scope Q_scope.

Definition prec : Z := 53.

(** [ilog2 x] is the integer [l] with [2^l <= x < 2^(l+1)], for [0 < x]. *)
Definition ilog2 (x : Q) : Z :=
  let t := (Z.log2 (Qnum x) - Z.log2 (Zpos (Qden x)))%Z in
  if Qle_bool (2 ^ t) x then t else (t - 1)%Z.

(** Nearest integer, ties to the even one. *)
Definition rne (y : Q) : Z :=
  let f := Qfloor y in
  match Qcompare (y - inject_Z f) (1 # 2) with
  | Lt => f
  | Gt => (f + 1)%Z
  | Eq => if Z.even f then f else (f + 1)%Z
  end.

(** Rounding of a positive rational to 53 significant bits. *)
Definition round_pos (x : Q) : Q :=
  let k := (ilog2 x - (prec - 1))%Z in
  Qred (inject_Z (rne (x / 2 ^ k)) * 2 ^ k).

Definition round (x : Q) : Q :=
  match Qnum x with
  | Z0 => 0
  | Zpos _ => round_pos x
  | Zneg _ => Qred (- round_pos (- x))
  end.

(** The operations of the language on [float64] values. *)
Definition add (x y : Q) : Q := round (x + y).
Definition mul (x y : Q) : Q := round (x * y).
Definition div (x y : Q) : Q := round (x / y).

(** [float64(n)] for an integer [n]. *)
Definition of_int (n : Z) : Q := round (inject_Z n).

(** [math.Ceil] and [math.Floor]: the result is integral, hence exact. *)
Definition Ceil (x : Q) : Q := inject_Z (Qceiling x).
Definition Floor (x : Q) : Q := inject_Z (Qfloor x).

End Float64.

(** ** Machine integers

    Go's [int] and [int64] are taken to be 64 bits wide, with wrap-around
    arithmetic. *)
Definition minInt64 : Z := - 2 ^ 63.
Definition maxInt64 : Z := 2 ^ 63 - 1.

Definition wrap64 (z : Z) : Z := (z + 2 ^ 63) mod 2 ^ 64 - 2 ^ 63.

(** [uint8(n)]. *)
Definition uint8 (n : Z) : Z := n mod 256.

(** [int(x)] and [time.Duration(x)] for a [float64] [x]: the fractional part
    is discarded.  For a value outside the range of the integer type the
    language leaves the result to the implementation; the value produced on
    amd64 is used. *)
Definition float64_to_int (x : Q) : Z :=
  let t := Z.quot (Qnum x) (Zpos (Qden x)) in
  if (minInt64 <=? t) && (t <=? maxInt64) then t else minInt64.

(** ** Package [time] *)
Module GoTime.

(** A [Duration] is an [int64] count of nanoseconds; an instant is a count
    of nanoseconds on the time line. *)
Definition Duration := Z.
Definition Time := Z.

Definition Millisecond : Duration := 1000000.
Definition Second : Duration := 1000000000.
Definition Minute : Duration := 60 * Second.

(** [t.Sub(u)]: the difference, or the largest or smallest [Duration]
    when it does not fit. *)
Definition Sub (t u : Time) : Duration :=
  Z.max minInt64 (Z.min maxInt64 (t - u)).

(** [t.Add(d)]. *)
Definition Add (t : Time) (d : Duration) : Time := t + d.

(** [d.Seconds()]: whole seconds plus the remaining nanoseconds over 1e9,
    in [float64]. *)
Definition Seconds (d : Duration) : Q :=
  let sec := Z.quot d Second in
  let nsec := Z.rem d Second in
  Float64.add (Float64.of_int sec) (Float64.div (Float64.of_int nsec) 1000000000).

End GoTime.
Export GoTime.

(** ** Declarations used by [main.go] and made elsewhere in the package *)

(** Modelled from the spec: the constant [MAX_POWER] is not declared in
    [main.go]; the brightness range is 0 to 255 and the fade formula
    multiplies by 255. *)
Definition MAX_POWER : Z := 255.

(** Modelled from the spec: the three liveness states named by [main.go] are
    not declared there; the liveness state is one of Unknown, Up and Down. *)
Inductive PingState := PingUnknown | PingUp | PingDown.

(** Modelled from the spec: the type of [cfg] is not declared in [main.go],
    which reads the four settings below; coordinates are [float64]. *)
Record Config := mkConfig {
  Latitude : Q;
  Longitude : Q;
  TransitionSpeed : string;
  PingIp : string
}.

(** ** The brightness formulas of the main loop *)

(** [(MAX_POWER/float64(transitionTime))*elapsed.Seconds()], the expression
    both fades evaluate. *)
Definition fadeRatio (transitionTime : Z) (elapsed : Duration) : Q :=
  Float64.mul (Float64.div (Float64.of_int MAX_POWER) (Float64.of_int transitionTime))
              (Seconds elapsed).

(** [int(math.Ceil((MAX_POWER/float64(transitionTime))*elapsed.Seconds()))],
    limited to 255. *)
Definition fadeInPower (transitionTime : Z) (elapsed : Duration) : Z :=
  let power := float64_to_int (Float64.Ceil (fadeRatio transitionTime elapsed)) in
  if 255 <? power then 255 else power.

(** [255-int(math.Floor((MAX_POWER/float64(transitionTime))*elapsed.Seconds()))],
    limited to 0. *)
Definition fadeOutPower (transitionTime : Z) (elapsed : Duration) : Z :=
  let power :=
    wrap64 (255 - float64_to_int (Float64.Floor (fadeRatio transitionTime elapsed))) in
  if power <? 0 then 0 else power.

(** The same two formulas in exact arithmetic, as the specification words
    them, for an elapsed time of [e] nanoseconds. *)
Definition clamp (lo hi z : Z) : Z := Z.max lo (Z.min hi z).

Definition exactRatio (transitionSeconds : Z) (e : Duration) : Q :=
  inject_Z (255 * e) / inject_Z (transitionSeconds * Second).

Definition specFadeIn (transitionSeconds : Z) (e : Duration) : Z :=
  clamp 0 255 (Qceiling (exactRatio transitionSeconds e)).

Definition specFadeOut (transitionSeconds : Z) (e : Duration) : Z :=
  clamp 0 255 (255 - Qfloor (exactRatio transitionSeconds e)).

(** [-transitionDuration/2]: negation, then division truncating to zero. *)
Definition halfBefore (transitionDuration : Duration) : Duration :=
  Z.quot (wrap64 (- transitionDuration)) 2.

(** [time.Duration((float64(transitionTime)/float64(MAX_POWER)*0.9) * 1000000000)],
    at most one second. *)
Definition sleepFor (transitionTime : Z) : Duration :=
  let d :=
    float64_to_int
      (Float64.mul
         (Float64.mul (Float64.div (Float64.of_int transitionTime) (Float64.of_int MAX_POWER))
                      (Float64.round (9 # 10)))
         1000000000) in
  if Second <? d then Second else d.

(** ** Process state *)

(** What the process does that an observer can see, in program order. *)
Inductive Effect :=
  | Glow (power : Z)            (* setGlow(power) *)
  | Sleep (d : Duration)        (* time.Sleep(d) *)
  | CallPause                   (* entry into pause() *)
  | CallResume                  (* entry into resume() *)
  | LogNextFadeIn (t : Time)    (* "The next fadeIn  is ..." *)
  | LogNextFadeOut (t : Time)   (* "The next fadeOut is ..." *)
  | LogWentDown (host : string) (* "Remote %s went down" *)
  | LogCameUp                   (* "Remote %s came up, RTT: %v" *)
  | LogDisabled (host : string) (* "No ping IP given ..., disabling ping check ..." *)
  | LogReload                   (* "Partially reloading config (only lat/long)..." *)
  | LogGoodbye.                 (* "Goodbye!" *)

Inductive Ramp := RampDown | RampUp.

(** Where the ping goroutine stands. *)
Inductive PingerPC :=
  | PcNone                      (* there is no ping goroutine *)
  | PcLoop                      (* at the head of its loop *)
  | PcCalled (r : Ramp)         (* in pause() or resume(), before the ramp loop *)
  | PcRamp (r : Ramp) (i : Z).  (* in the ramp loop, about to test its condition *)

Record State := mkState {
  (* package-level variables *)
  glow : Z;                     (* the level held by the PiGlow object, a uint8 *)
  isPaused : bool;
  isRunning : bool;
  cfg : Config;
  currentPower : Z;
  (* variables of main *)
  transitionTime : Z;
  transitionDuration : Duration;
  sleepDuration : Duration;
  fadeOutTime : Time;
  fadeInTime : Time;
  power : Z;
  (* variables of initPing, shared with its handlers *)
  lastState : PingState;
  isRecv : bool;
  (* the ping goroutine *)
  pinger : PingerPC;
  (* everything done so far, oldest first *)
  trace : list Effect
}.

Definition emit (e : Effect) (s : State) : State :=
  mkState (glow s) (isPaused s) (isRunning s) (cfg s) (currentPower s)
          (transitionTime s) (transitionDuration s) (sleepDuration s)
          (fadeOutTime s) (fadeInTime s) (power s) (lastState s) (isRecv s)
          (pinger s) (trace s ++ [e]).

Definition set_glow (level : Z) (s : State) : State :=
  mkState level (isPaused s) (isRunning s) (cfg s) (currentPower s)
          (transitionTime s) (transitionDuration s) (sleepDuration s)
          (fadeOutTime s) (fadeInTime s) (power s) (lastState s) (isRecv s)
          (pinger s) (trace s).

Definition set_currentPower (p : Z) (s : State) : State :=
  mkState (glow s) (isPaused s) (isRunning s) (cfg s) p
          (transitionTime s) (transitionDuration s) (sleepDuration s)
          (fadeOutTime s) (fadeInTime s) (power s) (lastState s) (isRecv s)
          (pinger s) (trace s).

Definition set_isPaused (b : bool) (s : State) : State :=
  mkState (glow s) b (isRunning s) (cfg s) (currentPower s)
          (transitionTime s) (transitionDuration s) (sleepDuration s)
          (fadeOutTime s) (fadeInTime s) (power s) (lastState s) (isRecv s)
          (pinger s) (trace s).

Definition set_isRunning (b : bool) (s : State) : State :=
  mkState (glow s) (isPaused s) b (cfg s) (currentPower s)
          (transitionTime s) (transitionDuration s) (sleepDuration s)
          (fadeOutTime s) (fadeInTime s) (power s) (lastState s) (isRecv s)
          (pinger s) (trace s).

Definition set_cfg (c : Config) (s : State) : State :=
  mkState (glow s) (isPaused s) (isRunning s) c (currentPower s)
          (transitionTime s) (transitionDuration s) (sleepDuration s)
          (fadeOutTime s) (fadeInTime s) (power s) (lastState s) (isRecv s)
          (pinger s) (trace s).

Definition set_fadeOutTime (t : Time) (s : State) : State :=
  mkState (glow s) (isPaused s) (isRunning s) (cfg s) (currentPower s)
          (transitionTime s) (transitionDuration s) (sleepDuration s)
          t (fadeInTime s) (power s) (lastState s) (isRecv s)
          (pinger s) (trace s).

Definition set_fadeInTime (t : Time) (s : State) : State :=
  mkState (glow s) (isPaused s) (isRunning s) (cfg s) (currentPower s)
          (transitionTime s) (transitionDuration s) (sleepDuration s)
          (fadeOutTime s) t (power s) (lastState s) (isRecv s)
          (pinger s) (trace s).

Definition set_power (p : Z) (s : State) : State :=
  mkState (glow s) (isPaused s) (isRunning s) (cfg s) (currentPower s)
          (transitionTime s) (transitionDuration s) (sleepDuration s)
          (fadeOutTime s) (fadeInTime s) p (lastState s) (isRecv s)
          (pinger s) (trace s).

Definition set_lastState (st : PingState) (s : State) : State :=
  mkState (glow s) (isPaused s) (isRunning s) (cfg s) (currentPower s)
          (transitionTime s) (transitionDuration s) (sleepDuration s)
          (fadeOutTime s) (fadeInTime s) (power s) st (isRecv s)
          (pinger s) (trace s).

Definition set_isRecv (b : bool) (s : State) : State :=
  mkState (glow s) (isPaused s) (isRunning s) (cfg s) (currentPower s)
          (transitionTime s) (transitionDuration s) (sleepDuration s)
          (fadeOutTime s) (fadeInTime s) (power s) (lastState s) b
          (pinger s) (trace s).

Definition set_pinger (pc : PingerPC) (s : State) : State :=
  mkState (glow s) (isPaused s) (isRunning s) (cfg s) (currentPower s)
          (transitionTime s) (transitionDuration s) (sleepDuration s)
          (fadeOutTime s) (fadeInTime s) (power s) (lastState s) (isRecv s)
          pc (trace s).

(** The levels handed to [setGlow], oldest first. *)
Fixpoint glows (tr : list Effect) : list Z :=
  match tr with
  | [] => []
  | Glow p :: tr' => p :: glows tr'
  | _ :: tr' => glows tr'
  end.

(** How often [pause] and [resume] were entered. *)
Definition is_pause (e : Effect) : bool :=
  match e with CallPause => true | _ => false end.
Definition is_resume (e : Effect) : bool :=
  match e with CallResume => true | _ => false end.
Definition pauses (tr : list Effect) : nat := List.length (filter is_pause tr).
Definition resumes (tr : list Effect) : nat := List.length (filter is_resume tr).

(** The fade times announced, oldest first: one for each time the variable
    was given a value. *)
Fixpoint nextFadeIns (tr : list Effect) : list Time :=
  match tr with
  | [] => []
  | LogNextFadeIn t :: tr' => t :: nextFadeIns tr'
  | _ :: tr' => nextFadeIns tr'
  end.

Fixpoint nextFadeOuts (tr : list Effect) : list Time :=
  match tr with
  | [] => []
  | LogNextFadeOut t :: tr' => t :: nextFadeOuts tr'
  | _ :: tr' => nextFadeOuts tr'
  end.

(** ** The driver call and the quick ramps *)

(** [setGlow]: all LEDs to [uint8(power)], [currentPower] to [power], then
    [glow.Apply()].  The driver is taken to succeed; where it fails the
    process ends in [log.Fatal]. *)
Definition setGlow (power : Z) (s : State) : State :=
  emit (Glow power) (set_currentPower power (set_glow (uint8 power) s)).

(** The body of either ramp loop. *)
Definition rampBody (i : Z) (s : State) : State :=
  emit (Sleep (35 * Millisecond)) (setGlow i s).

(** [for i := ...; i >= 0; i-- { ... }], at most [fuel] iterations; the
    result carries the final [i]. *)
Fixpoint pauseLoop (fuel : nat) (i : Z) (s : State) : Z * State :=
  match fuel with
  | O => (i, s)
  | S fuel' =>
      if 0 <=? i then pauseLoop fuel' (i - 1) (rampBody i s) else (i, s)
  end.

(** [for i := ...; i <= 255; i++ { ... }]. *)
Fixpoint resumeLoop (fuel : nat) (i : Z) (s : State) : Z * State :=
  match fuel with
  | O => (i, s)
  | S fuel' =>
      if i <=? 255 then resumeLoop fuel' (i + 1) (rampBody i s) else (i, s)
  end.

(** The levels a ramp of [n] steps from [i] applies, and the effects of
    applying them. *)
Fixpoint downTo (n : nat) (i : Z) : list Z :=
  match n with
  | O => []
  | S n' => i :: downTo n' (i - 1)
  end.

Fixpoint upTo (n : nat) (i : Z) : list Z :=
  match n with
  | O => []
  | S n' => i :: upTo n' (i + 1)
  end.

Fixpoint rampEffects (levels : list Z) : list Effect :=
  match levels with
  | [] => []
  | l :: levels' => Glow l :: Sleep (35 * Millisecond) :: rampEffects levels'
  end.

Fixpoint applyRamp (levels : list Z) (s : State) : State :=
  match levels with
  | [] => s
  | l :: levels' => applyRamp levels' (rampBody l s)
  end.

Definition pause (s : State) : State :=
  let s := set_isPaused true (emit CallPause s) in
  let s := emit (Sleep Second) s in
  snd (pauseLoop (Z.to_nat (currentPower s + 1)) (currentPower s) s).

Definition resume (s : State) : State :=
  let s := set_isPaused false (emit CallResume s) in
  let s := emit (Sleep Second) s in
  snd (resumeLoop (Z.to_nat (256 - currentPower s)) (currentPower s) s).

(** ** The ping handlers and one round of the ping loop *)

(** The "receive" handler. *)
Definition recvHandler (s : State) : State :=
  let s := set_isRecv true s in
  let s :=
    match lastState s with
    | PingDown => resume (emit LogCameUp s)
    | _ => s
    end in
  set_lastState PingUp s.

(** The "idle" handler. *)
Definition idleHandler (s : State) : State :=
  if isRecv s then s
  else
    let s :=
      match lastState s with
      | PingUp | PingUnknown => pause (emit (LogWentDown (PingIp (cfg s))) s)
      | PingDown => s
      end in
    set_lastState PingDown s.

Fixpoint deliver (replies : nat) (s : State) : State :=
  match replies with
  | O => s
  | S n => deliver n (recvHandler s)
  end.

(** The body of the ping loop when [p.Run()] reports no error: the receive
    handler once per reply, the idle handler when the round closes, then a
    minute of sleep. *)
Definition pingRound (replies : nat) (s : State) : State :=
  let s := set_isRecv false s in
  let s := deliver replies s in
  let s := idleHandler s in
  emit (Sleep Minute) s.

(** ** Configuration reload *)

(** [initConfig]: the whole of [cfg] is read again from the file;
    [parsed] is what [gcfg.ReadFileInto] delivers, [None] when it fails,
    which ends the process in [log.Fatalf]. *)
Definition initConfig (parsed : option Config) (s : State) : option State :=
  match parsed with
  | None => None
  | Some c => Some (set_cfg c s)
  end.

(** ** Host resolution *)

(** What [net.ResolveIPAddr] returns: an error, or an address whose [IP]
    may be nil. *)
Inductive Resolve :=
  | ResolveError
  | Resolved (ip : option (list Byte.byte)).

(** [initPing]: a resolution error ends the process; an address without IP
    leaves the program without ping goroutine; otherwise the handlers are
    installed and the goroutine starts at the head of its loop. *)
Definition initPing (r : Resolve) (s : State) : option State :=
  let s := set_lastState PingUnknown s in
  match r with
  | ResolveError => None
  | Resolved None => Some (emit (LogDisabled (PingIp (cfg s))) s)
  | Resolved (Some _) => Some (set_pinger PcLoop s)
  end.

(** ** The main loop *)

(** The readings of [time.Now()] in one iteration, in program order. *)
Record Clock := mkClock {
  nowIn : Time;       (* for the fade-in test *)
  nowSunset : Time;   (* for the next sunset *)
  nowOut : Time;      (* for the fade-out test *)
  nowSunrise : Time   (* for the next sunrise *)
}.

Section Program.

(** Package [astrotime]. *)
Variables NextSunrise NextSunset PreviousSunset : Time -> Q -> Q -> Time.

(** The block under "FadeIn". *)
Definition fadeIn (c : Clock) (s : State) : State :=
  let elapsed := Sub (nowIn c) (fadeInTime s) in
  if 0 <? elapsed then
    let s := set_power (fadeInPower (transitionTime s) elapsed) s in
    let s := setGlow (power s) s in
    if 255 <=? power s then
      let t := Add (NextSunset (nowSunset c) (Latitude (cfg s)) (Longitude (cfg s)))
                   (halfBefore (transitionDuration s)) in
      emit (LogNextFadeIn t) (set_fadeInTime t s)
    else s
  else s.

(** The block under "FadeOut". *)
Definition fadeOut (c : Clock) (s : State) : State :=
  let elapsed := Sub (nowOut c) (fadeOutTime s) in
  if 0 <? elapsed then
    let s := set_power (fadeOutPower (transitionTime s) elapsed) s in
    let s := setGlow (power s) s in
    if power s <=? 0 then
      let t := Add (NextSunrise (nowSunrise c) (Latitude (cfg s)) (Longitude (cfg s)))
                   (halfBefore (transitionDuration s)) in
      emit (LogNextFadeOut t) (set_fadeOutTime t s)
    else s
  else s.

(** The body of the main loop. *)
Definition tick (c : Clock) (s : State) : State :=
  let s := emit (Sleep (sleepDuration s)) s in
  if isPaused s then s else fadeOut c (fadeIn c s).

(** Iterations of the main loop in a row, one per clock. *)
Fixpoint ticks (cs : list Clock) (s : State) : State :=
  match cs with
  | [] => s
  | c :: cs' => ticks cs' (tick c s)
  end.

(** Whether an iteration gives [fadeInTime] or [fadeOutTime] a new value:
    the window is open and the brightness computed is at its end. *)
Definition completesIn (c : Clock) (s : State) : bool :=
  let elapsed := Sub (nowIn c) (fadeInTime s) in
  (0 <? elapsed) && (255 <=? fadeInPower (transitionTime s) elapsed).

Definition completesOut (c : Clock) (s : State) : bool :=
  let elapsed := Sub (nowOut c) (fadeOutTime s) in
  (0 <? elapsed) && (fadeOutPower (transitionTime s) elapsed <=? 0).

(** No iteration of the row completes a ramp. *)
Fixpoint midRamp (cs : list Clock) (s : State) : bool :=
  match cs with
  | [] => true
  | c :: cs' =>
      negb (completesIn c s) && negb (completesOut c s) && midRamp cs' (tick c s)
  end.

(** One pass through [for isRunning { ... }]; [None] when the loop is
    left, which ends [main] and the process. *)
Definition mainIter (c : Clock) (s : State) : option State :=
  if isRunning s then Some (tick c s) else None.

(** ** Start-up *)

(** What the environment delivers while [main] sets up. *)
Record Boot := mkBoot {
  bootConfig : option Config;   (* gcfg.ReadFileInto *)
  bootSpeed : option Z;         (* getTransitionSpeed, None for an error *)
  bootNow : Time;               (* time.Now() *)
  bootPiglow : bool;            (* piglow.NewPiglow succeeded *)
  bootResolve : Resolve         (* net.ResolveIPAddr *)
}.

(** [main] up to the main loop: the state in which the loop is entered,
    or [None] where a [log.Fatal] ends the process before that. *)
Definition main (b : Boot) : option State :=
  match bootConfig b with
  | None => None
  | Some c =>
    match bootSpeed b with
    | None => None
    | Some transitionTime =>
      if transitionTime <=? 0 then None
      else
        let transitionDuration := wrap64 (transitionTime * Second) in
        let sunrise := NextSunrise (bootNow b) (Latitude c) (Longitude c) in
        let sunset := PreviousSunset sunrise (Latitude c) (Longitude c) in
        let fadeOutTime := Add sunrise (halfBefore transitionDuration) in
        let fadeInTime := Add sunset (halfBefore transitionDuration) in
        if bootPiglow b then
          let s := mkState 0 false true c 0
                           transitionTime transitionDuration (sleepFor transitionTime)
                           fadeOutTime fadeInTime 0 PingUnknown false PcNone [] in
          let s := setGlow 0 s in
          let s := emit (LogNextFadeOut fadeOutTime) (emit (LogNextFadeIn fadeInTime) s) in
          initPing (bootResolve b) s
        else None
    end
  end.

(** ** The goroutines, interleaved

    The main goroutine, the ping goroutine and the signal handlers run
    concurrently on the shared variables.  The process is modelled by the
    interleaving of their steps: an iteration of the main loop; the ping
    goroutine up to its next entry into [pause] or [resume], and from
    there one step at a time through the settle delay and the ramp loop;
    a reload; an interrupt. *)
Inductive Event :=
  | EvMain (c : Clock)
  | EvRound (run : option nat)    (* p.Run(): an error, or so many replies *)
  | EvRamp
  | EvReload (parsed : option Config)
  | EvInterrupt.

(** The ping goroutine from the head of its loop through one [p.Run()]. *)
Definition roundStep (run : option nat) (s : State) : option State :=
  match pinger s with
  | PcLoop =>
      if isRunning s then
        let s := set_isRecv false s in
        match run with
        | None => None
        | Some O =>
            match lastState s with
            | PingUp | PingUnknown =>
                let s := emit (LogWentDown (PingIp (cfg s))) s in
                Some (set_pinger (PcCalled RampDown) (set_isPaused true (emit CallPause s)))
            | PingDown =>
                Some (emit (Sleep Minute) (set_lastState PingDown s))
            end
        | Some (S _) =>
            let s := set_isRecv true s in
            match lastState s with
            | PingDown =>
                let s := emit LogCameUp s in
                Some (set_pinger (PcCalled RampUp) (set_isPaused false (emit CallResume s)))
            | _ =>
                Some (emit (Sleep Minute) (set_lastState PingUp s))
            end
        end
      else Some (set_pinger PcNone s)
  | _ => Some s
  end.

(** The ping goroutine inside [pause] or [resume]: the settle delay and
    the first read of [currentPower], then one test of the loop condition
    with the body or the return to the handler and the loop. *)
Definition rampStep (s : State) : State :=
  match pinger s with
  | PcCalled r =>
      let s := emit (Sleep Second) s in
      set_pinger (PcRamp r (currentPower s)) s
  | PcRamp RampDown i =>
      if 0 <=? i then set_pinger (PcRamp RampDown (i - 1)) (rampBody i s)
      else emit (Sleep Minute) (set_lastState PingDown (set_pinger PcLoop s))
  | PcRamp RampUp i =>
      if i <=? 255 then set_pinger (PcRamp RampUp (i + 1)) (rampBody i s)
      else emit (Sleep Minute) (set_lastState PingUp (set_pinger PcLoop s))
  | _ => s
  end.

Definition step (s : State) (ev : Event) : option State :=
  match ev with
  | EvMain c => mainIter c s
  | EvRound run => roundStep run s
  | EvRamp => Some (rampStep s)
  | EvReload parsed => initConfig parsed (emit LogReload s)
  | EvInterrupt =>
      if isRunning s then Some (set_isRunning false (emit LogGoodbye s)) else Some s
  end.

Fixpoint run (s : State) (evs : list Event) : option State :=
  match evs with
  | [] => Some s
  | ev :: evs' =>
      match step s ev with
      | None => None
      | Some s' => run s' evs'
      end
  end.

End Program.

(** Events of the ping goroutine, and rounds in which a reply arrives. *)
Definition pingEvent (ev : Event) : bool :=
  match ev with
  | EvRound _ | EvRamp => true
  | _ => false
  end.


(** A brightness level the driver accepts. *)
Definition validLevel (p : Z) : Prop := 0 <= p <= 255.

(** ** Notions used in the statements *)

(** Half an ulp, relative to the value: 2^-53. *)
Definition eps64 : Q := (1 # 9007199254740992)%Q.

(** How often [pause] and [resume] have been entered so far. *)
Definition calls (s : State) : nat * nat := (pauses (trace s), resumes (trace s)).

(** The ramp variable of a ramp in progress is such that the level it applies
    next is valid. *)
Definition rampOk (pc : PingerPC) : Prop :=
  match pc with
  | PcRamp RampDown i => i <= 255
  | PcRamp RampUp i => 0 <= i
  | _ => True
  end.

(** The invariant of the running process. *)
Definition safe (s : State) : Prop :=
  0 < transitionTime s /\
  validLevel (currentPower s) /\
  glow s = currentPower s /\
  Forall validLevel (glows (trace s)) /\
  rampOk (pinger s).

(** The state of a process without ping goroutine. *)
Definition unmonitored (s : State) : Prop :=
  pinger s = PcNone /\ isPaused s = false /\ calls s = (0%nat, 0%nat).


(** ** The same expression in the binary64 of the standard library

    [SpecFloat] specifies IEEE-754 arithmetic with its exponent range, on
    which the rational model above is cross-checked. *)
Module Binary64.
Import SpecFloat.
Definition of_Z (n : Z) : spec_float := binary_normalize 53 1024 n 0 false.
Definition to_Q (f : spec_float) : Q :=
  match f with
  | S754_finite s m e =>
      ((if s then (-1) else 1) * inject_Z (Zpos m) * 2 ^ e)%Q
  | _ => 0%Q
  end.
Definition finite (f : spec_float) : bool :=
  match f with S754_finite _ _ _ | S754_zero _ => true | _ => false end.
Definition SecondsF (d : Z) : spec_float :=
  SFadd 53 1024 (of_Z (Z.quot d Second))
        (SFdiv 53 1024 (of_Z (Z.rem d Second)) (of_Z 1000000000)).
Definition fadeRatioF (T e : Z) : spec_float :=
  SFmul 53 1024 (SFdiv 53 1024 (of_Z MAX_POWER) (of_Z T)) (SecondsF e).
Definition agrees (T e : Z) : bool :=
  finite (fadeRatioF T e) && Qeq_bool (to_Q (fadeRatioF T e)) (fadeRatio T e).
End Binary64.

(** ** A mean solar day for the worked examples

    Sunrise at 06:00 and sunset at 18:00 local solar time every day, four
    minutes of clock time per degree of longitude; instants count from a
    midnight at longitude 0. *)
Definition Hour : Duration := 60 * Minute.
Definition Day : Duration := 24 * Hour.

(** The first instant strictly after [t] at which the local solar time is
    [hour] o'clock. *)
Definition solarEvent (hour : Z) (t : Time) (lon : Q) : Time :=
  let due := hour * Hour - Qfloor (inject_Z (240 * Second) * lon) in
  (t - due) / Day * Day + Day + due.

Definition MeanNextSunrise (t : Time) (lat lon : Q) : Time := solarEvent 6 t lon.
Definition MeanNextSunset (t : Time) (lat lon : Q) : Time := solarEvent 18 t lon.
Definition MeanPreviousSunset (t : Time) (lat lon : Q) : Time :=
  solarEvent 18 (t - 1) lon - Day.

Definition greenwich : Config := mkConfig 52 0 "3600" "192.0.2.1".
Definition utrecht : Config := mkConfig 52 (49 # 10) "3600" "192.0.2.1".

(** A start at [now] with a transition of [speed] seconds. *)
Definition bootAt (now : Time) (speed : Z) (r : Resolve) : Boot :=
  mkBoot (Some greenwich) (Some speed) now true r.

(** All four clock readings of an iteration at the same instant. *)
Definition clockAt (t : Time) : Clock := mkClock t t t t.

(** A one-hour transition, dark, before the evening ramp: fade-in due at
    17:30, fade-out at 05:30 the next morning. *)
Definition evening : State :=
  mkState 0 false true greenwich 0 3600 (3600 * Second) Second
          (29 * Hour + 30 * Minute) (17 * Hour + 30 * Minute)
          0 PingUp false PcLoop [].

(** The same at full brightness before the morning ramp: fade-out due at
    05:30, fade-in at 17:30. *)
Definition morning : State :=
  mkState 255 false true greenwich 255 3600 (3600 * Second) Second
          (5 * Hour + 30 * Minute) (17 * Hour + 30 * Minute)
          255 PingUp false PcLoop [].

(** Started at 05:45, inside the morning ramp, with the fade-in time still
    that of the evening before. *)
Definition dawn : State :=
  mkState 0 false true greenwich 0 3600 (3600 * Second) Second
          (5 * Hour + 30 * Minute) (17 * Hour + 30 * Minute - Day)
          0 PingUnknown false PcNone [].

(** Lit at level 180, the remote host up. *)
Definition lit180 : State :=
  mkState 180 false true greenwich 180 3600 (3600 * Second) Second
          (29 * Hour + 30 * Minute) (17 * Hour + 30 * Minute)
          180 PingUp false PcLoop [].

(** Freshly started, the liveness state still unknown. *)
Definition fresh : State :=
  mkState 255 false true greenwich 255 3600 (3600 * Second) Second
          (29 * Hour + 30 * Minute) (17 * Hour + 30 * Minute)
          255 PingUnknown false PcLoop [].

(** ** The sleep of the main loop *)

(** The [float64] value of
    [(float64(transitionTime)/float64(MAX_POWER)*0.9) * 1000000000], which
    the conversion to [time.Duration] truncates. *)
Definition sleepValue (T : Z) : Q :=
  Float64.mul
    (Float64.mul (Float64.div (Float64.of_int T) (Float64.of_int MAX_POWER))
                 (Float64.round (9 # 10)))
    1000000000.

(** ** Time spent asleep *)

(** The total of the [time.Sleep] calls made so far. *)
Fixpoint slept (tr : list Effect) : Duration :=
  match tr with
  | [] => 0
  | Sleep d :: tr' => d + slept tr'
  | _ :: tr' => slept tr'
  end.

(** ** The process from its start to its end *)

(** The variables [initFlags] fills. *)
Record Flags := mkFlags {
  pidPath : string;
  logPath : string;
  cfgPath : string
}.

(** [initFlags]: each flag has the value given on the command line, or its
    default. *)
Definition initFlags (given : string -> option string) : Flags :=
  let value (name fallback : string) :=
    match given name with
    | Some v => v
    | None => fallback
    end in
  mkFlags (value "pidfile"%string EmptyString)
          (value "logfile"%string "-"%string)
          (value "cfgfile"%string "/etc/piglow-ambient.gcfg"%string).

(** What [main] does to the log file and the PID file. *)
Inductive FileOp :=
  | OpenLog (path : string)     (* os.OpenFile(logPath, ...) *)
  | WritePid (path : string)    (* ioutil.WriteFile(pidPath, ...) *)
  | RemovePid (path : string)   (* the deferred os.Remove(pidPath) *)
  | CloseLog.                   (* the deferred logFile.Close() *)

(** How the process ends: [log.Fatal], which leaves through [os.Exit]
    without running the deferred calls, or the return from [main]. *)
Inductive Exit := Fatal | Returned.

(** Whether the two files can be written. *)
Record Files := mkFiles {
  openLogOk : bool;             (* os.OpenFile returns no error *)
  writePidOk : bool             (* ioutil.WriteFile returns no error *)
}.

(** Where a run of events leaves the process. *)
Inductive Outcome :=
  | Running (s : State)
  | Ended (e : Exit) (s : State).

Section Lifecycle.

Variables NextSunrise NextSunset PreviousSunset : Time -> Q -> Q -> Time.

(** The events one after the other, up to the one that ends the process:
    the main loop found [isRunning] false and [main] returns, or a
    goroutine ran into [log.Fatalf]. *)
Fixpoint outcome (s : State) (evs : list Event) : Outcome :=
  match evs with
  | [] => Running s
  | ev :: evs' =>
      match step NextSunrise NextSunset s ev with
      | Some s' => outcome s' evs'
      | None =>
          Ended (match ev with
                 | EvMain _ => Returned
                 | _ => Fatal
                 end) s
      end
  end.

(** [main] as a whole: the file operations made in program order, and how
    the process ended, if it did. *)
Definition process (f : Flags) (os : Files) (b : Boot) (evs : list Event)
  : list FileOp * option Exit :=
  let logging := negb (String.eqb (logPath f) "-") in
  let pidfile := negb (String.eqb (pidPath f) EmptyString) in
  if logging && negb (openLogOk os) then ([], Some Fatal)
  else
    let opened := if logging then [OpenLog (logPath f)] else [] in
    if pidfile && negb (writePidOk os) then (opened, Some Fatal)
    else
      let written := opened ++ (if pidfile then [WritePid (pidPath f)] else []) in
      let deferred := (if pidfile then [RemovePid (pidPath f)] else [])
                      ++ (if logging then [CloseLog] else []) in
      match main NextSunrise PreviousSunset b with
      | None => (written, Some Fatal)
      | Some s0 =>
          match outcome s0 evs with
          | Running _ => (written, None)
          | Ended Fatal _ => (written, Some Fatal)
          | Ended Returned _ => (written ++ deferred, Some Returned)
          end
      end.

End Lifecycle.

(** The ping goroutine is inside [pause]. *)
Definition pausing (pc : PingerPC) : bool :=
  match pc with
  | PcCalled RampDown | PcRamp RampDown _ => true
  | _ => false
  end.




(** * Properties *)

(** ** Rounding to binary64 and the fade expression *)
Module Numerics.

Import Float64.
Local Open Scope Q_scope.

Lemma two_pow_pos (k : Z) : 0 < 2 ^ k.
Proof. apply Qpower_0_lt. reflexivity. Qed.

Lemma two_pow_succ (k : Z) : 2 ^ (k + 1) == 2 * 2 ^ k.
Proof. rewrite Qpower_plus by discriminate. change (2 ^ 1) with 2. ring. Qed.

Lemma two_pow_le (a b : Z) : (a <= b)%Z -> 2 ^ a <= 2 ^ b.
Proof. intro H. apply Qpower_le_compat_l; [exact H | discriminate]. Qed.

Lemma two_pow_inj_Z (a : Z) : (0 <= a)%Z -> inject_Z (2 ^ a) == 2 ^ a.
Proof. intro H. rewrite Zpower_Qpower by exact H. reflexivity. Qed.

Lemma ilog2_spec (x : Q) : 0 < x -> 2 ^ ilog2 x <= x /\ x < 2 ^ (ilog2 x + 1).
Proof.
  intro Hx. unfold ilog2.
  set (a := Z.log2 (Qnum x)). set (b := Z.log2 (Zpos (Qden x))).
  assert (Hn : (0 < Qnum x)%Z) by (unfold Qlt in Hx; cbn in Hx; lia).
  destruct (Z.log2_spec _ Hn) as [Ha1 Ha2]. fold a in Ha1, Ha2.
  destruct (Z.log2_spec (Zpos (Qden x)) eq_refl) as [Hb1 Hb2]. fold b in Hb1, Hb2.
  assert (Ha0 : (0 <= a)%Z) by apply Z.log2_nonneg.
  assert (Hb0 : (0 <= b)%Z) by apply Z.log2_nonneg.
  set (N := inject_Z (Qnum x)). set (D := inject_Z (Zpos (Qden x))).
  assert (HxD : x * D == N).
  { unfold N, D. destruct x as [n d]. unfold Qeq. cbn.
    rewrite Pos.mul_1_r. ring. }
  assert (HA1 : 2 ^ a <= N).
  { rewrite <- two_pow_inj_Z by exact Ha0. unfold N. rewrite <- Zle_Qle. exact Ha1. }
  assert (HA2 : N < 2 * 2 ^ a).
  { rewrite <- two_pow_succ, <- two_pow_inj_Z by lia. unfold N.
    rewrite <- Zlt_Qlt. rewrite <- Z.add_1_r in Ha2. exact Ha2. }
  assert (HB1 : 2 ^ b <= D).
  { rewrite <- two_pow_inj_Z by exact Hb0. unfold D. rewrite <- Zle_Qle. exact Hb1. }
  assert (HB2 : D < 2 * 2 ^ b).
  { rewrite <- two_pow_succ, <- two_pow_inj_Z by lia. unfold D.
    rewrite <- Zlt_Qlt. rewrite <- Z.add_1_r in Hb2. exact Hb2. }
  assert (Ht : 2 ^ (a - b) * 2 ^ b == 2 ^ a).
  { rewrite <- Qpower_plus by discriminate. replace (a - b + b)%Z with a by lia. reflexivity. }
  pose proof (two_pow_pos a) as Pa. pose proof (two_pow_pos b) as Pb.
  pose proof (two_pow_pos (a - b)) as Pt.
  destruct (Qle_bool (2 ^ (a - b)) x) eqn:E.
  - apply Qle_bool_iff in E. split; [exact E|].
    rewrite two_pow_succ.
    generalize dependent (2 ^ (a - b)). generalize dependent (2 ^ a). generalize dependent (2 ^ b).
    intros. nra.
  - assert (E' : x < 2 ^ (a - b)).
    { apply Qnot_le_lt. intro H. apply Qle_bool_iff in H. congruence. }
    replace (a - b - 1 + 1)%Z with (a - b)%Z by lia. split; [|exact E'].
    assert (Hs : 2 ^ (a - b) == 2 * 2 ^ (a - b - 1)).
    { rewrite <- two_pow_succ. replace (a - b - 1 + 1)%Z with (a - b)%Z by lia. reflexivity. }
    pose proof (two_pow_pos (a - b - 1)) as Pt1.
    generalize dependent (2 ^ (a - b - 1)).
    generalize dependent (2 ^ (a - b)). generalize dependent (2 ^ a). generalize dependent (2 ^ b).
    intros. nra.
Qed.

Lemma ilog2_mono (x y : Q) : 0 < x -> x <= y -> (ilog2 x <= ilog2 y)%Z.
Proof.
  intros Hx Hxy.
  assert (Hy : 0 < y) by lra.
  destruct (ilog2_spec x Hx) as [X1 _]. destruct (ilog2_spec y Hy) as [_ Y2].
  destruct (Z_le_gt_dec (ilog2 x) (ilog2 y)) as [H|H]; [exact H|exfalso].
  assert (2 ^ (ilog2 y + 1) <= 2 ^ ilog2 x) by (apply two_pow_le; lia).
  lra.
Qed.

Ltac qcompare_facts :=
  repeat match goal with
  | H : Qcompare _ _ = Eq |- _ => apply (proj2 (Qeq_alt _ _)) in H
  | H : Qcompare _ _ = Lt |- _ => apply (proj2 (Qlt_alt _ _)) in H
  | H : Qcompare _ _ = Gt |- _ => apply (proj2 (Qgt_alt _ _)) in H
  end.

Lemma rne_bounds (y : Q) :
  inject_Z (rne y) - (1 # 2) <= y /\ y <= inject_Z (rne y) + (1 # 2).
Proof.
  unfold rne. pose proof (Qfloor_le y) as F1. pose proof (Qlt_floor y) as F2.
  rewrite inject_Z_plus in F2. change (inject_Z 1) with 1 in F2.
  set (f := Qfloor y) in *.
  destruct (Qcompare (y - inject_Z f) (1 # 2)) eqn:E.
  - apply Qeq_alt in E.
    destruct (Z.even f); rewrite ?inject_Z_plus; change (inject_Z 1) with 1; clearbody f; lra.
  - apply Qlt_alt in E. clearbody f. lra.
  - apply Qgt_alt in E. rewrite inject_Z_plus. change (inject_Z 1) with 1. clearbody f. lra.
Qed.

Lemma rne_Z (a : Z) : rne (inject_Z a) = a.
Proof.
  unfold rne. rewrite Qfloor_Z.
  assert (E : Qcompare (inject_Z a - inject_Z a) (1 # 2) = Lt) by (apply (proj1 (Qlt_alt _ _)); lra).
  rewrite E. reflexivity.
Qed.

Lemma rne_mono (x y : Q) : x <= y -> (rne x <= rne y)%Z.
Proof.
  intro Hxy. pose proof (Qfloor_resp_le x y Hxy) as HF.
  unfold rne.
  pose proof (Qfloor_le x) as X1. pose proof (Qlt_floor x) as X2.
  pose proof (Qfloor_le y) as Y1. pose proof (Qlt_floor y) as Y2.
  rewrite inject_Z_plus in X2, Y2. change (inject_Z 1) with 1 in X2, Y2.
  set (fx := Qfloor x) in *. set (fy := Qfloor y) in *.
  clearbody fx fy.
  destruct (Z.eq_dec fx fy) as [e|ne].
  - rewrite <- e in *. clear e fy HF.
    destruct (Qcompare (x - inject_Z fx) (1 # 2)) eqn:Ex;
    destruct (Qcompare (y - inject_Z fx) (1 # 2)) eqn:Ey;
    qcompare_facts; try (exfalso; lra); destruct (Z.even fx); lia.
  - assert (fx + 1 <= fy)%Z by lia.
    destruct (Qcompare (x - inject_Z fx) (1 # 2));
    destruct (Qcompare (y - inject_Z fy) (1 # 2));
    destruct (Z.even fx); destruct (Z.even fy); lia.
Qed.

Lemma round_pos_eq (x : Q) :
  round_pos x == inject_Z (rne (x / 2 ^ (ilog2 x - 52))) * 2 ^ (ilog2 x - 52).
Proof. unfold round_pos. rewrite Qred_correct. reflexivity. Qed.

Lemma scaled_bounds (x : Q) :
  0 < x -> 2 ^ 52 <= x / 2 ^ (ilog2 x - 52) /\ x / 2 ^ (ilog2 x - 52) < 2 ^ 53.
Proof.
  intro Hx. destruct (ilog2_spec x Hx) as [H1 H2].
  set (k := (ilog2 x - 52)%Z).
  assert (E1 : 2 ^ ilog2 x == 2 ^ 52 * 2 ^ k).
  { rewrite <- Qpower_plus by discriminate. unfold k.
    replace (52 + (ilog2 x - 52))%Z with (ilog2 x) by lia. reflexivity. }
  assert (E2 : 2 ^ (ilog2 x + 1) == 2 ^ 53 * 2 ^ k).
  { rewrite <- Qpower_plus by discriminate. unfold k.
    replace (53 + (ilog2 x - 52))%Z with (ilog2 x + 1)%Z by lia. reflexivity. }
  rewrite E1 in H1. rewrite E2 in H2.
  pose proof (two_pow_pos k) as P.
  split.
  - apply Qle_shift_div_l; assumption.
  - apply Qlt_shift_div_r; assumption.
Qed.

Lemma mantissa_bounds (x : Q) :
  0 < x ->
  (2 ^ 52 <= rne (x / 2 ^ (ilog2 x - 52)) <= 2 ^ 53)%Z.
Proof.
  intro Hx. destruct (scaled_bounds x Hx) as [H1 H2].
  split.
  - rewrite <- (rne_Z (2 ^ 52)). apply rne_mono. exact H1.
  - rewrite <- (rne_Z (2 ^ 53)). apply rne_mono. apply Qlt_le_weak. exact H2.
Qed.

Lemma round_pos_err (x : Q) :
  0 < x -> x * (1 - eps64) <= round_pos x /\ round_pos x <= x * (1 + eps64).
Proof.
  intro Hx. rewrite round_pos_eq.
  destruct (scaled_bounds x Hx) as [H1 _].
  set (k := (ilog2 x - 52)%Z) in *.
  pose proof (two_pow_pos k) as P.
  destruct (rne_bounds (x / 2 ^ k)) as [B1 B2].
  set (m := inject_Z (rne (x / 2 ^ k))) in *. clearbody m.
  assert (E : x == (x / 2 ^ k) * 2 ^ k) by (field; lra).
  set (y := x / 2 ^ k) in *. clearbody y.
  change (2 ^ 52) with 4503599627370496 in H1.
  unfold eps64. generalize dependent (2 ^ k). intros p P E.
  split; rewrite E; nra.
Qed.

Lemma round_pos_pos (x : Q) : 0 < x -> 0 < round_pos x.
Proof.
  intro Hx. rewrite round_pos_eq.
  destruct (mantissa_bounds x Hx) as [M _].
  apply Qmult_lt_0_compat; [| apply two_pow_pos].
  change 0 with (inject_Z 0). rewrite <- Zlt_Qlt.
  assert (0 < 2 ^ 52)%Z by reflexivity. lia.
Qed.

Lemma round_pos_mono (x y : Q) : 0 < x -> x <= y -> round_pos x <= round_pos y.
Proof.
  intros Hx Hxy. assert (Hy : 0 < y) by lra.
  rewrite !round_pos_eq.
  pose proof (ilog2_mono x y Hx Hxy) as HL.
  destruct (Z.eq_dec (ilog2 x) (ilog2 y)) as [e|ne].
  - rewrite e. pose proof (two_pow_pos (ilog2 y - 52)) as P.
    apply Qmult_le_compat_r; [|lra].
    rewrite <- Zle_Qle. apply rne_mono.
    apply Qmult_le_compat_r; [exact Hxy|].
    apply Qlt_le_weak, Qinv_lt_0_compat, P.
  - destruct (mantissa_bounds x Hx) as [_ Mx]. destruct (mantissa_bounds y Hy) as [My _].
    apply Qle_trans with (2 ^ 53 * 2 ^ (ilog2 x - 52)).
    + apply Qmult_le_compat_r; [| apply Qlt_le_weak, two_pow_pos].
      change (2 ^ 53) with (inject_Z (2 ^ 53)). rewrite <- Zle_Qle. exact Mx.
    + apply Qle_trans with (2 ^ 52 * 2 ^ (ilog2 y - 52)).
      * rewrite <- !Qpower_plus by discriminate. apply two_pow_le. lia.
      * apply Qmult_le_compat_r; [| apply Qlt_le_weak, two_pow_pos].
        change (2 ^ 52) with (inject_Z (2 ^ 52)). rewrite <- Zle_Qle. exact My.
Qed.

Lemma round_of_pos (x : Q) : 0 < x -> round x = round_pos x.
Proof.
  intro Hx. unfold round. destruct x as [[|n|n] d]; cbn [Qnum]; try reflexivity;
    unfold Qlt in Hx; cbn in Hx; lia.
Qed.

Lemma round_of_zero (x : Q) : x == 0 -> round x = 0.
Proof.
  intro Hx. unfold round. destruct x as [[|n|n] d]; cbn [Qnum]; try reflexivity;
    unfold Qeq in Hx; cbn in Hx; lia.
Qed.

Lemma round_nonneg (x : Q) : 0 <= x -> 0 <= round x.
Proof.
  intro Hx. destruct (Qlt_le_dec 0 x) as [H|H].
  - rewrite round_of_pos by exact H. apply Qlt_le_weak, round_pos_pos, H.
  - rewrite round_of_zero by lra. lra.
Qed.

Lemma round_pos_lt (x : Q) : 0 < x -> 0 < round x.
Proof. intro H. rewrite round_of_pos by exact H. apply round_pos_pos, H. Qed.

Lemma round_mono (x y : Q) : 0 <= x -> x <= y -> round x <= round y.
Proof.
  intros Hx Hxy. destruct (Qlt_le_dec 0 x) as [H|H].
  - rewrite (round_of_pos x) by exact H. rewrite (round_of_pos y) by lra.
    apply round_pos_mono; assumption.
  - rewrite (round_of_zero x) by lra. apply round_nonneg. lra.
Qed.

Lemma round_err (x : Q) : 0 <= x -> x * (1 - eps64) <= round x /\ round x <= x * (1 + eps64).
Proof.
  intro Hx. destruct (Qlt_le_dec 0 x) as [H|H].
  - rewrite round_of_pos by exact H. apply round_pos_err, H.
  - rewrite round_of_zero by lra. unfold eps64. split; nra.
Qed.

Lemma round_comp (x y : Q) : 0 <= x -> x == y -> round x == round y.
Proof.
  intros Hx E. apply Qle_antisym; apply round_mono; lra.
Qed.

Lemma round_pos_comp (x y : Q) : 0 < x -> x == y -> round_pos x == round_pos y.
Proof. intros Hx E. apply Qle_antisym; apply round_pos_mono; lra. Qed.

Lemma round_of_neg (x : Q) : x < 0 -> round x == - round_pos (- x).
Proof.
  intro Hx. unfold round. destruct x as [[|n|n] d]; cbn [Qnum];
    try (unfold Qlt in Hx; cbn in Hx; lia).
  apply Qred_correct.
Qed.

Lemma round_comp_all (x y : Q) : x == y -> round x == round y.
Proof.
  intro E. destruct (Q_dec 0 x) as [[H|H]|H].
  - apply round_comp; lra.
  - rewrite (round_of_neg x), (round_of_neg y) by lra.
    apply Qopp_comp, round_pos_comp; lra.
  - rewrite (round_of_zero x), (round_of_zero y) by lra. reflexivity.
Qed.

#[export] Instance round_proper : Proper (Qeq ==> Qeq) round.
Proof. intros x y E. apply round_comp_all, E. Qed.

Lemma rne_comp (x y : Q) : x == y -> rne x = rne y.
Proof. intro E. apply Z.le_antisymm; apply rne_mono; lra. Qed.

(** Integers below 2^53 are representable. *)
Lemma round_int (n : Z) : (0 <= n < 2 ^ 53)%Z -> round (inject_Z n) == inject_Z n.
Proof.
  intros [H0 H1]. destruct (Z.eq_dec n 0) as [->|Hn]; [reflexivity|].
  assert (Hx : 0 < inject_Z n) by (change 0 with (inject_Z 0); rewrite <- Zlt_Qlt; lia).
  rewrite round_of_pos, round_pos_eq by exact Hx.
  destruct (ilog2_spec _ Hx) as [L1 _].
  set (l := ilog2 (inject_Z n)) in *.
  assert (Hl : (l <= 52)%Z).
  { destruct (Z_le_gt_dec l 52) as [H|H]; [exact H|exfalso].
    assert (2 ^ 53 <= 2 ^ l) by (apply two_pow_le; lia).
    assert (inject_Z n < 2 ^ 53).
    { change (2 ^ 53) with (inject_Z (2 ^ 53)). rewrite <- Zlt_Qlt. exact H1. }
    lra. }
  assert (E : inject_Z n / 2 ^ (l - 52) == inject_Z (n * 2 ^ (52 - l))).
  { rewrite inject_Z_mult, two_pow_inj_Z by lia.
    replace (l - 52)%Z with (- (52 - l))%Z by lia.
    rewrite Qpower_opp. field. pose proof (two_pow_pos (52 - l)). lra. }
  rewrite (rne_comp _ _ E), rne_Z.
  rewrite inject_Z_mult, two_pow_inj_Z by lia.
  rewrite <- Qmult_assoc, <- Qpower_plus by discriminate.
  replace (52 - l + (l - 52))%Z with 0%Z by lia. change (2 ^ 0) with 1. ring.
Qed.

Lemma maxInt64_val : maxInt64 = 9223372036854775807%Z.
Proof. reflexivity. Qed.

Lemma Seconds_form (e : Z) :
  (0 <= e <= maxInt64)%Z ->
  Seconds e == round (inject_Z (e / Second) + round (inject_Z (e mod Second) / 1000000000)).
Proof.
  intros [H0 H1]. unfold Seconds, add, div, of_int.
  rewrite Z.quot_div_nonneg, Z.rem_mod_nonneg by (unfold Second; lia).
  rewrite maxInt64_val in H1.
  assert (0 <= e / Second < 2 ^ 53)%Z.
  { split; [apply Z.div_pos; unfold Second; lia|].
    apply Z.div_lt_upper_bound; [reflexivity|]. change (Second * 2 ^ 53)%Z with 9007199254740992000000000%Z. lia. }
  assert (0 <= e mod Second < 2 ^ 53)%Z.
  { pose proof (Z.mod_pos_bound e Second eq_refl). change (2 ^ 53)%Z with 9007199254740992%Z. unfold Second in *. lia. }
  rewrite !round_int by assumption. reflexivity.
Qed.

Lemma frac_bounds (e : Z) :
  0 <= inject_Z (e mod Second) / 1000000000 /\ inject_Z (e mod Second) / 1000000000 <= 1.
Proof.
  pose proof (Z.mod_pos_bound e Second eq_refl) as [H0 H1].
  assert (0 <= inject_Z (e mod Second)) by (change 0 with (inject_Z 0); rewrite <- Zle_Qle; exact H0).
  assert (inject_Z (e mod Second) <= 1000000000).
  { change 1000000000 with (inject_Z Second). rewrite <- Zle_Qle. lia. }
  split.
  - apply Qle_shift_div_l; lra.
  - apply Qle_shift_div_r; lra.
Qed.

Lemma Seconds_nonneg (e : Z) : (0 <= e <= maxInt64)%Z -> 0 <= Seconds e.
Proof.
  intro H. rewrite Seconds_form by exact H. apply round_nonneg.
  destruct (frac_bounds e) as [F0 _].
  pose proof (round_nonneg _ F0).
  assert (0 <= inject_Z (e / Second)).
  { change 0 with (inject_Z 0). rewrite <- Zle_Qle. apply Z.div_pos; [lia | reflexivity]. }
  lra.
Qed.

Lemma Seconds_mono (e1 e2 : Z) :
  (0 <= e1)%Z -> (e1 <= e2)%Z -> (e2 <= maxInt64)%Z -> Seconds e1 <= Seconds e2.
Proof.
  intros H0 H12 H2. rewrite !Seconds_form by lia.
  destruct (frac_bounds e1) as [A0 A1]. destruct (frac_bounds e2) as [B0 B1].
  pose proof (round_nonneg _ A0) as RA. pose proof (round_nonneg _ B0) as RB.
  assert (S1 : 0 <= inject_Z (e1 / Second)).
  { change 0 with (inject_Z 0). rewrite <- Zle_Qle. apply Z.div_pos; [lia | reflexivity]. }
  apply round_mono; [lra|].
  assert (Hs : (e1 / Second <= e2 / Second)%Z) by (apply Z.div_le_mono; [reflexivity | lia]).
  destruct (Z.eq_dec (e1 / Second) (e2 / Second)) as [E|NE].
  - rewrite E. apply Qplus_le_r. apply round_mono; [exact A0|].
    apply Qmult_le_compat_r; [| discriminate].
    rewrite <- Zle_Qle.
    pose proof (Z.div_mod e1 Second ltac:(discriminate)).
    pose proof (Z.div_mod e2 Second ltac:(discriminate)). lia.
  - assert (R1 : round (inject_Z (e1 mod Second) / 1000000000) <= 1).
    { apply Qle_trans with (round 1); [apply round_mono; assumption|].
      vm_compute. discriminate. }
    assert (inject_Z (e1 / Second) + 1 <= inject_Z (e2 / Second)).
    { change 1 with (inject_Z 1). rewrite <- inject_Z_plus, <- Zle_Qle. lia. }
    lra.
Qed.

(** The relative error of [Seconds]. *)
Lemma Seconds_err (e : Z) :
  (0 <= e <= maxInt64)%Z ->
  inject_Z e / 1000000000 * ((1 - eps64) * (1 - eps64)) <= Seconds e /\
  Seconds e <= inject_Z e / 1000000000 * ((1 + eps64) * (1 + eps64)).
Proof.
  intro H. rewrite Seconds_form by exact H.
  destruct (frac_bounds e) as [F0 F1].
  destruct (round_err _ F0) as [R1 R2]. pose proof (round_nonneg _ F0) as R0.
  set (f := inject_Z (e mod Second) / 1000000000) in *.
  assert (S1 : 0 <= inject_Z (e / Second)).
  { change 0 with (inject_Z 0). rewrite <- Zle_Qle. apply Z.div_pos; [lia | reflexivity]. }
  assert (E : inject_Z e / 1000000000 == inject_Z (e / Second) + f).
  { unfold f. rewrite (Z.div_mod e Second) at 1 by discriminate.
    rewrite inject_Z_plus, inject_Z_mult. change (inject_Z Second) with 1000000000. field. }
  rewrite E.
  assert (Hsum : 0 <= inject_Z (e / Second) + round f) by lra.
  destruct (round_err _ Hsum) as [T1 T2].
  set (s := inject_Z (e / Second)) in *. clearbody s f.
  set (rf := round f) in *. set (rs := round (s + rf)) in *. clearbody rf rs.
  unfold eps64 in *. split; nra.
Qed.

Lemma of_int_pos (T : Z) : (0 < T)%Z -> 1 <= of_int T.
Proof.
  intro H. unfold of_int. apply Qle_trans with (round 1); [vm_compute; discriminate|].
  apply round_mono; [lra|]. change 1 with (inject_Z 1). rewrite <- Zle_Qle. lia.
Qed.

Lemma fadeRatio_nonneg (T e : Z) :
  (0 < T)%Z -> (0 <= e <= maxInt64)%Z -> 0 <= fadeRatio T e.
Proof.
  intros HT He. unfold fadeRatio, mul, div. apply round_nonneg.
  apply Qmult_le_0_compat; [| apply Seconds_nonneg, He].
  apply round_nonneg. pose proof (of_int_pos T HT).
  apply Qle_shift_div_l; [lra|]. change (of_int MAX_POWER) with 255. lra.
Qed.

Lemma fadeRatio_mono (T e1 e2 : Z) :
  (0 < T)%Z -> (0 <= e1)%Z -> (e1 <= e2)%Z -> (e2 <= maxInt64)%Z ->
  fadeRatio T e1 <= fadeRatio T e2.
Proof.
  intros HT H0 H12 H2. unfold fadeRatio, mul, div.
  pose proof (of_int_pos T HT) as HT1.
  assert (Hc : 0 <= round (of_int MAX_POWER / of_int T)).
  { apply round_nonneg. apply Qle_shift_div_l; [lra|]. change (of_int MAX_POWER) with 255. lra. }
  pose proof (Seconds_nonneg e1 ltac:(lia)) as S1.
  pose proof (Seconds_mono e1 e2 H0 H12 H2) as S12.
  apply round_mono.
  - apply Qmult_le_0_compat; assumption.
  - rewrite (Qmult_comm _ (Seconds e1)), (Qmult_comm _ (Seconds e2)).
    apply Qmult_le_compat_r; assumption.
Qed.

Lemma up_factor : (1 + 2 * eps64) * (((1 + eps64) * (1 + eps64)) * ((1 + eps64) * (1 + eps64))) <= 1 + 7 * eps64.
Proof. vm_compute. discriminate. Qed.

Lemma down_factor : 1 - 7 * eps64 <= (1 - eps64) * (((1 - eps64) * (1 - eps64)) * ((1 - eps64) * (1 - eps64))).
Proof. vm_compute. discriminate. Qed.

(** The computed ratio is the exact one up to a relative error of 7 * 2^-53. *)
Lemma fadeRatio_err (T e : Z) :
  (0 < T)%Z -> (0 <= e <= maxInt64)%Z ->
  exactRatio T e * (1 - 7 * eps64) <= fadeRatio T e /\
  fadeRatio T e <= exactRatio T e * (1 + 7 * eps64).
Proof.
  intros HT He.
  pose proof (of_int_pos T HT) as HT1.
  assert (Ht : 1 <= inject_Z T) by (change 1 with (inject_Z 1); rewrite <- Zle_Qle; lia).
  destruct (round_err (inject_Z T) ltac:(lra)) as [Tf1 Tf2]. fold (of_int T) in Tf1, Tf2.
  destruct (Seconds_err e He) as [S1 S2].
  pose proof (Seconds_nonneg e He) as S0.
  assert (E0 : 0 <= inject_Z e / 1000000000).
  { apply Qle_shift_div_l; [reflexivity|]. change (0 * 1000000000) with (inject_Z 0).
    rewrite <- Zle_Qle. lia. }
  assert (Hq0 : 0 <= 255 / of_int T) by (apply Qle_shift_div_l; lra).
  destruct (round_err _ Hq0) as [C1 C2]. pose proof (round_nonneg _ Hq0) as C0.
  assert (Hp0 : 0 <= round (255 / of_int T) * Seconds e) by (apply Qmult_le_0_compat; assumption).
  destruct (round_err _ Hp0) as [X1 X2].
  assert (EX : exactRatio T e * inject_Z T == 255 * (inject_Z e / 1000000000)).
  { unfold exactRatio. rewrite !inject_Z_mult. change (inject_Z Second) with 1000000000.
    change (inject_Z 255) with 255. field. lra. }
  assert (Hq : 255 / of_int T * of_int T == 255) by (field; lra).
  unfold fadeRatio, mul, div. change (of_int MAX_POWER) with 255.
  pose proof up_factor as UP. pose proof down_factor as DN.
  set (xh := round (round (255 / of_int T) * Seconds e)) in *.
  set (c := round (255 / of_int T)) in *.
  set (q := 255 / of_int T) in *.
  set (s := Seconds e) in *.
  set (E := inject_Z e / 1000000000) in *.
  set (X := exactRatio T e) in *.
  set (t := inject_Z T) in *. set (tf := of_int T) in *.
  clearbody xh c q s E X t tf.
  assert (U0 : 0 < eps64) by reflexivity.
  assert (U1 : eps64 < 1 # 1000) by reflexivity.
  set (a := 1 + eps64) in *. set (b := 1 - eps64) in *.
  assert (A0 : 1 < a) by (unfold a; lra). assert (B0 : 0 < b) by (unfold b; lra).
  assert (B1 : b < 1) by (unfold b; lra).
  (* upper bound *)
  assert (QT : q * t * b <= 255).
  { rewrite <- Hq. assert (t * b <= tf) by lra. nra. }
  assert (CS : c * s <= (q * a) * (E * (a * a))).
  { assert (0 <= q * a) by nra. nra. }
  assert (QE0 : 0 <= q * E) by nra.
  assert (XU : xh <= q * E * ((a * a) * (a * a))).
  { setoid_replace (q * E * (a * a * (a * a))) with (q * a * (E * (a * a)) * a) by ring.
    apply Qle_trans with (c * s * a); [exact X2 | nra]. }
  assert (QT2 : q * t <= 255 * (1 + 2 * eps64)).
  { assert (1 <= (1 + 2 * eps64) * b) by (unfold b; nra).
    assert (q * t * b <= 255 * (1 + 2 * eps64) * b) by nra.
    apply Qmult_le_r with b; assumption. }
  assert (A4 : 0 <= (a * a) * (a * a)) by nra.
  assert (XT : xh * t <= X * t * (1 + 7 * eps64)).
  { rewrite EX.
    apply Qle_trans with (q * E * ((a * a) * (a * a)) * t); [nra|].
    setoid_replace (q * E * (a * a * (a * a)) * t) with (q * t * (E * (a * a * (a * a)))) by ring.
    apply Qle_trans with (255 * (1 + 2 * eps64) * (E * (a * a * (a * a)))).
    - apply Qmult_le_compat_r; [exact QT2 | nra].
    - setoid_replace (255 * (1 + 2 * eps64) * (E * (a * a * (a * a))))
        with (255 * E * ((1 + 2 * eps64) * (a * a * (a * a)))) by ring.
      rewrite (Qmult_comm (255 * E) (1 + 7 * eps64)), (Qmult_comm (255 * E)).
      apply Qmult_le_compat_r; [exact UP | lra]. }
  (* lower bound *)
  assert (QTl : 255 <= q * t * a).
  { rewrite <- Hq. assert (tf <= t * a) by lra. nra. }
  assert (CSl : (q * b) * (E * (b * b)) <= c * s).
  { assert (0 <= q * b) by nra. assert (0 <= E * (b * b)) by nra. nra. }
  assert (XL : q * E * ((b * b) * (b * b)) <= xh).
  { setoid_replace (q * E * (b * b * (b * b))) with (q * b * (E * (b * b)) * b) by ring.
    apply Qle_trans with (c * s * b); [nra | exact X1]. }
  assert (QT3 : 255 * b <= q * t).
  { assert (a * b <= 1) by (unfold a, b; nra).
    assert (255 * b * a <= q * t * a) by nra.
    apply Qmult_le_r with a; [lra | assumption]. }
  assert (B4 : 0 <= (b * b) * (b * b)) by nra.
  assert (XTl : X * t * (1 - 7 * eps64) <= xh * t).
  { rewrite EX.
    apply Qle_trans with (q * E * ((b * b) * (b * b)) * t); [|nra].
    setoid_replace (q * E * (b * b * (b * b)) * t) with (q * t * (E * (b * b * (b * b)))) by ring.
    apply Qle_trans with (255 * b * (E * (b * b * (b * b)))).
    - setoid_replace (255 * b * (E * (b * b * (b * b))))
        with (255 * E * (b * (b * b * (b * b)))) by ring.
      rewrite (Qmult_comm (255 * E) (1 - 7 * eps64)), (Qmult_comm (255 * E)).
      apply Qmult_le_compat_r; [exact DN | lra].
    - apply Qmult_le_compat_r; [exact QT3 | nra]. }
  split.
  - apply Qmult_le_r with t; [lra|].
    setoid_replace (X * (1 - 7 * eps64) * t) with (X * t * (1 - 7 * eps64)) by ring. exact XTl.
  - apply Qmult_le_r with t; [lra|].
    setoid_replace (X * (1 + 7 * eps64) * t) with (X * t * (1 + 7 * eps64)) by ring. exact XT.
Qed.

Lemma float64_to_int_Z (z : Z) :
  (minInt64 <= z <= maxInt64)%Z -> float64_to_int (inject_Z z) = z.
Proof.
  intros [H1 H2]. unfold float64_to_int. cbn [inject_Z Qnum Qden].
  rewrite Z.quot_1_r.
  apply Z.leb_le in H1, H2. rewrite H1, H2. reflexivity.
Qed.

Lemma Qceiling_le (x : Q) (z : Z) : x <= inject_Z z -> (Qceiling x <= z)%Z.
Proof.
  intro H. pose proof (Qceiling_lt x) as C.
  assert (inject_Z (Qceiling x - 1) < inject_Z z) by lra.
  rewrite <- Zlt_Qlt in H0. lia.
Qed.

Lemma Qfloor_ge (x : Q) (z : Z) : inject_Z z <= x -> (z <= Qfloor x)%Z.
Proof.
  intro H. pose proof (Qlt_floor x) as C.
  assert (inject_Z z < inject_Z (Qfloor x + 1)) by lra.
  rewrite <- Zlt_Qlt in H0. lia.
Qed.

Lemma exactRatio_nonneg (T e : Z) : (0 < T)%Z -> (0 <= e)%Z -> 0 <= exactRatio T e.
Proof.
  intros HT He. unfold exactRatio.
  apply Qle_shift_div_l.
  - change 0 with (inject_Z 0). rewrite <- Zlt_Qlt. unfold Second. lia.
  - rewrite Qmult_0_l. change 0 with (inject_Z 0). rewrite <- Zle_Qle. lia.
Qed.

Lemma exactRatio_le (T e : Z) (k : Z) :
  (0 < T)%Z -> (255 * e <= k * (T * Second))%Z -> exactRatio T e <= inject_Z k.
Proof.
  intros HT He. unfold exactRatio.
  apply Qle_shift_div_r.
  - change 0 with (inject_Z 0). rewrite <- Zlt_Qlt. unfold Second. lia.
  - rewrite <- inject_Z_mult, <- Zle_Qle. exact He.
Qed.

Lemma exactRatio_mono (T e1 e2 : Z) :
  (0 < T)%Z -> (e1 <= e2)%Z -> exactRatio T e1 <= exactRatio T e2.
Proof.
  intros HT H. unfold exactRatio. apply Qmult_le_compat_r.
  - rewrite <- Zle_Qle. lia.
  - apply Qlt_le_weak, Qinv_lt_0_compat. change 0 with (inject_Z 0).
    rewrite <- Zlt_Qlt. unfold Second. lia.
Qed.

(** The computed ratio stays far below the range of [int]. *)
Lemma fadeRatio_small (T e : Z) :
  (0 < T)%Z -> (0 <= e <= maxInt64)%Z -> fadeRatio T e <= 4703919738796.
Proof.
  intros HT He. destruct (fadeRatio_err T e HT He) as [_ H].
  pose proof (exactRatio_nonneg T e HT ltac:(lia)) as X0.
  assert (X1 : exactRatio T e <= inject_Z 2351959869398).
  { apply exactRatio_le; [exact HT|]. rewrite maxInt64_val in He. unfold Second. nia. }
  change (inject_Z 2351959869398) with 2351959869398 in X1.
  unfold eps64 in H. nra.
Qed.

Lemma fadeInPower_eq (T e : Z) :
  (0 < T)%Z -> (0 <= e <= maxInt64)%Z ->
  fadeInPower T e = Z.min 255 (Qceiling (fadeRatio T e)) /\
  (0 <= Qceiling (fadeRatio T e))%Z.
Proof.
  intros HT He.
  pose proof (fadeRatio_nonneg T e HT He) as R0.
  pose proof (fadeRatio_small T e HT He) as R1.
  assert (C0 : (0 <= Qceiling (fadeRatio T e))%Z).
  { pose proof (Qle_ceiling (fadeRatio T e)).
    assert (inject_Z (-1) < inject_Z (Qceiling (fadeRatio T e))) by (change (inject_Z (-1)) with (-1); lra).
    rewrite <- Zlt_Qlt in H0. lia. }
  assert (C1 : (Qceiling (fadeRatio T e) <= 4703919738796)%Z) by (apply Qceiling_le; exact R1).
  split; [|exact C0].
  unfold fadeInPower, Ceil. rewrite float64_to_int_Z by (rewrite maxInt64_val; unfold minInt64; lia).
  destruct (255 <? Qceiling (fadeRatio T e))%Z eqn:E.
  - apply Z.ltb_lt in E. lia.
  - apply Z.ltb_ge in E. lia.
Qed.

Lemma wrap64_small (z : Z) : (minInt64 <= z <= maxInt64)%Z -> wrap64 z = z.
Proof.
  unfold wrap64, minInt64, maxInt64. intro H.
  rewrite Z.mod_small by lia. lia.
Qed.

Lemma fadeOutPower_eq (T e : Z) :
  (0 < T)%Z -> (0 <= e <= maxInt64)%Z ->
  fadeOutPower T e = Z.max 0 (255 - Qfloor (fadeRatio T e)) /\
  (0 <= Qfloor (fadeRatio T e))%Z.
Proof.
  intros HT He.
  pose proof (fadeRatio_nonneg T e HT He) as R0.
  pose proof (fadeRatio_small T e HT He) as R1.
  assert (C0 : (0 <= Qfloor (fadeRatio T e))%Z) by (apply Qfloor_ge; exact R0).
  assert (C1 : (Qfloor (fadeRatio T e) <= 4703919738796)%Z).
  { pose proof (Qfloor_le (fadeRatio T e)).
    assert (inject_Z (Qfloor (fadeRatio T e)) <= inject_Z 4703919738796) by (change (inject_Z 4703919738796) with 4703919738796; lra).
    rewrite <- Zle_Qle in H0. exact H0. }
  split; [|exact C0].
  unfold fadeOutPower, Floor.
  rewrite float64_to_int_Z by (rewrite maxInt64_val; unfold minInt64; lia).
  rewrite wrap64_small by (rewrite maxInt64_val; unfold minInt64; lia).
  destruct (255 - Qfloor (fadeRatio T e) <? 0)%Z eqn:E.
  - apply Z.ltb_lt in E. lia.
  - apply Z.ltb_ge in E. lia.
Qed.

End Numerics.
Import Numerics.

Example fadeRatio_201_67 : fadeRatio 201 (67 * Second) = (5981343255101441 # 70368744177664)%Q.
Proof. vm_compute; reflexivity. Qed.

Lemma fadeInPower_range (T e : Z) :
  0 < T -> 0 <= e <= maxInt64 -> 0 <= fadeInPower T e <= 255.
Proof.
  intros HT He. destruct (fadeInPower_eq T e HT He) as [-> C0]. lia.
Qed.

Lemma fadeOutPower_range (T e : Z) :
  0 < T -> 0 <= e <= maxInt64 -> 0 <= fadeOutPower T e <= 255.
Proof.
  intros HT He. destruct (fadeOutPower_eq T e HT He) as [-> C0]. lia.
Qed.

Lemma fadeInPower_mono (T e1 e2 : Z) :
  0 < T -> 0 <= e1 -> e1 <= e2 -> e2 <= maxInt64 ->
  fadeInPower T e1 <= fadeInPower T e2.
Proof.
  intros HT H0 H12 H2.
  destruct (fadeInPower_eq T e1 HT ltac:(lia)) as [-> _].
  destruct (fadeInPower_eq T e2 HT ltac:(lia)) as [-> _].
  pose proof (Qceiling_resp_le _ _ (fadeRatio_mono T e1 e2 HT H0 H12 H2)). lia.
Qed.

Lemma fadeOutPower_anti (T e1 e2 : Z) :
  0 < T -> 0 <= e1 -> e1 <= e2 -> e2 <= maxInt64 ->
  fadeOutPower T e2 <= fadeOutPower T e1.
Proof.
  intros HT H0 H12 H2.
  destruct (fadeOutPower_eq T e1 HT ltac:(lia)) as [-> _].
  destruct (fadeOutPower_eq T e2 HT ltac:(lia)) as [-> _].
  pose proof (Qfloor_resp_le _ _ (fadeRatio_mono T e1 e2 HT H0 H12 H2)). lia.
Qed.

(** Within the transition the computed ratio is less than 2^-42 away from
    the exact one. *)
Lemma fadeRatio_close (T e : Z) :
  0 < T -> 0 <= e <= T * Second -> e <= maxInt64 ->
  (exactRatio T e - (1 # 4398046511104) <= fadeRatio T e /\
   fadeRatio T e <= exactRatio T e + (1 # 4398046511104))%Q.
Proof.
  intros HT He Hm.
  destruct (fadeRatio_err T e HT ltac:(lia)) as [L U].
  pose proof (exactRatio_nonneg T e HT ltac:(lia)) as X0.
  assert (X1 : (exactRatio T e <= inject_Z 255)%Q) by (apply exactRatio_le; [exact HT | lia]).
  change (inject_Z 255) with 255%Q in X1.
  unfold eps64 in *. split; nra.
Qed.

Lemma inject_Z_pred (z : Z) : (inject_Z (z - 1) == inject_Z z - 1)%Q.
Proof. unfold Z.sub. rewrite inject_Z_plus, inject_Z_opp. reflexivity. Qed.

Lemma inject_Z_succ (z : Z) : (inject_Z (z + 1) == inject_Z z + 1)%Q.
Proof. rewrite inject_Z_plus. reflexivity. Qed.

Lemma Qceiling_close (x y : Q) :
  (x - 1 < y)%Q -> (y < x + 1)%Q -> Qceiling x - 1 <= Qceiling y <= Qceiling x + 1.
Proof.
  intros H1 H2.
  pose proof (Qle_ceiling x) as X1. pose proof (Qceiling_lt x) as X2.
  pose proof (Qle_ceiling y) as Y1. pose proof (Qceiling_lt y) as Y2.
  rewrite inject_Z_pred in X2, Y2.
  split.
  - assert (Qceiling x <= Qceiling y + 1); [|lia].
    apply Qceiling_le. rewrite inject_Z_succ. lra.
  - apply Qceiling_le. rewrite inject_Z_succ. lra.
Qed.

Lemma Qfloor_close (x y : Q) :
  (x - 1 < y)%Q -> (y < x + 1)%Q -> Qfloor x - 1 <= Qfloor y <= Qfloor x + 1.
Proof.
  intros H1 H2.
  pose proof (Qfloor_le x) as X1. pose proof (Qlt_floor x) as X2.
  pose proof (Qfloor_le y) as Y1. pose proof (Qlt_floor y) as Y2.
  rewrite inject_Z_succ in X2, Y2.
  split.
  - assert (Qfloor x - 1 <= Qfloor y); [|lia].
    apply Qfloor_ge. rewrite inject_Z_pred. lra.
  - assert (Qfloor y - 1 <= Qfloor x); [|lia].
    apply Qfloor_ge. rewrite inject_Z_pred. lra.
Qed.

Lemma fadeInPower_near (T e : Z) :
  0 < T -> 0 <= e <= T * Second -> e <= maxInt64 ->
  Z.abs (fadeInPower T e - specFadeIn T e) <= 1.
Proof.
  intros HT He Hm.
  destruct (fadeInPower_eq T e HT ltac:(lia)) as [-> C0].
  destruct (fadeRatio_close T e HT He Hm) as [L U].
  pose proof (Qceiling_close (exactRatio T e) (fadeRatio T e) ltac:(lra) ltac:(lra)).
  unfold specFadeIn, clamp. lia.
Qed.

Lemma fadeOutPower_near (T e : Z) :
  0 < T -> 0 <= e <= T * Second -> e <= maxInt64 ->
  Z.abs (fadeOutPower T e - specFadeOut T e) <= 1.
Proof.
  intros HT He Hm.
  destruct (fadeOutPower_eq T e HT ltac:(lia)) as [-> C0].
  destruct (fadeRatio_close T e HT He Hm) as [L U].
  pose proof (Qfloor_close (exactRatio T e) (fadeRatio T e) ltac:(lra) ltac:(lra)).
  unfold specFadeOut, clamp. lia.
Qed.

Lemma Sub_range (t u : Time) : minInt64 <= Sub t u <= maxInt64.
Proof. unfold Sub, minInt64, maxInt64. lia. Qed.

Lemma Sub_self (t : Time) : Sub t t = 0.
Proof. unfold Sub. rewrite Z.sub_diag. reflexivity. Qed.

Lemma Sub_pos (t u : Time) : 0 < Sub t u <-> u < t.
Proof. unfold Sub, minInt64, maxInt64. lia. Qed.

Lemma Sub_exact (t u : Time) : minInt64 <= t - u <= maxInt64 -> Sub t u = t - u.
Proof. unfold Sub. lia. Qed.

Lemma glows_app (a b : list Effect) : glows (a ++ b) = glows a ++ glows b.
Proof.
  induction a as [|e a IH]; [reflexivity|].
  destruct e; cbn; rewrite ?IH; reflexivity.
Qed.

Lemma halfBefore_exact (T : Z) :
  0 < T -> T * Second <= maxInt64 ->
  halfBefore (wrap64 (T * Second)) = - (T * (Second / 2)).
Proof.
  intros H0 H1. unfold halfBefore.
  rewrite (wrap64_small (T * Second)) by (unfold minInt64, maxInt64, Second in *; lia).
  rewrite wrap64_small by (unfold minInt64, maxInt64, Second in *; lia).
  change (Second / 2) with 500000000. unfold Second.
  replace (- (T * 1000000000)) with ((- (T * 500000000)) * 2) by lia.
  apply Z.quot_mul. discriminate.
Qed.

Ltac state_simpl :=
  cbn [glow isPaused isRunning cfg currentPower transitionTime transitionDuration
       sleepDuration fadeOutTime fadeInTime power lastState isRecv pinger trace
       emit set_glow set_currentPower set_isPaused set_isRunning set_cfg
       set_fadeOutTime set_fadeInTime set_power set_lastState set_isRecv
       set_pinger setGlow rampBody] in *.

Ltac glows_simpl :=
  state_simpl; repeat rewrite glows_app; cbn [glows app]; rewrite ?app_nil_r, <- ?app_assoc; cbn [app].

Section Ticks.
Variables NextSunrise NextSunset PreviousSunset : Time -> Q -> Q -> Time.

(** What the fade-in block does, case by case. *)
Lemma fadeIn_cases (c : Clock) (s : State) :
  let e := Sub (nowIn c) (fadeInTime s) in
  let p := fadeInPower (transitionTime s) e in
  let t := Add (NextSunset (nowSunset c) (Latitude (cfg s)) (Longitude (cfg s)))
               (halfBefore (transitionDuration s)) in
  (e <= 0 /\ fadeIn NextSunset c s = s) \/
  (0 < e /\ p < 255 /\ fadeIn NextSunset c s = setGlow p (set_power p s)) \/
  (0 < e /\ 255 <= p /\
   fadeIn NextSunset c s
   = emit (LogNextFadeIn t) (set_fadeInTime t (setGlow p (set_power p s)))).
Proof.
  intros e p t. unfold fadeIn. fold e.
  destruct (0 <? e) eqn:E.
  - apply Z.ltb_lt in E. right. cbn [power set_power setGlow emit set_currentPower set_glow].
    fold p. destruct (255 <=? p) eqn:P.
    + apply Z.leb_le in P. right. auto.
    + apply Z.leb_gt in P. left. auto.
  - apply Z.ltb_ge in E. left. auto.
Qed.

Lemma fadeOut_cases (c : Clock) (s : State) :
  let e := Sub (nowOut c) (fadeOutTime s) in
  let p := fadeOutPower (transitionTime s) e in
  let t := Add (NextSunrise (nowSunrise c) (Latitude (cfg s)) (Longitude (cfg s)))
               (halfBefore (transitionDuration s)) in
  (e <= 0 /\ fadeOut NextSunrise c s = s) \/
  (0 < e /\ 0 < p /\ fadeOut NextSunrise c s = setGlow p (set_power p s)) \/
  (0 < e /\ p <= 0 /\
   fadeOut NextSunrise c s
   = emit (LogNextFadeOut t) (set_fadeOutTime t (setGlow p (set_power p s)))).
Proof.
  intros e p t. unfold fadeOut. fold e.
  destruct (0 <? e) eqn:E.
  - apply Z.ltb_lt in E. right. cbn [power set_power setGlow emit set_currentPower set_glow].
    fold p. destruct (p <=? 0) eqn:P.
    + apply Z.leb_le in P. right. auto.
    + apply Z.leb_gt in P. left. auto.
  - apply Z.ltb_ge in E. left. auto.
Qed.

Lemma tick_running (c : Clock) (s : State) :
  isPaused s = false ->
  tick NextSunrise NextSunset c s
  = fadeOut NextSunrise c (fadeIn NextSunset c (emit (Sleep (sleepDuration s)) s)).
Proof. intro H. unfold tick. cbn [isPaused emit]. rewrite H. reflexivity. Qed.

Lemma tick_paused (c : Clock) (s : State) :
  isPaused s = true ->
  tick NextSunrise NextSunset c s = emit (Sleep (sleepDuration s)) s.
Proof. intro H. unfold tick. cbn [isPaused emit]. rewrite H. reflexivity. Qed.

(** C10.  On an iteration in which both windows are open, the fade-in block
    runs first and the fade-out block second: the driver is called twice,
    with the fade-in level and then the fade-out level, and the brightness
    at the end of the iteration is the fade-out level. *)
Theorem both_windows_open (c : Clock) (s : State) :
  isPaused s = false ->
  0 < Sub (nowIn c) (fadeInTime s) ->
  0 < Sub (nowOut c) (fadeOutTime s) ->
  let pin := fadeInPower (transitionTime s) (Sub (nowIn c) (fadeInTime s)) in
  let pout := fadeOutPower (transitionTime s) (Sub (nowOut c) (fadeOutTime s)) in
  glows (trace (tick NextSunrise NextSunset c s)) = glows (trace s) ++ [pin; pout] /\
  currentPower (tick NextSunrise NextSunset c s) = pout.
Proof.
  intros HP Hin Hout pin pout. rewrite tick_running by exact HP.
  set (s0 := emit (Sleep (sleepDuration s)) s).
  destruct (fadeIn_cases c s0) as [[H _]|[(_ & _ & ->)|(_ & _ & ->)]];
    [cbn in H; lia| |];
  match goal with |- context [fadeOut NextSunrise c ?x] => destruct (fadeOut_cases c x)
      as [[H _]|[(_ & _ & ->)|(_ & _ & ->)]] end; try (cbn in H; lia);
  unfold s0; glows_simpl; auto.
Qed.
End Ticks.

Lemma fadeInPower_le_255 (T e : Z) : fadeInPower T e <= 255.
Proof.
  unfold fadeInPower.
  destruct (255 <? _) eqn:E; [lia | apply Z.ltb_ge in E; lia].
Qed.

Lemma fadeOutPower_ge_0 (T e : Z) : 0 <= fadeOutPower T e.
Proof.
  unfold fadeOutPower.
  destruct (_ <? 0) eqn:E; [lia | apply Z.ltb_ge in E; lia].
Qed.

(** Short of 253/255 of the transition the fade-in stays below full
    brightness. *)
Lemma fadeInPower_below (T e : Z) :
  0 < T -> 0 <= e <= maxInt64 -> 255 * e <= 253 * (T * Second) ->
  fadeInPower T e < 255.
Proof.
  intros HT He Hb.
  destruct (fadeInPower_eq T e HT He) as [-> _].
  assert (HeT : 0 <= e <= T * Second) by (unfold Second in *; lia).
  destruct (fadeRatio_close T e HT HeT ltac:(lia)) as [_ U].
  pose proof (exactRatio_le T e 253 HT Hb) as X.
  change (inject_Z 253) with 253%Q in X.
  assert (Qceiling (fadeRatio T e) <= 254); [|lia].
  apply Qceiling_le. change (inject_Z 254) with 254%Q. lra.
Qed.

(** At the end of the transition the fade-in has reached full brightness. *)
Lemma fadeInPower_full (T e : Z) :
  0 < T -> T * Second <= e <= maxInt64 -> fadeInPower T e = 255.
Proof.
  intros HT He.
  pose proof (fadeInPower_le_255 T e).
  assert (fadeInPower T (T * Second) <= fadeInPower T e).
  { apply fadeInPower_mono; unfold Second in *; lia. }
  assert (254 < fadeInPower T (T * Second)); [|lia].
  destruct (fadeInPower_eq T (T * Second) HT ltac:(unfold Second in *; lia)) as [-> _].
  destruct (fadeRatio_close T (T * Second) HT ltac:(unfold Second in *; lia) ltac:(lia)) as [L _].
  assert (X : Qeq (exactRatio T (T * Second)) 255%Q).
  { unfold exactRatio. rewrite !inject_Z_mult. change (inject_Z 255) with 255%Q.
    field. split; [discriminate|].
    intro HZ. unfold Qeq in HZ. cbn in HZ. lia. }
  rewrite X in L.
  pose proof (Qle_ceiling (fadeRatio T (T * Second))) as C.
  assert (Qlt (inject_Z 254) (inject_Z (Qceiling (fadeRatio T (T * Second)))))
    as HC by (change (inject_Z 254) with 254%Q; lra).
  rewrite <- Zlt_Qlt in HC. lia.
Qed.

Lemma nextFadeIns_app (a b : list Effect) : nextFadeIns (a ++ b) = nextFadeIns a ++ nextFadeIns b.
Proof.
  induction a as [|e a IH]; [reflexivity|].
  destruct e; cbn; rewrite ?IH; reflexivity.
Qed.

Lemma nextFadeOuts_app (a b : list Effect) :
  nextFadeOuts (a ++ b) = nextFadeOuts a ++ nextFadeOuts b.
Proof.
  induction a as [|e a IH]; [reflexivity|].
  destruct e; cbn; rewrite ?IH; reflexivity.
Qed.

Ltac logs_simpl :=
  state_simpl; repeat rewrite nextFadeIns_app; repeat rewrite nextFadeOuts_app;
  cbn [nextFadeIns nextFadeOuts app]; rewrite ?app_nil_r.

Lemma fadeOutPower_above (T e : Z) :
  0 < T -> 0 <= e <= maxInt64 -> 255 * e <= 253 * (T * Second) ->
  0 < fadeOutPower T e.
Proof.
  intros HT He Hb.
  destruct (fadeOutPower_eq T e HT He) as [-> _].
  assert (HeT : 0 <= e <= T * Second) by (unfold Second in *; lia).
  destruct (fadeRatio_close T e HT HeT ltac:(lia)) as [_ U].
  pose proof (exactRatio_le T e 253 HT Hb) as X.
  change (inject_Z 253) with 253%Q in X.
  pose proof (Qfloor_le (fadeRatio T e)) as F.
  assert (Qlt (inject_Z (Qfloor (fadeRatio T e))) (inject_Z 254)) as HC
    by (change (inject_Z 254) with 254%Q; lra).
  rewrite <- Zlt_Qlt in HC. lia.
Qed.

Section Scheduler.
Variables NextSunrise NextSunset PreviousSunset : Time -> Q -> Q -> Time.

(** The fade-in block leaves alone what the fade-out block reads. *)
Lemma fadeIn_frame (c : Clock) (s : State) :
  let s' := fadeIn NextSunset c s in
  fadeOutTime s' = fadeOutTime s /\ transitionTime s' = transitionTime s /\
  transitionDuration s' = transitionDuration s /\ cfg s' = cfg s /\
  isPaused s' = isPaused s /\ nextFadeOuts (trace s') = nextFadeOuts (trace s).
Proof.
  cbv zeta.
  destruct (fadeIn_cases NextSunset c s) as [[_ ->]|[(_ & _ & ->)|(_ & _ & ->)]];
    logs_simpl; auto 10.
Qed.

Lemma fadeOut_frame (c : Clock) (s : State) :
  let s' := fadeOut NextSunrise c s in
  fadeInTime s' = fadeInTime s /\ transitionTime s' = transitionTime s /\
  transitionDuration s' = transitionDuration s /\ cfg s' = cfg s /\
  isPaused s' = isPaused s /\ nextFadeIns (trace s') = nextFadeIns (trace s).
Proof.
  cbv zeta.
  destruct (fadeOut_cases NextSunrise c s) as [[_ ->]|[(_ & _ & ->)|(_ & _ & ->)]];
    logs_simpl; auto 10.
Qed.

(** The fade-in block, by whether the ramp is complete. *)
Lemma fadeIn_completes (c : Clock) (s : State) :
  completesIn c s = true ->
  let t := Add (NextSunset (nowSunset c) (Latitude (cfg s)) (Longitude (cfg s)))
               (halfBefore (transitionDuration s)) in
  currentPower (fadeIn NextSunset c s) = 255 /\
  fadeInTime (fadeIn NextSunset c s) = t /\
  nextFadeIns (trace (fadeIn NextSunset c s)) = nextFadeIns (trace s) ++ [t].
Proof.
  unfold completesIn. intro H. apply andb_true_iff in H. destruct H as [H1 H2].
  apply Z.ltb_lt in H1. apply Z.leb_le in H2.
  pose proof (fadeInPower_le_255 (transitionTime s) (Sub (nowIn c) (fadeInTime s))).
  destruct (fadeIn_cases NextSunset c s) as [[? _]|[(_ & ? & _)|(_ & _ & ->)]]; try lia.
  logs_simpl. repeat split; lia.
Qed.

Lemma fadeIn_continues (c : Clock) (s : State) :
  completesIn c s = false ->
  fadeInTime (fadeIn NextSunset c s) = fadeInTime s /\
  nextFadeIns (trace (fadeIn NextSunset c s)) = nextFadeIns (trace s).
Proof.
  unfold completesIn. intro H. apply andb_false_iff in H.
  destruct (fadeIn_cases NextSunset c s) as [[_ ->]|[(_ & _ & ->)|(H1 & H2 & _)]];
    logs_simpl; auto.
  apply Z.ltb_lt in H1. apply Z.leb_le in H2. destruct H; congruence.
Qed.

Lemma fadeOut_completes (c : Clock) (s : State) :
  completesOut c s = true ->
  let t := Add (NextSunrise (nowSunrise c) (Latitude (cfg s)) (Longitude (cfg s)))
               (halfBefore (transitionDuration s)) in
  currentPower (fadeOut NextSunrise c s) = 0 /\
  fadeOutTime (fadeOut NextSunrise c s) = t /\
  nextFadeOuts (trace (fadeOut NextSunrise c s)) = nextFadeOuts (trace s) ++ [t].
Proof.
  unfold completesOut. intro H. apply andb_true_iff in H. destruct H as [H1 H2].
  apply Z.ltb_lt in H1. apply Z.leb_le in H2.
  pose proof (fadeOutPower_ge_0 (transitionTime s) (Sub (nowOut c) (fadeOutTime s))).
  destruct (fadeOut_cases NextSunrise c s) as [[? _]|[(_ & ? & _)|(_ & _ & ->)]]; try lia.
  logs_simpl. repeat split; lia.
Qed.

Lemma fadeOut_continues (c : Clock) (s : State) :
  completesOut c s = false ->
  fadeOutTime (fadeOut NextSunrise c s) = fadeOutTime s /\
  nextFadeOuts (trace (fadeOut NextSunrise c s)) = nextFadeOuts (trace s).
Proof.
  unfold completesOut. intro H. apply andb_false_iff in H.
  destruct (fadeOut_cases NextSunrise c s) as [[_ ->]|[(_ & _ & ->)|(H1 & H2 & _)]];
    logs_simpl; auto.
  apply Z.ltb_lt in H1. apply Z.leb_le in H2. destruct H; congruence.
Qed.

Lemma completesOut_frame (c : Clock) (s s' : State) :
  fadeOutTime s' = fadeOutTime s -> transitionTime s' = transitionTime s ->
  completesOut c s' = completesOut c s.
Proof. intros H1 H2. unfold completesOut. rewrite H1, H2. reflexivity. Qed.

Lemma completesIn_frame (c : Clock) (s s' : State) :
  fadeInTime s' = fadeInTime s -> transitionTime s' = transitionTime s ->
  completesIn c s' = completesIn c s.
Proof. intros H1 H2. unfold completesIn. rewrite H1, H2. reflexivity. Qed.
End Scheduler.

(** Where the exact ratio is not within 2^-42 of an integer, rounding makes
    no difference. *)
Lemma fadeInPower_exact (T e : Z) :
  0 < T -> 0 <= e <= T * Second -> e <= maxInt64 ->
  Qceiling (exactRatio T e - (1 # 4398046511104)) = Qceiling (exactRatio T e + (1 # 4398046511104)) ->
  fadeInPower T e = specFadeIn T e.
Proof.
  intros HT He Hm Hc.
  destruct (fadeInPower_eq T e HT ltac:(lia)) as [-> C0].
  destruct (fadeRatio_close T e HT He Hm) as [L U].
  pose proof (Qceiling_resp_le _ _ L) as C1. pose proof (Qceiling_resp_le _ _ U) as C2.
  assert (C3 : Qceiling (exactRatio T e - (1 # 4398046511104)) <= Qceiling (exactRatio T e))
    by (apply Qceiling_resp_le; lra).
  assert (C4 : Qceiling (exactRatio T e) <= Qceiling (exactRatio T e + (1 # 4398046511104)))
    by (apply Qceiling_resp_le; lra).
  unfold specFadeIn, clamp. lia.
Qed.

Lemma fadeOutPower_exact (T e : Z) :
  0 < T -> 0 <= e <= T * Second -> e <= maxInt64 ->
  Qfloor (exactRatio T e - (1 # 4398046511104)) = Qfloor (exactRatio T e + (1 # 4398046511104)) ->
  fadeOutPower T e = specFadeOut T e.
Proof.
  intros HT He Hm Hc.
  destruct (fadeOutPower_eq T e HT ltac:(lia)) as [-> C0].
  destruct (fadeRatio_close T e HT He Hm) as [L U].
  pose proof (Qfloor_resp_le _ _ L) as C1. pose proof (Qfloor_resp_le _ _ U) as C2.
  assert (C3 : Qfloor (exactRatio T e - (1 # 4398046511104)) <= Qfloor (exactRatio T e))
    by (apply Qfloor_resp_le; lra).
  assert (C4 : Qfloor (exactRatio T e) <= Qfloor (exactRatio T e + (1 # 4398046511104)))
    by (apply Qfloor_resp_le; lra).
  unfold specFadeOut, clamp. lia.
Qed.

Section Claims.
Variables NextSunrise NextSunset PreviousSunset : Time -> Q -> Q -> Time.

(** C2 (as the code has it).  For a transition of [T > 0] seconds and an
    elapsed time [e] with [0 < e <= T] seconds, the fade-in block applies
    exactly one level [p], the ceiling of the [float64] value of
    [(255 / T) * e.Seconds()] limited to 255.  That value lies within
    2^-42 of the exact ratio [255 * e / T], so [p] is in [0, 255], differs
    from [clamp(ceil(255 * e / T), 0, 255)] by at most one, and equals it
    whenever no integer lies within 2^-42 of the exact ratio; [p] is
    non-decreasing in [e]. *)
Theorem fade_in_brightness (c : Clock) (s : State) :
  let T := transitionTime s in
  let e := Sub (nowIn c) (fadeInTime s) in
  let p := fadeInPower T e in
  0 < T -> 0 < e <= T * Second ->
  glows (trace (fadeIn NextSunset c s)) = glows (trace s) ++ [p] /\
  currentPower (fadeIn NextSunset c s) = p /\
  p = Z.min 255 (Qceiling (fadeRatio T e)) /\
  (exactRatio T e - (1 # 4398046511104) <= fadeRatio T e <= exactRatio T e + (1 # 4398046511104))%Q /\
  0 <= p <= 255 /\
  Z.abs (p - specFadeIn T e) <= 1 /\
  (Qceiling (exactRatio T e - (1 # 4398046511104)) = Qceiling (exactRatio T e + (1 # 4398046511104)) ->
   p = specFadeIn T e) /\
  (forall e1 e2, 0 <= e1 -> e1 <= e2 -> e2 <= maxInt64 -> fadeInPower T e1 <= fadeInPower T e2).
Proof.
  intros T e p HT He.
  pose proof (Sub_range (nowIn c) (fadeInTime s)) as HR. fold e in HR.
  assert (G : glows (trace (fadeIn NextSunset c s)) = glows (trace s) ++ [p] /\
              currentPower (fadeIn NextSunset c s) = p).
  { destruct (fadeIn_cases NextSunset c s) as [[H _]|[(_ & _ & ->)|(_ & _ & ->)]];
      [fold e in H; lia| |]; glows_simpl; auto. }
  destruct G as [G1 G2].
  assert (He0 : 0 <= e <= T * Second) by lia.
  assert (Hm : e <= maxInt64) by lia.
  assert (Hr : 0 <= e <= maxInt64) by lia.
  pose proof (proj1 (fadeInPower_eq T e HT Hr)) as E1.
  pose proof (fadeRatio_close T e HT He0 Hm) as [C1 C2].
  pose proof (fadeInPower_range T e HT Hr) as R.
  pose proof (fadeInPower_near T e HT He0 Hm) as N.
  pose proof (fadeInPower_exact T e HT He0 Hm) as X.
  split; [exact G1|]. split; [exact G2|]. split; [exact E1|].
  split; [split; [exact C1 | exact C2]|]. split; [exact R|]. split; [exact N|].
  split; [exact X|].
  intros e1 e2 H0 H12 H2. apply fadeInPower_mono; assumption.
Qed.

(** C3 (as the code has it).  For a transition of [T > 0] seconds and an
    elapsed time [e] with [0 < e <= T] seconds, the fade-out block applies
    exactly one level [p], 255 minus the floor of the [float64] value of
    [(255 / T) * e.Seconds()], limited to 0.  That value lies within 2^-42
    of the exact ratio [255 * e / T], so [p] is in [0, 255], differs from
    [clamp(255 - floor(255 * e / T), 0, 255)] by at most one, and equals it
    whenever no integer lies within 2^-42 of the exact ratio; [p] is
    non-increasing in [e]. *)
Theorem fade_out_brightness (c : Clock) (s : State) :
  let T := transitionTime s in
  let e := Sub (nowOut c) (fadeOutTime s) in
  let p := fadeOutPower T e in
  0 < T -> 0 < e <= T * Second ->
  glows (trace (fadeOut NextSunrise c s)) = glows (trace s) ++ [p] /\
  currentPower (fadeOut NextSunrise c s) = p /\
  p = Z.max 0 (255 - Qfloor (fadeRatio T e)) /\
  (exactRatio T e - (1 # 4398046511104) <= fadeRatio T e <= exactRatio T e + (1 # 4398046511104))%Q /\
  0 <= p <= 255 /\
  Z.abs (p - specFadeOut T e) <= 1 /\
  (Qfloor (exactRatio T e - (1 # 4398046511104)) = Qfloor (exactRatio T e + (1 # 4398046511104)) ->
   p = specFadeOut T e) /\
  (forall e1 e2, 0 <= e1 -> e1 <= e2 -> e2 <= maxInt64 -> fadeOutPower T e2 <= fadeOutPower T e1).
Proof.
  intros T e p HT He.
  pose proof (Sub_range (nowOut c) (fadeOutTime s)) as HR. fold e in HR.
  assert (G : glows (trace (fadeOut NextSunrise c s)) = glows (trace s) ++ [p] /\
              currentPower (fadeOut NextSunrise c s) = p).
  { destruct (fadeOut_cases NextSunrise c s) as [[H _]|[(_ & _ & ->)|(_ & _ & ->)]];
      [fold e in H; lia| |]; glows_simpl; auto. }
  destruct G as [G1 G2].
  assert (He0 : 0 <= e <= T * Second) by lia.
  assert (Hm : e <= maxInt64) by lia.
  assert (Hr : 0 <= e <= maxInt64) by lia.
  pose proof (proj1 (fadeOutPower_eq T e HT Hr)) as E1.
  pose proof (fadeRatio_close T e HT He0 Hm) as [C1 C2].
  pose proof (fadeOutPower_range T e HT Hr) as R.
  pose proof (fadeOutPower_near T e HT He0 Hm) as N.
  pose proof (fadeOutPower_exact T e HT He0 Hm) as X.
  split; [exact G1|]. split; [exact G2|]. split; [exact E1|].
  split; [split; [exact C1 | exact C2]|]. split; [exact R|]. split; [exact N|].
  split; [exact X|].
  intros e1 e2 H0 H12 H2. apply fadeOutPower_anti; assumption.
Qed.

(** C4.  The fade-in window opens strictly after [fadeInTime].  On an
    iteration whose clock reads exactly [fadeInTime] the fade-in block does
    nothing, and when the fade-out window is closed as well the iteration
    makes no driver call and leaves the brightness as it was (0 after
    start-up); as soon as the clock reads later than [fadeInTime] the block
    applies a level. *)
Theorem fade_in_opens_strictly_after (c : Clock) (s : State) :
  (nowIn c = fadeInTime s ->
   fadeIn NextSunset c s = s /\
   (isPaused s = false -> nowOut c <= fadeOutTime s ->
    currentPower (tick NextSunrise NextSunset c s) = currentPower s /\
    glows (trace (tick NextSunrise NextSunset c s)) = glows (trace s))) /\
  (fadeInTime s < nowIn c ->
   glows (trace (fadeIn NextSunset c s))
   = glows (trace s) ++ [fadeInPower (transitionTime s) (Sub (nowIn c) (fadeInTime s))]).
Proof.
  split.
  - intro E.
    assert (F : forall s0, fadeInTime s0 = fadeInTime s -> fadeIn NextSunset c s0 = s0).
    { intros s0 E0. destruct (fadeIn_cases NextSunset c s0) as [[_ H]|[(H & _)|(H & _)]];
        [exact H| |]; rewrite E0, <- E, Sub_self in H; lia. }
    split; [apply F; reflexivity|].
    intros HP Hout. rewrite tick_running by exact HP. rewrite F by reflexivity.
    destruct (fadeOut_cases NextSunrise c (emit (Sleep (sleepDuration s)) s))
      as [[_ ->]|[(H & _)|(H & _)]]; [glows_simpl; auto| |];
      apply (proj1 (Sub_pos _ _)) in H; cbn in H; lia.
  - intro L. apply (proj2 (Sub_pos _ _)) in L.
    destruct (fadeIn_cases NextSunset c s) as [[H _]|[(_ & _ & ->)|(_ & _ & ->)]];
      [lia| |]; glows_simpl; reflexivity.
Qed.
End Claims.

Lemma Sub_le_diff (t u : Time) : 0 < Sub t u -> Sub t u <= t - u.
Proof. unfold Sub, minInt64, maxInt64. lia. Qed.

Section Recomputation.
Variables NextSunrise NextSunset PreviousSunset : Time -> Q -> Q -> Time.

Lemma tick_fadeIn_part (c : Clock) (s : State) :
  isPaused s = false ->
  fadeInTime (tick NextSunrise NextSunset c s)
  = fadeInTime (fadeIn NextSunset c (emit (Sleep (sleepDuration s)) s)) /\
  nextFadeIns (trace (tick NextSunrise NextSunset c s))
  = nextFadeIns (trace (fadeIn NextSunset c (emit (Sleep (sleepDuration s)) s))).
Proof.
  intro HP. rewrite tick_running by exact HP.
  destruct (fadeOut_frame NextSunrise c (fadeIn NextSunset c (emit (Sleep (sleepDuration s)) s)))
    as (F1 & _ & _ & _ & _ & F2). auto.
Qed.

Lemma tick_fadeOut_part (c : Clock) (s : State) :
  isPaused s = false ->
  let s1 := fadeIn NextSunset c (emit (Sleep (sleepDuration s)) s) in
  completesOut c s1 = completesOut c s /\
  cfg s1 = cfg s /\ transitionDuration s1 = transitionDuration s /\
  fadeOutTime s1 = fadeOutTime s /\
  nextFadeOuts (trace s1) = nextFadeOuts (trace s).
Proof.
  intros HP s1.
  destruct (fadeIn_frame NextSunset c (emit (Sleep (sleepDuration s)) s))
    as (F1 & F2 & F3 & F4 & F5 & F6). fold s1 in F1, F2, F3, F4, F5, F6.
  repeat split; try assumption.
  - apply completesOut_frame; assumption.
  - rewrite F6. logs_simpl. reflexivity.
Qed.

Lemma tick_preserves (c : Clock) (s : State) :
  let s' := tick NextSunrise NextSunset c s in
  isPaused s' = isPaused s /\ transitionTime s' = transitionTime s /\
  transitionDuration s' = transitionDuration s /\ cfg s' = cfg s /\
  sleepDuration s' = sleepDuration s.
Proof.
  cbv zeta. unfold tick. cbn [isPaused emit].
  destruct (isPaused s) eqn:HP; [cbn; auto|].
  set (s0 := emit (Sleep (sleepDuration s)) s).
  destruct (fadeIn_cases NextSunset c s0) as [[_ ->]|[(_ & _ & ->)|(_ & _ & ->)]];
  match goal with |- context [fadeOut NextSunrise c ?x] => destruct (fadeOut_cases NextSunrise c x)
      as [[_ ->]|[(_ & _ & ->)|(_ & _ & ->)]] end; cbn; auto.
Qed.

(** C7.  In an iteration of the main loop that is not paused, [fadeInTime] is
    given a new value exactly when the fade-in level computed reaches 255,
    and the value is the next sunset minus half the transition duration;
    [fadeOutTime] is given a new value exactly when the fade-out level
    computed reaches 0, and the value is the next sunrise minus half the
    transition duration.  The iteration after a recomputation does not
    recompute again: the new fade time lies ahead, so the ramp completed
    gives rise to one recomputation only. *)
Theorem recomputation_once_per_ramp (c c' : Clock) (s : State) :
  let T := transitionTime s in
  let half := T * (Second / 2) in
  let eIn := Sub (nowIn c) (fadeInTime s) in
  let eOut := Sub (nowOut c) (fadeOutTime s) in
  let sunset := NextSunset (nowSunset c) (Latitude (cfg s)) (Longitude (cfg s)) in
  let sunrise := NextSunrise (nowSunrise c) (Latitude (cfg s)) (Longitude (cfg s)) in
  let s1 := tick NextSunrise NextSunset c s in
  let s2 := tick NextSunrise NextSunset c' s1 in
  isPaused s = false ->
  0 < T -> T * Second <= maxInt64 -> transitionDuration s = wrap64 (T * Second) ->
  (* the fade-in reaches 255 *)
  (0 < eIn -> fadeInPower T eIn = 255 ->
   fadeInTime s1 = sunset - half /\
   nextFadeIns (trace s1) = nextFadeIns (trace s) ++ [sunset - half] /\
   (nowSunset c <= sunset -> 510 * (nowIn c' - nowSunset c) <= 251 * (T * Second) ->
    fadeInTime s2 = fadeInTime s1 /\ nextFadeIns (trace s2) = nextFadeIns (trace s1))) /\
  (* it does not *)
  (eIn <= 0 \/ fadeInPower T eIn < 255 ->
   fadeInTime s1 = fadeInTime s /\ nextFadeIns (trace s1) = nextFadeIns (trace s)) /\
  (* the fade-out reaches 0 *)
  (0 < eOut -> fadeOutPower T eOut = 0 ->
   fadeOutTime s1 = sunrise - half /\
   nextFadeOuts (trace s1) = nextFadeOuts (trace s) ++ [sunrise - half] /\
   (nowSunrise c <= sunrise -> 510 * (nowOut c' - nowSunrise c) <= 251 * (T * Second) ->
    fadeOutTime s2 = fadeOutTime s1 /\ nextFadeOuts (trace s2) = nextFadeOuts (trace s1))) /\
  (* it does not *)
  (eOut <= 0 \/ 0 < fadeOutPower T eOut ->
   fadeOutTime s1 = fadeOutTime s /\ nextFadeOuts (trace s1) = nextFadeOuts (trace s)).
Proof.
  intros T half eIn eOut sunset sunrise s1 s2 HP HT HTmax HD.
  assert (Hhalf : halfBefore (transitionDuration s) = - half).
  { rewrite HD. apply halfBefore_exact; assumption. }
  destruct (tick_fadeIn_part c s HP) as [I1 I2]. fold s1 in I1, I2.
  destruct (tick_fadeOut_part c s HP) as (O1 & O2 & O3 & O4 & O5).
  destruct (tick_preserves c s) as (P1 & P2 & P3 & P4 & P5). fold s1 in P1, P2, P3, P4, P5.
  set (s0 := emit (Sleep (sleepDuration s)) s) in *.
  assert (S1 : s1 = fadeOut NextSunrise c (fadeIn NextSunset c s0))
    by (apply tick_running; exact HP).
  assert (HP1 : isPaused s1 = false) by congruence.
  destruct (tick_fadeIn_part c' s1 HP1) as [J1 J2]. fold s2 in J1, J2.
  destruct (tick_fadeOut_part c' s1 HP1) as (Q1 & Q2 & Q3 & Q4 & Q5).
  set (s10 := emit (Sleep (sleepDuration s1)) s1) in *.
  assert (S2 : s2 = fadeOut NextSunrise c' (fadeIn NextSunset c' s10))
    by (apply tick_running; exact HP1).
  split; [|split; [|split]].
  - intros He Hp.
    assert (C : completesIn c s0 = true).
    { unfold completesIn. cbn [fadeInTime transitionTime emit s0]. fold T eIn.
      rewrite Hp. apply andb_true_iff. split; [apply Z.ltb_lt; exact He | reflexivity]. }
    destruct (fadeIn_completes NextSunset c s0 C) as (_ & C2 & C3).
    cbn [cfg transitionDuration emit s0] in C2, C3. fold sunset in C2, C3.
    rewrite Hhalf in C2, C3. unfold Add in C2, C3.
    assert (E1 : fadeInTime s1 = sunset - half) by (rewrite I1, C2; lia).
    split; [exact E1|]. split.
    { rewrite I2, C3. unfold s0. cbn [trace emit]. rewrite nextFadeIns_app. cbn [nextFadeIns].
      rewrite app_nil_r. reflexivity. }
    intros Hsun Hnext.
    assert (C' : completesIn c' s10 = false).
    { unfold completesIn. cbn [fadeInTime transitionTime emit s10]. rewrite P2, E1. fold T.
      destruct (0 <? Sub (nowIn c') (sunset - half)) eqn:E; [|reflexivity].
      apply Z.ltb_lt in E. cbn [andb]. apply Z.leb_gt.
      pose proof (Sub_le_diff _ _ E). pose proof (Sub_range (nowIn c') (sunset - half)).
      apply fadeInPower_below; [exact HT | lia |].
      unfold half in *. change (Second / 2) with 500000000 in *. unfold Second in *. lia. }
    destruct (fadeIn_continues NextSunset c' s10 C') as [D1 D2].
    cbn [fadeInTime trace emit s10] in D1, D2. rewrite nextFadeIns_app in D2.
    cbn in D2. rewrite app_nil_r in D2.
    split; congruence.
  - intros Hn.
    assert (C : completesIn c s0 = false).
    { unfold completesIn. cbn [fadeInTime transitionTime emit s0]. fold T eIn.
      apply andb_false_iff. destruct Hn as [Hn|Hn];
        [left; apply Z.ltb_ge; exact Hn | right; apply Z.leb_gt; exact Hn]. }
    destruct (fadeIn_continues NextSunset c s0 C) as [D1 D2].
    cbn [fadeInTime trace emit s0] in D1, D2. rewrite nextFadeIns_app in D2.
    cbn in D2. rewrite app_nil_r in D2.
    split; congruence.
  - intros He Hp.
    assert (C : completesOut c (fadeIn NextSunset c s0) = true).
    { rewrite O1. unfold completesOut. fold T eOut.
      rewrite Hp. apply andb_true_iff. split; [apply Z.ltb_lt; exact He | reflexivity]. }
    destruct (fadeOut_completes NextSunrise c _ C) as (_ & C2 & C3).
    rewrite O2, O3 in C2, C3. fold sunrise in C2, C3. rewrite O5 in C3.
    rewrite Hhalf in C2, C3. unfold Add in C2, C3. rewrite <- S1 in C2, C3.
    assert (E1 : fadeOutTime s1 = sunrise - half) by (rewrite C2; lia).
    split; [exact E1|]. split.
    { rewrite C3. reflexivity. }
    intros Hsun Hnext.
    assert (C' : completesOut c' (fadeIn NextSunset c' s10) = false).
    { rewrite Q1. unfold completesOut. rewrite P2, E1. fold T.
      destruct (0 <? Sub (nowOut c') (sunrise - half)) eqn:E; [|reflexivity].
      apply Z.ltb_lt in E. cbn [andb]. apply Z.leb_gt.
      pose proof (Sub_le_diff _ _ E). pose proof (Sub_range (nowOut c') (sunrise - half)).
      apply fadeOutPower_above; [exact HT | lia |].
      unfold half in *. change (Second / 2) with 500000000 in *. unfold Second in *. lia. }
    destruct (fadeOut_continues NextSunrise c' _ C') as [D1 D2].
    rewrite <- S2 in D1, D2. rewrite Q4 in D1. rewrite Q5 in D2.
    split; congruence.
  - intros Hn.
    assert (C : completesOut c (fadeIn NextSunset c s0) = false).
    { rewrite O1. unfold completesOut. fold T eOut.
      apply andb_false_iff. destruct Hn as [Hn|Hn];
        [left; apply Z.ltb_ge; exact Hn | right; apply Z.leb_gt; exact Hn]. }
    destruct (fadeOut_continues NextSunrise c _ C) as [D1 D2].
    rewrite <- S1 in D1, D2. rewrite O4 in D1. rewrite O5 in D2.
    split; congruence.
Qed.
End Recomputation.

(** [set_cfg] commutes with every other update of the state. *)
Lemma set_cfg_emit (c : Config) (e : Effect) (s : State) :
  set_cfg c (emit e s) = emit e (set_cfg c s).
Proof. reflexivity. Qed.

Lemma set_cfg_setGlow (c : Config) (p : Z) (s : State) :
  set_cfg c (setGlow p s) = setGlow p (set_cfg c s).
Proof. reflexivity. Qed.

Lemma set_cfg_set_power (c : Config) (p : Z) (s : State) :
  set_cfg c (set_power p s) = set_power p (set_cfg c s).
Proof. reflexivity. Qed.

Lemma set_cfg_set_fadeInTime (c : Config) (t : Time) (s : State) :
  set_cfg c (set_fadeInTime t s) = set_fadeInTime t (set_cfg c s).
Proof. reflexivity. Qed.

Lemma set_cfg_set_fadeOutTime (c : Config) (t : Time) (s : State) :
  set_cfg c (set_fadeOutTime t s) = set_fadeOutTime t (set_cfg c s).
Proof. reflexivity. Qed.

Lemma set_cfg_set_cfg (c c' : Config) (s : State) :
  set_cfg c (set_cfg c' s) = set_cfg c s.
Proof. reflexivity. Qed.

Ltac push_set_cfg :=
  repeat first
    [ rewrite set_cfg_emit | rewrite set_cfg_setGlow | rewrite set_cfg_set_power
    | rewrite set_cfg_set_fadeInTime | rewrite set_cfg_set_fadeOutTime
    | rewrite set_cfg_set_cfg ].

Section Reload.
Variables NextSunrise NextSunset PreviousSunset : Time -> Q -> Q -> Time.

(** An iteration that completes no ramp does not look at [cfg]. *)
Lemma tick_mid_ramp (new : Config) (c : Clock) (s : State) :
  completesIn c s = false -> completesOut c s = false ->
  tick NextSunrise NextSunset c (set_cfg new s)
  = set_cfg new (tick NextSunrise NextSunset c s).
Proof.
  unfold completesIn, completesOut, tick, fadeIn, fadeOut. intros HI HO.
  state_simpl. destruct (isPaused s); [reflexivity|].
  destruct (0 <? Sub (nowIn c) (fadeInTime s)); cbn [andb] in HI; state_simpl.
  - rewrite HI. state_simpl.
    destruct (0 <? Sub (nowOut c) (fadeOutTime s)); cbn [andb] in HO; state_simpl.
    + rewrite HO. push_set_cfg. reflexivity.
    + push_set_cfg. reflexivity.
  - destruct (0 <? Sub (nowOut c) (fadeOutTime s)); cbn [andb] in HO; state_simpl.
    + rewrite HO. push_set_cfg. reflexivity.
    + reflexivity.
Qed.

Lemma completes_set_cfg (new : Config) (c : Clock) (s : State) :
  completesIn c (set_cfg new s) = completesIn c s /\
  completesOut c (set_cfg new s) = completesOut c s.
Proof. split; reflexivity. Qed.

Lemma ticks_mid_ramp (new : Config) (cs : list Clock) (s : State) :
  midRamp NextSunrise NextSunset cs s = true ->
  ticks NextSunrise NextSunset cs (set_cfg new s)
  = set_cfg new (ticks NextSunrise NextSunset cs s).
Proof.
  revert s. induction cs as [|c cs IH]; intros s H; [reflexivity|].
  cbn [midRamp] in H. apply andb_true_iff in H. destruct H as [H H3].
  apply andb_true_iff in H. destruct H as [H1 H2].
  apply negb_true_iff in H1, H2.
  cbn [ticks]. rewrite tick_mid_ramp by assumption. apply IH, H3.
Qed.

Lemma ticks_preserve (cs : list Clock) (s : State) :
  let s' := ticks NextSunrise NextSunset cs s in
  isPaused s' = isPaused s /\ transitionTime s' = transitionTime s /\
  transitionDuration s' = transitionDuration s /\ cfg s' = cfg s.
Proof.
  revert s. induction cs as [|c cs IH]; intros s; [cbn; auto|].
  cbn [ticks]. cbv zeta. destruct (IH (tick NextSunrise NextSunset c s)) as (A & B & C & D).
  destruct (tick_preserves NextSunrise NextSunset c s) as (A' & B' & C' & D' & _).
  repeat split; congruence.
Qed.

(** The iteration reads [cfg] through the two coordinates only. *)
Lemma tick_reads_coordinates (c1 c2 c0 : Config) (c : Clock) (s : State) :
  Latitude c1 = Latitude c2 -> Longitude c1 = Longitude c2 ->
  set_cfg c0 (tick NextSunrise NextSunset c (set_cfg c1 s))
  = set_cfg c0 (tick NextSunrise NextSunset c (set_cfg c2 s)).
Proof.
  intros HLa HLo. unfold tick, fadeIn, fadeOut. state_simpl.
  destruct (isPaused s); [rewrite !set_cfg_emit, !set_cfg_set_cfg; reflexivity|].
  destruct (0 <? Sub (nowIn c) (fadeInTime s)); state_simpl;
    [destruct (255 <=? _); state_simpl|];
    (destruct (0 <? Sub (nowOut c) (fadeOutTime s)); state_simpl;
     [destruct (_ <=? 0); state_simpl|]);
    rewrite ?HLa, ?HLo; push_set_cfg; reflexivity.
Qed.

(** C8.  A reload replaces [cfg] and nothing else: [fadeInTime],
    [fadeOutTime], the transition time and duration, the brightness and the
    liveness state are as before.  An iteration of the main loop reads only
    the latitude and longitude of [cfg].  While no ramp completes, the
    process after a reload runs exactly as it would have without it, and
    the iteration that completes the ramp computes the next fade time from
    the new coordinates. *)
Theorem reload_takes_effect_at_next_recomputation
    (new : Config) (s : State) (cs : list Clock) (c : Clock) :
  let s' := set_cfg new s in
  let before := ticks NextSunrise NextSunset cs s in
  let after := ticks NextSunrise NextSunset cs s' in
  initConfig (Some new) s = Some s' /\
  (cfg s' = new /\ fadeInTime s' = fadeInTime s /\ fadeOutTime s' = fadeOutTime s /\
   transitionTime s' = transitionTime s /\ transitionDuration s' = transitionDuration s /\
   sleepDuration s' = sleepDuration s /\ currentPower s' = currentPower s /\
   isPaused s' = isPaused s /\ isRunning s' = isRunning s /\ lastState s' = lastState s /\
   pinger s' = pinger s /\ trace s' = trace s) /\
  (forall c1 c2, Latitude c1 = Latitude c2 -> Longitude c1 = Longitude c2 ->
     set_cfg new (tick NextSunrise NextSunset c (set_cfg c1 s))
     = set_cfg new (tick NextSunrise NextSunset c (set_cfg c2 s))) /\
  (midRamp NextSunrise NextSunset cs s = true ->
   after = set_cfg new before /\
   (isPaused s = false -> completesIn c before = true ->
    fadeInTime (tick NextSunrise NextSunset c after)
    = Add (NextSunset (nowSunset c) (Latitude new) (Longitude new))
          (halfBefore (transitionDuration s))) /\
   (isPaused s = false -> completesOut c before = true ->
    fadeOutTime (tick NextSunrise NextSunset c after)
    = Add (NextSunrise (nowSunrise c) (Latitude new) (Longitude new))
          (halfBefore (transitionDuration s)))).
Proof.
  intros s' before after.
  split; [reflexivity|]. split; [repeat split|].
  split; [intros c1 c2; apply tick_reads_coordinates|].
  intro HM.
  assert (EA : after = set_cfg new before) by (apply ticks_mid_ramp; exact HM).
  destruct (ticks_preserve cs s) as (A & B & C & D). fold before in A, B, C, D.
  split; [exact EA|]. split.
  - intros HP HC. rewrite EA.
    assert (HP' : isPaused (set_cfg new before) = false) by (cbn; congruence).
    destruct (tick_fadeIn_part NextSunrise NextSunset c _ HP') as [I1 _]. rewrite I1.
    match goal with |- fadeInTime (fadeIn _ _ ?x) = _ =>
      assert (HC' : completesIn c x = true) by exact HC;
      destruct (fadeIn_completes NextSunset c x HC') as (_ & E & _) end.
    rewrite E. cbn. rewrite C. reflexivity.
  - intros HP HC. rewrite EA.
    assert (HP' : isPaused (set_cfg new before) = false) by (cbn; congruence).
    rewrite tick_running by exact HP'.
    destruct (tick_fadeOut_part NextSunset c _ HP') as (O1 & O2 & O3 & _).
    match goal with |- fadeOutTime (fadeOut _ _ ?x) = _ =>
      assert (HC' : completesOut c x = true) by (rewrite O1; exact HC);
      destruct (fadeOut_completes NextSunrise c x HC') as (_ & E & _) end.
    rewrite E, O2, O3. cbn. rewrite C. reflexivity.
Qed.
End Reload.

(** *** The ramp loops *)

Lemma pauseLoop_run (n : nat) (i : Z) (s : State) :
  n = Z.to_nat (i + 1) ->
  pauseLoop n i s = (Z.min i (-1), applyRamp (downTo n i) s).
Proof.
  revert i s. induction n as [|n IH]; intros i s Hn.
  - cbn. f_equal. lia.
  - cbn [pauseLoop downTo applyRamp].
    assert (Hi : 0 <= i) by lia. apply Z.leb_le in Hi. rewrite Hi.
    rewrite IH by lia. f_equal. apply Z.leb_le in Hi. lia.
Qed.

(** More fuel changes nothing: the loop has left through its condition. *)
Lemma pauseLoop_fuel (n k : nat) (i : Z) (s : State) :
  n = Z.to_nat (i + 1) -> pauseLoop (n + k) i s = pauseLoop n i s.
Proof.
  revert i s. induction n as [|n IH]; intros i s Hn.
  - cbn [Nat.add]. destruct k; [reflexivity|]. cbn [pauseLoop].
    assert (Hi : i < 0) by lia. apply Z.leb_gt in Hi. rewrite Hi. reflexivity.
  - cbn [Nat.add pauseLoop]. destruct (0 <=? i); [|reflexivity]. apply IH. lia.
Qed.

Lemma resumeLoop_run (n : nat) (i : Z) (s : State) :
  n = Z.to_nat (256 - i) ->
  resumeLoop n i s = (Z.max i 256, applyRamp (upTo n i) s).
Proof.
  revert i s. induction n as [|n IH]; intros i s Hn.
  - cbn. f_equal. lia.
  - cbn [resumeLoop upTo applyRamp].
    assert (Hi : i <= 255) by lia. apply Z.leb_le in Hi. rewrite Hi.
    rewrite IH by lia. f_equal. apply Z.leb_le in Hi. lia.
Qed.

Lemma resumeLoop_fuel (n k : nat) (i : Z) (s : State) :
  n = Z.to_nat (256 - i) -> resumeLoop (n + k) i s = resumeLoop n i s.
Proof.
  revert i s. induction n as [|n IH]; intros i s Hn.
  - cbn [Nat.add]. destruct k; [reflexivity|]. cbn [resumeLoop].
    assert (Hi : 255 < i) by lia. apply Z.leb_gt in Hi. rewrite Hi. reflexivity.
  - cbn [Nat.add resumeLoop]. destruct (i <=? 255); [|reflexivity]. apply IH. lia.
Qed.

(** What a ramp changes: the trace, [currentPower] and the LEDs. *)
Lemma applyRamp_trace (ls : list Z) (s : State) :
  trace (applyRamp ls s) = trace s ++ rampEffects ls.
Proof.
  revert s. induction ls as [|l ls IH]; intro s; cbn [applyRamp rampEffects].
  - symmetry. apply app_nil_r.
  - rewrite IH. state_simpl. rewrite <- !app_assoc. reflexivity.
Qed.

Lemma applyRamp_frame (ls : list Z) (s : State) :
  let s' := applyRamp ls s in
  isPaused s' = isPaused s /\ isRunning s' = isRunning s /\ cfg s' = cfg s /\
  transitionTime s' = transitionTime s /\ transitionDuration s' = transitionDuration s /\
  sleepDuration s' = sleepDuration s /\
  fadeInTime s' = fadeInTime s /\ fadeOutTime s' = fadeOutTime s /\ power s' = power s /\
  lastState s' = lastState s /\ isRecv s' = isRecv s /\ pinger s' = pinger s.
Proof.
  revert s. induction ls as [|l ls IH]; intro s; cbn [applyRamp]; [cbn; auto 15|].
  cbv zeta. destruct (IH (rampBody l s)) as (A & B & C & D & E & F & G & H & I & J & K & L).
  state_simpl. auto 15.
Qed.

Lemma last_nonempty (z : Z) (ls : list Z) (d1 d2 : Z) :
  last (z :: ls) d1 = last (z :: ls) d2.
Proof.
  revert z. induction ls as [|y ls IH]; intro z; [reflexivity|].
  change (last (y :: ls) d1 = last (y :: ls) d2). apply IH.
Qed.

Lemma applyRamp_power (ls : list Z) (s : State) :
  currentPower (applyRamp ls s) = last ls (currentPower s).
Proof.
  revert s. induction ls as [|l ls IH]; intro s; [reflexivity|].
  cbn [applyRamp]. rewrite IH. state_simpl.
  destruct ls as [|z ls]; [reflexivity|].
  change (last (l :: z :: ls) (currentPower s)) with (last (z :: ls) (currentPower s)).
  apply last_nonempty.
Qed.

Lemma glows_rampEffects (ls : list Z) : glows (rampEffects ls) = ls.
Proof. induction ls as [|l ls IH]; [reflexivity|]. cbn. rewrite IH. reflexivity. Qed.

Lemma pause_eq (s : State) :
  pause s
  = applyRamp (downTo (Z.to_nat (currentPower s + 1)) (currentPower s))
      (emit (Sleep Second) (set_isPaused true (emit CallPause s))).
Proof. unfold pause. state_simpl. rewrite pauseLoop_run by reflexivity. reflexivity. Qed.

Lemma resume_eq (s : State) :
  resume s
  = applyRamp (upTo (Z.to_nat (256 - currentPower s)) (currentPower s))
      (emit (Sleep Second) (set_isPaused false (emit CallResume s))).
Proof. unfold resume. state_simpl. rewrite resumeLoop_run by reflexivity. reflexivity. Qed.

Lemma last_downTo (n : nat) (i d : Z) : n = Z.to_nat (i + 1) -> 0 <= i -> last (downTo n i) d = 0.
Proof.
  revert i. induction n as [|n IH]; intros i Hn Hi; [lia|].
  cbn [downTo]. destruct n as [|n].
  - cbn. lia.
  - change (last (i :: downTo (S n) (i - 1)) d) with (last (downTo (S n) (i - 1)) d).
    apply IH; lia.
Qed.

Lemma last_upTo (n : nat) (i d : Z) : n = Z.to_nat (256 - i) -> i <= 255 -> last (upTo n i) d = 255.
Proof.
  revert i. induction n as [|n IH]; intros i Hn Hi; [lia|].
  cbn [upTo]. destruct n as [|n].
  - cbn. lia.
  - change (last (i :: upTo (S n) (i + 1)) d) with (last (upTo (S n) (i + 1)) d).
    apply IH; lia.
Qed.

Lemma downTo_range (n : nat) (i : Z) :
  n = Z.to_nat (i + 1) -> Forall (fun l => 0 <= l <= i) (downTo n i).
Proof.
  revert i. induction n as [|n IH]; intros i Hn; [constructor|].
  cbn [downTo]. constructor; [lia|].
  eapply Forall_impl; [|apply IH; lia]. cbn. intros; lia.
Qed.

Lemma upTo_range (n : nat) (i : Z) :
  n = Z.to_nat (256 - i) -> Forall (fun l => i <= l <= 255) (upTo n i).
Proof.
  revert i. induction n as [|n IH]; intros i Hn; [constructor|].
  cbn [upTo]. constructor; [lia|].
  eapply Forall_impl; [|apply IH; lia]. cbn. intros; lia.
Qed.

(** *** Entries into [pause] and [resume] *)

Lemma pauses_app (a b : list Effect) : (pauses (a ++ b) = pauses a + pauses b)%nat.
Proof. unfold pauses. rewrite filter_app, length_app. reflexivity. Qed.

Lemma resumes_app (a b : list Effect) : (resumes (a ++ b) = resumes a + resumes b)%nat.
Proof. unfold resumes. rewrite filter_app, length_app. reflexivity. Qed.

Lemma rampEffects_calls (ls : list Z) :
  pauses (rampEffects ls) = 0%nat /\ resumes (rampEffects ls) = 0%nat.
Proof. induction ls as [|l ls [IH1 IH2]]; split; cbn; auto. Qed.

Lemma pause_calls (s : State) :
  pauses (trace (pause s)) = S (pauses (trace s)) /\
  resumes (trace (pause s)) = resumes (trace s).
Proof.
  rewrite pause_eq, applyRamp_trace. state_simpl.
  destruct (rampEffects_calls (downTo (Z.to_nat (currentPower s + 1)) (currentPower s))) as [P R].
  rewrite !pauses_app, !resumes_app, P, R. cbn. lia.
Qed.

Lemma resume_calls (s : State) :
  pauses (trace (resume s)) = pauses (trace s) /\
  resumes (trace (resume s)) = S (resumes (trace s)).
Proof.
  rewrite resume_eq, applyRamp_trace. state_simpl.
  destruct (rampEffects_calls (upTo (Z.to_nat (256 - currentPower s)) (currentPower s))) as [P R].
  rewrite !pauses_app, !resumes_app, P, R. cbn. lia.
Qed.

(** *** The handlers *)

Lemma pause_frame (s : State) :
  isPaused (pause s) = true /\ lastState (pause s) = lastState s /\
  isRecv (pause s) = isRecv s /\ pinger (pause s) = pinger s /\
  isRunning (pause s) = isRunning s /\ cfg (pause s) = cfg s.
Proof.
  rewrite pause_eq.
  match goal with |- context [applyRamp ?l ?x] =>
    destruct (applyRamp_frame l x) as (A & B & C & _ & _ & _ & _ & _ & _ & J & K & L) end.
  cbn in *. auto 10.
Qed.

Lemma resume_frame (s : State) :
  isPaused (resume s) = false /\ lastState (resume s) = lastState s /\
  isRecv (resume s) = isRecv s /\ pinger (resume s) = pinger s /\
  isRunning (resume s) = isRunning s /\ cfg (resume s) = cfg s.
Proof.
  rewrite resume_eq.
  match goal with |- context [applyRamp ?l ?x] =>
    destruct (applyRamp_frame l x) as (A & B & C & _ & _ & _ & _ & _ & _ & J & K & L) end.
  cbn in *. auto 10.
Qed.

Lemma recvHandler_again (s : State) :
  lastState s = PingUp -> isRecv s = true -> recvHandler s = s.
Proof. destruct s. cbn. intros -> ->. reflexivity. Qed.

Lemma recvHandler_post (s : State) :
  lastState (recvHandler s) = PingUp /\ isRecv (recvHandler s) = true.
Proof.
  unfold recvHandler. state_simpl. split; [reflexivity|].
  destruct (lastState s); state_simpl; try reflexivity.
  destruct (resume_frame (emit LogCameUp (set_isRecv true s))) as (_ & _ & R & _). exact R.
Qed.

Lemma deliver_some (n : nat) (s : State) : deliver (S n) s = recvHandler s.
Proof.
  cbn [deliver]. destruct (recvHandler_post s) as [A B].
  generalize dependent (recvHandler s). clear s. intros s A B.
  induction n as [|n IH]; [reflexivity|].
  cbn [deliver]. rewrite recvHandler_again by assumption. exact IH.
Qed.

(** One round, by its outcome and the state it starts from. *)
Lemma pingRound_reply (n : nat) (s : State) :
  pingRound (S n) s
  = emit (Sleep Minute)
      (set_lastState PingUp
         (match lastState s with
          | PingDown => resume (emit LogCameUp (set_isRecv true (set_isRecv false s)))
          | _ => set_isRecv true (set_isRecv false s)
          end)).
Proof.
  unfold pingRound. rewrite deliver_some.
  destruct (recvHandler_post (set_isRecv false s)) as [_ R].
  unfold idleHandler. rewrite R.
  unfold recvHandler. state_simpl. destruct (lastState s); reflexivity.
Qed.

Lemma pingRound_silent (s : State) :
  pingRound 0 s
  = emit (Sleep Minute)
      (set_lastState PingDown
         (match lastState s with
          | PingDown => set_isRecv false s
          | _ => pause (emit (LogWentDown (PingIp (cfg s))) (set_isRecv false s))
          end)).
Proof.
  unfold pingRound, idleHandler. cbn [deliver]. state_simpl.
  destruct (lastState s); reflexivity.
Qed.

Lemma calls_emit_plain (e : Effect) (s : State) :
  is_pause e = false -> is_resume e = false -> calls (emit e s) = calls s.
Proof.
  intros H1 H2. unfold calls. state_simpl. rewrite pauses_app, resumes_app.
  unfold pauses, resumes. cbn. rewrite H1, H2. cbn. f_equal; lia.
Qed.

Lemma pingRound_reply_calls (n : nat) (s : State) :
  lastState (pingRound (S n) s) = PingUp /\
  calls (pingRound (S n) s)
  = match lastState s with
    | PingDown => (pauses (trace s), S (resumes (trace s)))
    | _ => calls s
    end /\
  isPaused (pingRound (S n) s)
  = match lastState s with PingDown => false | _ => isPaused s end.
Proof.
  rewrite pingRound_reply.
  destruct (lastState s) eqn:E.
  - split; [reflexivity|]. rewrite calls_emit_plain by reflexivity. split; reflexivity.
  - split; [reflexivity|]. rewrite calls_emit_plain by reflexivity. split; reflexivity.
  - destruct (resume_calls (emit LogCameUp (set_isRecv true (set_isRecv false s)))) as [P R].
    destruct (resume_frame (emit LogCameUp (set_isRecv true (set_isRecv false s)))) as (F & _).
    revert P R F.
    generalize (resume (emit LogCameUp (set_isRecv true (set_isRecv false s)))).
    intros r P R F.
    split; [reflexivity|]. rewrite calls_emit_plain by reflexivity.
    unfold calls. state_simpl. rewrite P, R, F. state_simpl.
    rewrite pauses_app, resumes_app. cbn.
    split; [f_equal; lia | reflexivity].
Qed.

Lemma pingRound_silent_calls (s : State) :
  lastState (pingRound 0 s) = PingDown /\
  calls (pingRound 0 s)
  = match lastState s with
    | PingDown => calls s
    | _ => (S (pauses (trace s)), resumes (trace s))
    end /\
  isPaused (pingRound 0 s)
  = match lastState s with PingDown => isPaused s | _ => true end.
Proof.
  rewrite pingRound_silent.
  assert (K : forall r : State,
             pauses (trace r)
             = S (pauses (trace (emit (LogWentDown (PingIp (cfg s))) (set_isRecv false s)))) ->
             resumes (trace r)
             = resumes (trace (emit (LogWentDown (PingIp (cfg s))) (set_isRecv false s))) ->
             isPaused r = true ->
             lastState (emit (Sleep Minute) (set_lastState PingDown r)) = PingDown /\
             calls (emit (Sleep Minute) (set_lastState PingDown r))
             = (S (pauses (trace s)), resumes (trace s)) /\
             isPaused (emit (Sleep Minute) (set_lastState PingDown r)) = true).
  { intros r P R F.
    split; [reflexivity|]. rewrite calls_emit_plain by reflexivity.
    unfold calls. state_simpl. rewrite P, R, F. state_simpl.
    rewrite pauses_app, resumes_app. cbn.
    split; [f_equal; lia | reflexivity]. }
  destruct (pause_calls (emit (LogWentDown (PingIp (cfg s))) (set_isRecv false s))) as [P R].
  destruct (pause_frame (emit (LogWentDown (PingIp (cfg s))) (set_isRecv false s))) as (F & _).
  destruct (lastState s) eqn:E.
  - exact (K _ P R F).
  - exact (K _ P R F).
  - split; [reflexivity|]. rewrite calls_emit_plain by reflexivity. split; reflexivity.
Qed.

(** C6.  From the liveness state Unknown, the rounds reply, reply, no reply,
    no reply, reply enter [pause] exactly once, in round 3, and [resume]
    exactly once, in round 5; rounds 1, 2 and 4 enter neither.  In general a
    round with the same outcome as the round before enters neither. *)
Theorem liveness_transitions (s : State) :
  let r1 := pingRound 1 s in
  let r2 := pingRound 1 r1 in
  let r3 := pingRound 0 r2 in
  let r4 := pingRound 0 r3 in
  let r5 := pingRound 1 r4 in
  (lastState s = PingUnknown ->
   (calls r1 = calls s /\ lastState r1 = PingUp) /\
   (calls r2 = calls s /\ lastState r2 = PingUp) /\
   (calls r3 = (S (pauses (trace s)), resumes (trace s)) /\ lastState r3 = PingDown /\
    isPaused r3 = true) /\
   (calls r4 = calls r3 /\ lastState r4 = PingDown /\ isPaused r4 = true) /\
   (calls r5 = (S (pauses (trace s)), S (resumes (trace s))) /\ lastState r5 = PingUp /\
    isPaused r5 = false)) /\
  (forall n m, calls (pingRound (S m) (pingRound (S n) s)) = calls (pingRound (S n) s)) /\
  calls (pingRound 0 (pingRound 0 s)) = calls (pingRound 0 s).
Proof.
  intros r1 r2 r3 r4 r5. split; [intro H0|split].
  - destruct (pingRound_reply_calls 0 s) as (L1 & C1 & _). fold r1 in L1, C1.
    rewrite H0 in C1.
    destruct (pingRound_reply_calls 0 r1) as (L2 & C2 & _). fold r2 in L2, C2.
    rewrite L1 in C2.
    destruct (pingRound_silent_calls r2) as (L3 & C3 & P3). fold r3 in L3, C3, P3.
    rewrite L2 in C3, P3.
    destruct (pingRound_silent_calls r3) as (L4 & C4 & P4). fold r4 in L4, C4, P4.
    rewrite L3 in C4, P4.
    destruct (pingRound_reply_calls 0 r4) as (L5 & C5 & P5). fold r5 in L5, C5, P5.
    rewrite L4 in C5, P5.
    clearbody r1 r2 r3 r4 r5.
    assert (E2 : calls r2 = calls s) by congruence.
    unfold calls in *.
    injection E2 as Ea Eb. rewrite Ea, Eb in C3.
    rewrite C3 in C4. injection C4 as Ec Ed. rewrite Ec, Ed in C5.
    repeat split; try assumption; congruence.
  - intros n m.
    destruct (pingRound_reply_calls n s) as (L1 & _).
    destruct (pingRound_reply_calls m (pingRound (S n) s)) as (_ & C2 & _).
    rewrite L1 in C2. exact C2.
  - destruct (pingRound_silent_calls s) as (L1 & _).
    destruct (pingRound_silent_calls (pingRound 0 s)) as (_ & C2 & _).
    rewrite L1 in C2. exact C2.
Qed.

Lemma nth_downTo (n k : nat) (i d : Z) :
  (k < n)%nat -> nth k (downTo n i) d = i - Z.of_nat k.
Proof.
  revert k i. induction n as [|n IH]; intros k i H; [lia|].
  destruct k as [|k]; cbn [downTo nth]; [lia|].
  rewrite IH by lia. lia.
Qed.

Lemma length_downTo (n : nat) (i : Z) : List.length (downTo n i) = n.
Proof. revert i. induction n as [|n IH]; intro i; cbn; [reflexivity|]. rewrite IH. reflexivity. Qed.

Lemma pause_trace (s : State) :
  trace (pause s)
  = trace s ++ CallPause :: Sleep Second
      :: rampEffects (downTo (Z.to_nat (currentPower s + 1)) (currentPower s)).
Proof.
  rewrite pause_eq, applyRamp_trace. state_simpl. rewrite <- !app_assoc. reflexivity.
Qed.

Lemma resume_trace (s : State) :
  trace (resume s)
  = trace s ++ CallResume :: Sleep Second
      :: rampEffects (upTo (Z.to_nat (256 - currentPower s)) (currentPower s)).
Proof.
  rewrite resume_eq, applyRamp_trace. state_simpl. rewrite <- !app_assoc. reflexivity.
Qed.

Lemma pause_power (s : State) : 0 <= currentPower s -> currentPower (pause s) = 0.
Proof.
  intro H. rewrite pause_eq, applyRamp_power. apply last_downTo; [reflexivity|].
  state_simpl. exact H.
Qed.

Lemma resume_power (s : State) : currentPower s <= 255 -> currentPower (resume s) = 255.
Proof.
  intro H. rewrite resume_eq, applyRamp_power. apply last_upTo; [reflexivity|].
  state_simpl. exact H.
Qed.

Section System.
Variables NextSunrise NextSunset PreviousSunset : Time -> Q -> Q -> Time.

Lemma tick_calls (c : Clock) (s : State) :
  calls (tick NextSunrise NextSunset c s) = calls s /\
  pinger (tick NextSunrise NextSunset c s) = pinger s /\
  lastState (tick NextSunrise NextSunset c s) = lastState s /\
  isRunning (tick NextSunrise NextSunset c s) = isRunning s.
Proof.
  unfold tick, fadeIn, fadeOut, calls. state_simpl.
  destruct (isPaused s).
  - state_simpl. rewrite pauses_app, resumes_app. cbn. rewrite !Nat.add_0_r. auto.
  - destruct (0 <? Sub (nowIn c) (fadeInTime s)); state_simpl;
      [destruct (255 <=? _); state_simpl|];
      (destruct (0 <? Sub (nowOut c) (fadeOutTime s)); state_simpl;
       [destruct (_ <=? 0); state_simpl|]);
      repeat rewrite pauses_app; repeat rewrite resumes_app; cbn;
      rewrite ?Nat.add_0_r; auto.
Qed.
End System.

Lemma uint8_valid (p : Z) : validLevel p -> uint8 p = p.
Proof. unfold validLevel, uint8. intro H. apply Z.mod_small. lia. Qed.

Lemma safe_setGlow (p : Z) (s : State) : validLevel p -> safe s -> safe (setGlow p s).
Proof.
  intros Hp (A & B & C & D & E). unfold safe. state_simpl.
  rewrite glows_app. cbn [glows].
  repeat split; try assumption; try apply Hp.
  - apply uint8_valid, Hp.
  - apply Forall_app. split; [exact D | constructor; [exact Hp | constructor]].
Qed.

Lemma safe_frame (s s' : State) :
  transitionTime s' = transitionTime s -> currentPower s' = currentPower s ->
  glow s' = glow s -> glows (trace s') = glows (trace s) -> pinger s' = pinger s ->
  safe s -> safe s'.
Proof.
  intros H1 H2 H3 H4 H5 (A & B & C & D & E). unfold safe.
  rewrite H1, H2, H3, H4, H5. auto.
Qed.

Lemma glows_emit_plain (e : Effect) (s : State) :
  glows [e] = [] -> glows (trace (emit e s)) = glows (trace s).
Proof. intro H. state_simpl. rewrite glows_app, H. apply app_nil_r. Qed.

(** Updates that leave the invariant alone. *)
Lemma safe_emit (e : Effect) (s : State) : glows [e] = [] -> safe s -> safe (emit e s).
Proof.
  intros G (A & B & C & D & E). unfold safe. state_simpl.
  rewrite glows_app, G, app_nil_r. auto.
Qed.

Lemma safe_set_power (p : Z) (s : State) : safe s -> safe (set_power p s).
Proof. intros (A & B & C & D & E). unfold safe. state_simpl. auto. Qed.

Lemma safe_set_fadeInTime (t : Time) (s : State) : safe s -> safe (set_fadeInTime t s).
Proof. intros (A & B & C & D & E). unfold safe. state_simpl. auto. Qed.

Lemma safe_set_fadeOutTime (t : Time) (s : State) : safe s -> safe (set_fadeOutTime t s).
Proof. intros (A & B & C & D & E). unfold safe. state_simpl. auto. Qed.

Lemma safe_set_cfg (c : Config) (s : State) : safe s -> safe (set_cfg c s).
Proof. intros (A & B & C & D & E). unfold safe. state_simpl. auto. Qed.

Lemma safe_set_isRunning (b : bool) (s : State) : safe s -> safe (set_isRunning b s).
Proof. intros (A & B & C & D & E). unfold safe. state_simpl. auto. Qed.

Section Safety.
Variables NextSunrise NextSunset PreviousSunset : Time -> Q -> Q -> Time.

Lemma safe_fadeIn (c : Clock) (s : State) : safe s -> safe (fadeIn NextSunset c s).
Proof.
  intro H. pose proof H as (HT & _).
  assert (R : 0 < Sub (nowIn c) (fadeInTime s) ->
              validLevel (fadeInPower (transitionTime s) (Sub (nowIn c) (fadeInTime s)))).
  { intro He. pose proof (Sub_range (nowIn c) (fadeInTime s)) as HR.
    exact (fadeInPower_range _ _ HT (conj (Z.lt_le_incl _ _ He) (proj2 HR))). }
  destruct (fadeIn_cases NextSunset c s) as [[_ ->]|[(He & _ & ->)|(He & _ & ->)]];
    [exact H| |].
  - apply safe_setGlow; [exact (R He) | apply safe_set_power, H].
  - apply safe_emit; [reflexivity|]. apply safe_set_fadeInTime.
    apply safe_setGlow; [exact (R He) | apply safe_set_power, H].
Qed.

Lemma safe_fadeOut (c : Clock) (s : State) : safe s -> safe (fadeOut NextSunrise c s).
Proof.
  intro H. pose proof H as (HT & _).
  assert (R : 0 < Sub (nowOut c) (fadeOutTime s) ->
              validLevel (fadeOutPower (transitionTime s) (Sub (nowOut c) (fadeOutTime s)))).
  { intro He. pose proof (Sub_range (nowOut c) (fadeOutTime s)) as HR.
    exact (fadeOutPower_range _ _ HT (conj (Z.lt_le_incl _ _ He) (proj2 HR))). }
  destruct (fadeOut_cases NextSunrise c s) as [[_ ->]|[(He & _ & ->)|(He & _ & ->)]];
    [exact H| |].
  - apply safe_setGlow; [exact (R He) | apply safe_set_power, H].
  - apply safe_emit; [reflexivity|]. apply safe_set_fadeOutTime.
    apply safe_setGlow; [exact (R He) | apply safe_set_power, H].
Qed.

Lemma safe_tick (c : Clock) (s : State) : safe s -> safe (tick NextSunrise NextSunset c s).
Proof.
  intro H.
  assert (H0 : safe (emit (Sleep (sleepDuration s)) s))
    by (apply safe_emit; [reflexivity | exact H]).
  unfold tick. destruct (isPaused _); [exact H0|].
  apply safe_fadeOut, safe_fadeIn, H0.
Qed.

Lemma safe_rampStep (s : State) : safe s -> safe (rampStep s).
Proof.
  intro H. pose proof H as (A & B & C & D & E).
  unfold rampStep. destruct (pinger s) as [| |r|[|] i] eqn:P; try exact H.
  - unfold safe. state_simpl. rewrite glows_app. cbn [glows]. rewrite app_nil_r.
    repeat split; try assumption; try apply B.
    destruct r; cbn; apply B.
  - cbn [rampOk] in E. destruct (0 <=? i) eqn:G.
    + apply Z.leb_le in G.
      assert (S1 : safe (setGlow i s)) by (apply safe_setGlow; [split; lia | exact H]).
      destruct S1 as (A1 & B1 & C1 & D1 & _).
      unfold safe. state_simpl. rewrite glows_app in *. cbn [glows] in *.
      rewrite glows_app. cbn [glows]. rewrite app_nil_r.
      repeat split; try assumption; try apply B1. cbn. lia.
    + unfold safe. state_simpl. rewrite glows_app. cbn [glows]. rewrite app_nil_r.
      repeat split; try assumption; apply B.
  - cbn [rampOk] in E. destruct (i <=? 255) eqn:G.
    + apply Z.leb_le in G.
      assert (S1 : safe (setGlow i s)) by (apply safe_setGlow; [split; lia | exact H]).
      destruct S1 as (A1 & B1 & C1 & D1 & _).
      unfold safe. state_simpl. rewrite glows_app in *. cbn [glows] in *.
      rewrite glows_app. cbn [glows]. rewrite app_nil_r.
      repeat split; try assumption; try apply B1. cbn. lia.
    + unfold safe. state_simpl. rewrite glows_app. cbn [glows]. rewrite app_nil_r.
      repeat split; try assumption; apply B.
Qed.

Lemma safe_roundStep (r : option nat) (s s' : State) :
  safe s -> roundStep r s = Some s' -> safe s'.
Proof.
  intros H E. pose proof H as (A & B & C & D & F).
  unfold roundStep in E.
  destruct (pinger s) eqn:P; try (injection E as <-; exact H).
  destruct (isRunning s).
  - destruct r as [[|n]|]; [| |discriminate]; state_simpl;
      destruct (lastState s); injection E as <-;
      unfold safe; state_simpl; repeat rewrite glows_app; cbn [glows];
      rewrite ?app_nil_r; repeat split; try assumption; try apply B;
      rewrite ?P; exact I.
  - injection E as <-. unfold safe. state_simpl.
    repeat split; try assumption; try apply B; exact I.
Qed.

Lemma safe_step (ev : Event) (s s' : State) :
  safe s -> step NextSunrise NextSunset s ev = Some s' -> safe s'.
Proof.
  intros H E. destruct ev as [c|r| |parsed|]; cbn [step] in E.
  - unfold mainIter in E. destruct (isRunning s); [|discriminate].
    injection E as <-. apply safe_tick, H.
  - eapply safe_roundStep; eassumption.
  - injection E as <-. apply safe_rampStep, H.
  - destruct parsed as [c|]; [|discriminate]. injection E as <-.
    apply safe_set_cfg, safe_emit; [reflexivity | exact H].
  - destruct (isRunning s); injection E as <-; [|exact H].
    apply safe_set_isRunning, safe_emit; [reflexivity | exact H].
Qed.

Lemma safe_run (evs : list Event) (s s' : State) :
  safe s -> run NextSunrise NextSunset s evs = Some s' -> safe s'.
Proof.
  revert s. induction evs as [|ev evs IH]; intros s H E; cbn [run] in E.
  - injection E as <-. exact H.
  - destruct (step NextSunrise NextSunset s ev) as [s1|] eqn:E1; [|discriminate].
    eapply IH; [|exact E]. eapply safe_step; eassumption.
Qed.

Lemma safe_main (b : Boot) (s : State) :
  main NextSunrise PreviousSunset b = Some s -> safe s.
Proof.
  unfold main. intro E.
  destruct (bootConfig b) as [c|]; [|discriminate].
  destruct (bootSpeed b) as [T|]; [|discriminate].
  destruct (T <=? 0) eqn:HT; [discriminate|]. apply Z.leb_gt in HT.
  destruct (bootPiglow b); [|discriminate].
  unfold initPing in E.
  destruct (bootResolve b) as [|[ip|]]; [discriminate| |];
    injection E as <-; unfold safe, validLevel; state_simpl; cbn;
    repeat split; try lia; repeat constructor; lia.
Qed.

(** C9.  In every state the process reaches from start-up, through any
    interleaving of main-loop iterations, ping rounds, ramp steps, reloads
    and interrupts, every level handed to [setGlow] so far lies in
    [0, 255], and so does [currentPower], which is the level the driver
    holds. *)
Theorem brightness_always_valid (b : Boot) (s0 s : State) (evs : list Event) :
  main NextSunrise PreviousSunset b = Some s0 ->
  run NextSunrise NextSunset s0 evs = Some s ->
  Forall validLevel (glows (trace s)) /\
  validLevel (currentPower s) /\
  glow s = currentPower s.
Proof.
  intros Hm Hr.
  destruct (safe_run evs s0 s (safe_main b s0 Hm) Hr) as (_ & B & C & D & _).
  auto.
Qed.
End Safety.

Section Monitor.
Variables NextSunrise NextSunset PreviousSunset : Time -> Q -> Q -> Time.

Lemma tick_isPaused (c : Clock) (s : State) :
  isPaused (tick NextSunrise NextSunset c s) = isPaused s.
Proof. apply (tick_preserves NextSunrise NextSunset c s). Qed.

Lemma unmonitored_step (ev : Event) (s s' : State) :
  unmonitored s -> step NextSunrise NextSunset s ev = Some s' ->
  unmonitored s' /\
  (pingEvent ev = true -> s' = s).
Proof.
  intros (P & Q & C) E. unfold unmonitored.
  destruct ev as [c|r| |parsed|]; cbn [step pingEvent] in *.
  - unfold mainIter in E. destruct (isRunning s); [|discriminate]. injection E as <-.
    destruct (tick_calls NextSunrise NextSunset c s) as (A1 & A2 & _).
    rewrite tick_isPaused, A1, A2. split; [auto | discriminate].
  - unfold roundStep in E. rewrite P in E. injection E as <-. auto.
  - unfold rampStep in E. rewrite P in E. injection E as <-. auto.
  - destruct parsed as [c|]; [|discriminate]. injection E as <-.
    split; [|discriminate]. state_simpl. repeat split; try assumption.
    change (calls (emit LogReload s) = (0%nat, 0%nat)).
    rewrite calls_emit_plain by reflexivity. exact C.
  - split; [|discriminate].
    destruct (isRunning s); injection E as <-; [|auto].
    state_simpl. repeat split; try assumption.
    change (calls (emit LogGoodbye s) = (0%nat, 0%nat)).
    rewrite calls_emit_plain by reflexivity. exact C.
Qed.

Lemma unmonitored_run (evs : list Event) (s s' : State) :
  unmonitored s -> run NextSunrise NextSunset s evs = Some s' ->
  unmonitored s' /\
  run NextSunrise NextSunset s (filter (fun ev => negb (pingEvent ev)) evs) = Some s'.
Proof.
  revert s. induction evs as [|ev evs IH]; intros s H E; cbn [run filter] in *.
  - injection E as <-. auto.
  - destruct (step NextSunrise NextSunset s ev) as [s1|] eqn:E1; [|discriminate].
    destruct (unmonitored_step ev s s1 H E1) as [H1 Hp].
    destruct (IH s1 H1 E) as [H2 R2]. split; [exact H2|].
    destruct (pingEvent ev) eqn:PE; cbn [negb].
    + rewrite <- (Hp eq_refl). exact R2.
    + cbn [run]. rewrite E1. exact R2.
Qed.

(** C1 (as the code has it).  The two cases of host resolution at start-up
    differ.  When [net.ResolveIPAddr] returns an error, [initPing] ends the
    process in [log.Fatalf]: [main] never reaches its loop.  When it
    returns an address without IP, the liveness monitor is disabled for the
    rest of the run: in every state the process reaches there is no ping
    goroutine, [isPaused] is false, [pause] and [resume] have never been
    entered, the events of the ping goroutine change nothing (the run
    without them ends in the same state), and every iteration of the main
    loop is the sleep followed by the fade-in and fade-out blocks. *)
Theorem no_address_disables_monitor (b : Boot) (c : Config) (T : Z) :
  bootConfig b = Some c -> bootSpeed b = Some T -> 0 < T -> bootPiglow b = true ->
  (bootResolve b = ResolveError -> main NextSunrise PreviousSunset b = None) /\
  (bootResolve b = Resolved None ->
   exists s0,
     main NextSunrise PreviousSunset b = Some s0 /\
     forall evs s,
       run NextSunrise NextSunset s0 evs = Some s ->
       pinger s = PcNone /\ isPaused s = false /\
       pauses (trace s) = 0%nat /\ resumes (trace s) = 0%nat /\
       run NextSunrise NextSunset s0 (filter (fun ev => negb (pingEvent ev)) evs) = Some s /\
       forall k, isRunning s = true ->
         step NextSunrise NextSunset s (EvMain k)
         = Some (fadeOut NextSunrise k
                   (fadeIn NextSunset k (emit (Sleep (sleepDuration s)) s)))).
Proof.
  intros Hc Hs HT Hg.
  assert (HT' : (T <=? 0) = false) by (apply Z.leb_gt; exact HT).
  split; intro Hr.
  - unfold main. rewrite Hc, Hs, HT', Hg, Hr. reflexivity.
  - unfold main. rewrite Hc, Hs, HT', Hg, Hr. cbn [initPing].
    eexists. split; [reflexivity|].
    intros evs s E.
    match type of E with run _ _ ?s0 _ = _ =>
      assert (U0 : unmonitored s0) by (unfold unmonitored; cbn; auto) end.
    destruct (unmonitored_run evs _ s U0 E) as [(P & Q & C) R].
    unfold calls in C. injection C as C1 C2.
    repeat split; try assumption.
    intros k Hrun. cbn [step]. unfold mainIter. rewrite Hrun.
    rewrite tick_running by exact Q. reflexivity.
Qed.



End Monitor.

(** *** The ping goroutine, step by step, against its handlers run whole *)

Lemma set_pinger_same (pc : PingerPC) (s : State) : pinger s = pc -> set_pinger pc s = s.
Proof. destruct s. cbn. intros ->. reflexivity. Qed.

Lemma applyRamp_set_pinger (ls : list Z) (pc : PingerPC) (s : State) :
  applyRamp ls (set_pinger pc s) = set_pinger pc (applyRamp ls s).
Proof.
  revert s. induction ls as [|l ls IH]; intro s; [reflexivity|].
  cbn [applyRamp]. rewrite <- IH. reflexivity.
Qed.

Section Refinement.
Variables NextSunrise NextSunset PreviousSunset : Time -> Q -> Q -> Time.

Lemma run_app (a b : list Event) (s : State) :
  run NextSunrise NextSunset s (a ++ b)
  = match run NextSunrise NextSunset s a with
    | Some s' => run NextSunrise NextSunset s' b
    | None => None
    end.
Proof.
  revert s. induction a as [|ev a IH]; intro s; [reflexivity|].
  cbn [app run]. destruct (step NextSunrise NextSunset s ev); [apply IH | reflexivity].
Qed.

Lemma ramp_down_steps (n : nat) (i : Z) (s : State) :
  pinger s = PcRamp RampDown i -> n = Z.to_nat (i + 1) ->
  run NextSunrise NextSunset s (repeat EvRamp n)
  = Some (set_pinger (PcRamp RampDown (Z.min i (-1))) (applyRamp (downTo n i) s)).
Proof.
  revert i s. induction n as [|n IH]; intros i s P Hn.
  - cbn. rewrite set_pinger_same; [reflexivity|]. rewrite P. f_equal. lia.
  - cbn [repeat run step]. unfold rampStep. rewrite P.
    assert (Hi : 0 <= i) by lia. apply Z.leb_le in Hi. rewrite Hi. apply Z.leb_le in Hi.
    rewrite (IH (i - 1)) by (try reflexivity; lia).
    cbn [downTo applyRamp]. rewrite applyRamp_set_pinger. f_equal.
    replace (Z.min (i - 1) (-1)) with (Z.min i (-1)) by lia. reflexivity.
Qed.

Lemma ramp_up_steps (n : nat) (i : Z) (s : State) :
  pinger s = PcRamp RampUp i -> n = Z.to_nat (256 - i) ->
  run NextSunrise NextSunset s (repeat EvRamp n)
  = Some (set_pinger (PcRamp RampUp (Z.max i 256)) (applyRamp (upTo n i) s)).
Proof.
  revert i s. induction n as [|n IH]; intros i s P Hn.
  - cbn. rewrite set_pinger_same; [reflexivity|]. rewrite P. f_equal. lia.
  - cbn [repeat run step]. unfold rampStep. rewrite P.
    assert (Hi : i <= 255) by lia. apply Z.leb_le in Hi. rewrite Hi. apply Z.leb_le in Hi.
    rewrite (IH (i + 1)) by (try reflexivity; lia).
    cbn [upTo applyRamp]. rewrite applyRamp_set_pinger. f_equal.
    replace (Z.max (i + 1) 256) with (Z.max i 256) by lia. reflexivity.
Qed.

(** From the entry into [pause] to the return into the ping loop. *)
Lemma pause_steps (s : State) :
  pinger s = PcCalled RampDown ->
  run NextSunrise NextSunset s
      (repeat EvRamp (1 + (Z.to_nat (currentPower s + 1) + 1)))
  = Some (emit (Sleep Minute)
            (set_lastState PingDown
               (set_pinger PcLoop
                  (applyRamp (downTo (Z.to_nat (currentPower s + 1)) (currentPower s))
                     (emit (Sleep Second) s))))).
Proof.
  intro P. rewrite !repeat_app.
  cbn [repeat app run step]. unfold rampStep at 1. rewrite P. rewrite run_app.
  rewrite (ramp_down_steps _ (currentPower s)) by reflexivity.
  cbn [run step].
  unfold rampStep. state_simpl.
  assert (G : (0 <=? Z.min (currentPower s) (-1)) = false) by (apply Z.leb_gt; lia).
  rewrite G. rewrite applyRamp_set_pinger. reflexivity.
Qed.

Lemma resume_steps (s : State) :
  pinger s = PcCalled RampUp ->
  run NextSunrise NextSunset s
      (repeat EvRamp (1 + (Z.to_nat (256 - currentPower s) + 1)))
  = Some (emit (Sleep Minute)
            (set_lastState PingUp
               (set_pinger PcLoop
                  (applyRamp (upTo (Z.to_nat (256 - currentPower s)) (currentPower s))
                     (emit (Sleep Second) s))))).
Proof.
  intro P. rewrite !repeat_app.
  cbn [repeat app run step]. unfold rampStep at 1. rewrite P. rewrite run_app.
  rewrite (ramp_up_steps _ (currentPower s)) by reflexivity.
  cbn [run step].
  unfold rampStep. state_simpl.
  assert (G : (Z.max (currentPower s) 256 <=? 255) = false) by (apply Z.leb_gt; lia).
  rewrite G. rewrite applyRamp_set_pinger. reflexivity.
Qed.

Lemma back_in_loop (ls : list Z) (pc : PingerPC) (s : State) :
  pinger s = PcLoop ->
  set_pinger PcLoop (applyRamp ls (set_pinger pc s)) = applyRamp ls s.
Proof.
  intro P. rewrite applyRamp_set_pinger.
  change (set_pinger PcLoop (applyRamp ls s) = applyRamp ls s). apply set_pinger_same.
  destruct (applyRamp_frame ls s) as (_ & _ & _ & _ & _ & _ & _ & _ & _ & _ & _ & F).
  rewrite F. exact P.
Qed.

(** X17.  A round of the ping goroutine, left to run without the other
    goroutines in between, ends in the state of the round taken at once:
    the receive handler for each reply, the idle handler, and with them a
    whole [pause] or [resume] where the liveness state changes, then the
    minute of sleep.  The steps of the goroutine, one per pass of a ramp
    loop, add up to exactly that. *)
Theorem ping_round_refined (n : nat) (s : State) :
  pinger s = PcLoop -> isRunning s = true ->
  exists k,
    run NextSunrise NextSunset s (EvRound (Some n) :: repeat EvRamp k)
    = Some (pingRound n s).
Proof.
  intros P R.
  assert (Down : forall x, pinger x = PcLoop ->
            run NextSunrise NextSunset
                (set_pinger (PcCalled RampDown) (set_isPaused true (emit CallPause x)))
                (repeat EvRamp (1 + (Z.to_nat (currentPower x + 1) + 1)))
            = Some (emit (Sleep Minute) (set_lastState PingDown (pause x)))).
  { intros x Px.
    refine (eq_trans (pause_steps (set_pinger (PcCalled RampDown)
                                     (set_isPaused true (emit CallPause x))) eq_refl) _).
    state_simpl. rewrite pause_eq. do 3 f_equal.
    apply (back_in_loop _ (PcCalled RampDown)
             (emit (Sleep Second) (set_isPaused true (emit CallPause x)))). exact Px. }
  assert (Up : forall x, pinger x = PcLoop ->
            run NextSunrise NextSunset
                (set_pinger (PcCalled RampUp) (set_isPaused false (emit CallResume x)))
                (repeat EvRamp (1 + (Z.to_nat (256 - currentPower x) + 1)))
            = Some (emit (Sleep Minute) (set_lastState PingUp (resume x)))).
  { intros x Px.
    refine (eq_trans (resume_steps (set_pinger (PcCalled RampUp)
                                      (set_isPaused false (emit CallResume x))) eq_refl) _).
    state_simpl. rewrite resume_eq. do 3 f_equal.
    apply (back_in_loop _ (PcCalled RampUp)
             (emit (Sleep Second) (set_isPaused false (emit CallResume x)))). exact Px. }
  destruct n as [|n].
  - rewrite pingRound_silent.
    destruct (lastState s) eqn:L.
    1,2: exists (1 + (Z.to_nat (currentPower s + 1) + 1))%nat;
      cbn [run step]; unfold roundStep; rewrite P, R; state_simpl; rewrite L;
      apply (Down (emit (LogWentDown (PingIp (cfg s))) (set_isRecv false s))); exact P.
    exists 0%nat. cbn [repeat run step]. unfold roundStep. rewrite P, R. state_simpl.
    rewrite L. reflexivity.
  - rewrite pingRound_reply.
    destruct (lastState s) eqn:L.
    1,2: exists 0%nat; cbn [repeat run step]; unfold roundStep; rewrite P, R; state_simpl;
      rewrite L; reflexivity.
    exists (1 + (Z.to_nat (256 - currentPower s) + 1))%nat.
    cbn [run step]. unfold roundStep. rewrite P, R. state_simpl. rewrite L.
    apply (Up (emit LogCameUp (set_isRecv true (set_isRecv false s)))). exact P.
Qed.
End Refinement.

(** ** Cross-check of the arithmetic model *)
(** The rational model and the binary64 of the standard library agree on
    the fade expression at these transition times and elapsed times. *)
Example fadeRatio_agrees_with_binary64 : forallb (fun p => Binary64.agrees (fst p) (snd p))
  [(201, 67 * Second); (105, 21 * Second); (25, 25 * Second); (3600, 1800 * Second);
   (3, 2200000000); (7, 4200000000); (1, 600000000); (3600, 1); (3600, 3599999999999);
   (9223372036854775807, 9223372036854775807); (1, 9223372036854775807);
   (86400, 123456789123); (17, 16999999999)] = true.
Proof. vm_compute. reflexivity. Qed.

(** ** Worked examples *)

(** C1, counterexample to the claim as worded: with a probe host that does
    not resolve, start-up ends in [log.Fatalf]; there is no main loop. *)
Lemma unresolvable_host_is_fatal :
  main MeanNextSunrise MeanPreviousSunset (bootAt 0 3600 ResolveError) = None.
Proof. vm_compute. reflexivity. Qed.

(** C1 at a concrete input. *)
Lemma no_address_disables_monitor_witness :
  exists s0 : State,
    main MeanNextSunrise MeanPreviousSunset (bootAt 0 3600 (Resolved None)) = Some s0 /\
    forall (evs : list Event) (s : State),
      run MeanNextSunrise MeanNextSunset s0 evs = Some s ->
      pinger s = PcNone /\ isPaused s = false /\
      pauses (trace s) = 0%nat /\ resumes (trace s) = 0%nat.
Proof.
  destruct (no_address_disables_monitor MeanNextSunrise MeanNextSunset MeanPreviousSunset
              (bootAt 0 3600 (Resolved None)) greenwich 3600
              eq_refl eq_refl eq_refl eq_refl) as [_ H].
  destruct (H eq_refl) as [s0 [Hm Hr]].
  exists s0. split; [exact Hm|].
  intros evs s Hs. destruct (Hr evs s Hs) as (A & B & C & D & _).
  repeat split; assumption.
Defined.

(** C2, counterexample to the claim as worded: with a transition of 201
    seconds, 67 seconds into the fade-in the iteration applies 86, where
    [clamp(ceil(255 * 67 / 201), 0, 255)] is 85. *)
Lemma fade_in_formula_counterexample :
  let s := set_fadeInTime 0 (mkState 0 false true greenwich 0 201 (201 * Second) (sleepFor 201)
              (29 * Hour) 0 0 PingUp false PcLoop []) in
  let c := clockAt (67 * Second) in
  0 < transitionTime s /\
  0 <= Sub (nowIn c) (fadeInTime s) <= transitionTime s * Second /\
  glows (trace (tick MeanNextSunrise MeanNextSunset c s)) = [86] /\
  specFadeIn (transitionTime s) (Sub (nowIn c) (fadeInTime s)) = 85.
Proof. vm_compute. repeat split; intro; discriminate. Qed.

(** C3, counterexample to the claim as worded: with a transition of 105
    seconds, 21 seconds into the fade-out the iteration applies 205, where
    [clamp(255 - floor(255 * 21 / 105), 0, 255)] is 204. *)
Lemma fade_out_formula_counterexample :
  let s := mkState 255 false true greenwich 255 105 (105 * Second) (sleepFor 105)
              0 (17 * Hour) 255 PingUp false PcLoop [] in
  let c := clockAt (21 * Second) in
  0 < transitionTime s /\
  0 <= Sub (nowOut c) (fadeOutTime s) <= transitionTime s * Second /\
  glows (trace (tick MeanNextSunrise MeanNextSunset c s)) = [205] /\
  specFadeOut (transitionTime s) (Sub (nowOut c) (fadeOutTime s)) = 204.
Proof. vm_compute. repeat split; intro; discriminate. Qed.

(** C2 at a concrete input. *)
Lemma fade_in_brightness_witness :
  let c := clockAt (17 * Hour + 45 * Minute) in
  0 < transitionTime evening /\
  0 < Sub (nowIn c) (fadeInTime evening) <= transitionTime evening * Second /\
  glows (trace (fadeIn MeanNextSunset c evening)) = [64] /\
  currentPower (fadeIn MeanNextSunset c evening) = 64 /\
  specFadeIn 3600 (15 * Minute) = 64.
Proof.
  intro c.
  assert (HT : 0 < transitionTime evening) by reflexivity.
  assert (He : 0 < Sub (nowIn c) (fadeInTime evening) <= transitionTime evening * Second)
    by (vm_compute; split; [reflexivity | discriminate]).
  destruct (fade_in_brightness MeanNextSunset c evening HT He)
    as (G & P & _ & _ & _ & _ & E & _).
  split; [exact HT|]. split; [exact He|].
  split; [rewrite G; vm_compute; reflexivity|].
  split; [rewrite P; vm_compute; reflexivity|].
  transitivity (fadeInPower (transitionTime evening) (Sub (nowIn c) (fadeInTime evening)));
    [symmetry; exact (E ltac:(vm_compute; reflexivity)) | vm_compute; reflexivity].
Defined.

(** C3 at a concrete input. *)
Lemma fade_out_brightness_witness :
  let c := clockAt (5 * Hour + 45 * Minute) in
  0 < transitionTime morning /\
  0 < Sub (nowOut c) (fadeOutTime morning) <= transitionTime morning * Second /\
  glows (trace (fadeOut MeanNextSunrise c morning)) = [192] /\
  currentPower (fadeOut MeanNextSunrise c morning) = 192 /\
  specFadeOut 3600 (15 * Minute) = 192.
Proof.
  intro c.
  assert (HT : 0 < transitionTime morning) by reflexivity.
  assert (He : 0 < Sub (nowOut c) (fadeOutTime morning) <= transitionTime morning * Second)
    by (vm_compute; split; [reflexivity | discriminate]).
  destruct (fade_out_brightness MeanNextSunrise c morning HT He)
    as (G & P & _ & _ & _ & _ & E & _).
  split; [exact HT|]. split; [exact He|].
  split; [rewrite G; vm_compute; reflexivity|].
  split; [rewrite P; vm_compute; reflexivity|].
  transitivity (fadeOutPower (transitionTime morning) (Sub (nowOut c) (fadeOutTime morning)));
    [symmetry; exact (E ltac:(vm_compute; reflexivity)) | vm_compute; reflexivity].
Defined.

(** C4 at a concrete input. *)
Lemma fade_in_opens_strictly_after_witness :
  let c := clockAt (17 * Hour + 30 * Minute) in
  let c' := clockAt (17 * Hour + 30 * Minute + 1) in
  nowIn c = fadeInTime evening /\
  fadeInTime evening < nowIn c' /\
  currentPower (tick MeanNextSunrise MeanNextSunset c evening) = 0 /\
  glows (trace (tick MeanNextSunrise MeanNextSunset c evening)) = [] /\
  glows (trace (fadeIn MeanNextSunset c' evening)) = [1].
Proof.
  intros c c'.
  assert (H0 : nowIn c = fadeInTime evening) by reflexivity.
  assert (H1 : fadeInTime evening < nowIn c') by reflexivity.
  destruct (fade_in_opens_strictly_after MeanNextSunrise MeanNextSunset c evening) as [A _].
  destruct (A H0) as [_ A'].
  destruct (A' eq_refl ltac:(vm_compute; discriminate)) as [P G].
  destruct (fade_in_opens_strictly_after MeanNextSunrise MeanNextSunset c' evening) as [_ B].
  split; [exact H0|]. split; [exact H1|].
  split; [exact P|]. split; [exact G|].
  rewrite (B H1). vm_compute. reflexivity.
Defined.


(** C6 at a concrete input. *)
Lemma liveness_transitions_witness :
  lastState fresh = PingUnknown /\
  calls (pingRound 1 fresh) = (0%nat, 0%nat) /\
  calls (pingRound 1 (pingRound 1 fresh)) = (0%nat, 0%nat) /\
  calls (pingRound 0 (pingRound 1 (pingRound 1 fresh))) = (1%nat, 0%nat) /\
  calls (pingRound 0 (pingRound 0 (pingRound 1 (pingRound 1 fresh)))) = (1%nat, 0%nat) /\
  calls (pingRound 1 (pingRound 0 (pingRound 0 (pingRound 1 (pingRound 1 fresh)))))
    = (1%nat, 1%nat).
Proof.
  assert (H0 : lastState fresh = PingUnknown) by reflexivity.
  destruct (liveness_transitions fresh) as [H _].
  destruct (H H0) as ((A & _) & (B & _) & (C & _) & (D & _) & E & _).
  split; [exact H0|]. split; [exact A|]. split; [exact B|]. split; [exact C|].
  split; [rewrite D; exact C | exact E].
Defined.

(** C7 at a concrete input. *)
Lemma recomputation_once_per_ramp_witness :
  let c := clockAt (18 * Hour + 30 * Minute) in
  let c' := clockAt (18 * Hour + 30 * Minute + Second) in
  let s1 := tick MeanNextSunrise MeanNextSunset c evening in
  let s2 := tick MeanNextSunrise MeanNextSunset c' s1 in
  isPaused evening = false /\
  0 < transitionTime evening /\
  transitionTime evening * Second <= maxInt64 /\
  transitionDuration evening = wrap64 (transitionTime evening * Second) /\
  fadeInPower 3600 (Sub (nowIn c) (fadeInTime evening)) = 255 /\
  fadeInTime s1 = 41 * Hour + 30 * Minute /\
  nextFadeIns (trace s1) = [41 * Hour + 30 * Minute] /\
  fadeInTime s2 = fadeInTime s1 /\
  nextFadeIns (trace s2) = nextFadeIns (trace s1) /\
  fadeOutTime s1 = fadeOutTime evening /\
  nextFadeOuts (trace s1) = [].
Proof.
  intros c c' s1 s2.
  assert (H1 : isPaused evening = false) by reflexivity.
  assert (H2 : 0 < transitionTime evening) by reflexivity.
  assert (H3 : transitionTime evening * Second <= maxInt64) by (vm_compute; discriminate).
  assert (H4 : transitionDuration evening = wrap64 (transitionTime evening * Second))
    by (vm_compute; reflexivity).
  assert (H5 : fadeInPower 3600 (Sub (nowIn c) (fadeInTime evening)) = 255)
    by (vm_compute; reflexivity).
  destruct (recomputation_once_per_ramp MeanNextSunrise MeanNextSunset c c' evening
              H1 H2 H3 H4) as (A & _ & _ & B).
  destruct (A ltac:(vm_compute; reflexivity) H5) as (A1 & A2 & A3).
  destruct (A3 ltac:(vm_compute; discriminate) ltac:(vm_compute; discriminate)) as (A4 & A5).
  assert (H6 : Sub (nowOut c) (fadeOutTime evening) <= 0) by (vm_compute; discriminate).
  destruct (B (or_introl H6)) as (B1 & B2).
  split; [exact H1|]. split; [exact H2|]. split; [exact H3|]. split; [exact H4|].
  split; [exact H5|].
  split; [exact (eq_trans A1 ltac:(vm_compute; reflexivity))|].
  split; [exact (eq_trans A2 ltac:(vm_compute; reflexivity))|].
  split; [exact A4|]. split; [exact A5|].
  split; [exact (eq_trans B1 ltac:(vm_compute; reflexivity))|].
  exact (eq_trans B2 ltac:(vm_compute; reflexivity)).
Defined.

(** C8 at a concrete input. *)
Lemma reload_takes_effect_at_next_recomputation_witness :
  let cs := [clockAt (17 * Hour + 45 * Minute); clockAt (18 * Hour)] in
  let c := clockAt (18 * Hour + 30 * Minute) in
  let before := ticks MeanNextSunrise MeanNextSunset cs evening in
  let after := ticks MeanNextSunrise MeanNextSunset cs (set_cfg utrecht evening) in
  midRamp MeanNextSunrise MeanNextSunset cs evening = true /\
  completesIn c before = true /\
  fadeInTime (set_cfg utrecht evening) = 17 * Hour + 30 * Minute /\
  after = set_cfg utrecht before /\
  fadeInTime (tick MeanNextSunrise MeanNextSunset c before) = 41 * Hour + 30 * Minute /\
  fadeInTime (tick MeanNextSunrise MeanNextSunset c after)
    = 41 * Hour + 30 * Minute - 1176 * Second.
Proof.
  intros cs c before after.
  assert (H1 : midRamp MeanNextSunrise MeanNextSunset cs evening = true)
    by (vm_compute; reflexivity).
  assert (H2 : completesIn c before = true) by (vm_compute; reflexivity).
  destruct (reload_takes_effect_at_next_recomputation MeanNextSunrise MeanNextSunset
              utrecht evening cs c) as (_ & (_ & F & _) & _ & M).
  destruct (M H1) as (M1 & M2 & _).
  split; [exact H1|]. split; [exact H2|]. split; [exact F|]. split; [exact M1|].
  split; [vm_compute; reflexivity|].
  unfold after. rewrite (M2 eq_refl H2). vm_compute. reflexivity.
Defined.

(** C9 at a concrete input. *)
Lemma brightness_always_valid_witness :
  let b := bootAt (5 * Hour + 45 * Minute) 3600 (Resolved (Some [])) in
  let evs := [EvMain (clockAt (5 * Hour + 45 * Minute + Second));
              EvRound (Some O); EvRamp; EvRamp; EvRamp;
              EvMain (clockAt (5 * Hour + 45 * Minute + 2 * Second));
              EvReload (Some utrecht); EvInterrupt; EvRamp] in
  exists s0 s : State,
    main MeanNextSunrise MeanPreviousSunset b = Some s0 /\
    run MeanNextSunrise MeanNextSunset s0 evs = Some s /\
    glows (trace s) = [0; 255; 192; 192; 191; 190] /\
    Forall validLevel (glows (trace s)) /\
    validLevel (currentPower s) /\ glow s = currentPower s.
Proof.
  intros b evs.
  destruct (main MeanNextSunrise MeanPreviousSunset b) as [s0|] eqn:Hm;
    [|vm_compute in Hm; discriminate].
  destruct (run MeanNextSunrise MeanNextSunset s0 evs) as [s|] eqn:Hr.
  - exists s0, s. split; [reflexivity|]. split; [exact Hr|].
    split.
    + vm_compute in Hm. injection Hm as <-. vm_compute in Hr. injection Hr as <-.
      vm_compute. reflexivity.
    + exact (brightness_always_valid MeanNextSunrise MeanNextSunset MeanPreviousSunset
               b s0 s evs Hm Hr).
  - vm_compute in Hm. injection Hm as <-. vm_compute in Hr. discriminate.
Defined.

(** C10 at a concrete input. *)
Lemma both_windows_open_witness :
  let c := clockAt (5 * Hour + 45 * Minute + Second) in
  isPaused dawn = false /\
  0 < Sub (nowIn c) (fadeInTime dawn) /\
  0 < Sub (nowOut c) (fadeOutTime dawn) /\
  glows (trace (tick MeanNextSunrise MeanNextSunset c dawn)) = [255; 192] /\
  currentPower (tick MeanNextSunrise MeanNextSunset c dawn) = 192.
Proof.
  intro c.
  assert (H1 : isPaused dawn = false) by reflexivity.
  assert (H2 : 0 < Sub (nowIn c) (fadeInTime dawn)) by reflexivity.
  assert (H3 : 0 < Sub (nowOut c) (fadeOutTime dawn)) by reflexivity.
  destruct (both_windows_open MeanNextSunrise MeanNextSunset c dawn H1 H2 H3) as [G P].
  split; [exact H1|]. split; [exact H2|]. split; [exact H3|].
  split; [exact (eq_trans G ltac:(vm_compute; reflexivity))
         | exact (eq_trans P ltac:(vm_compute; reflexivity))].
Defined.

(** ** Further properties of the program *)

(** *** The driver call *)



(** *** The quick ramps, from any level *)

Lemma nth_upTo (n k : nat) (i d : Z) :
  (k < n)%nat -> nth k (upTo n i) d = i + Z.of_nat k.
Proof.
  revert k i. induction n as [|n IH]; intros k i H; [lia|].
  destruct k as [|k]; cbn [upTo nth].
  - lia.
  - rewrite IH by lia. lia.
Qed.

Lemma length_upTo (n : nat) (i : Z) : List.length (upTo n i) = n.
Proof. revert i. induction n as [|n IH]; intro i; cbn; [reflexivity|]. rewrite IH. reflexivity. Qed.

Lemma glows_cons_plain (e : Effect) (tr : list Effect) :
  glows [e] = [] -> glows (e :: tr) = glows tr.
Proof. destruct e; cbn; intro H; try reflexivity; discriminate. Qed.

Lemma pause_glows (s : State) :
  glows (trace (pause s))
  = glows (trace s) ++ downTo (Z.to_nat (currentPower s + 1)) (currentPower s).
Proof.
  rewrite pause_trace, glows_app. cbn [glows]. rewrite glows_rampEffects. reflexivity.
Qed.

Lemma resume_glows (s : State) :
  glows (trace (resume s))
  = glows (trace s) ++ upTo (Z.to_nat (256 - currentPower s)) (currentPower s).
Proof.
  rewrite resume_trace, glows_app. cbn [glows]. rewrite glows_rampEffects. reflexivity.
Qed.

Lemma pause_power_eq (s : State) :
  currentPower (pause s) = if 0 <=? currentPower s then 0 else currentPower s.
Proof.
  destruct (0 <=? currentPower s) eqn:E.
  - apply pause_power. apply Z.leb_le. exact E.
  - apply Z.leb_gt in E. rewrite pause_eq, applyRamp_power.
    replace (Z.to_nat (currentPower s + 1)) with O by lia. reflexivity.
Qed.

Lemma resume_power_eq (s : State) :
  currentPower (resume s) = if currentPower s <=? 255 then 255 else currentPower s.
Proof.
  destruct (currentPower s <=? 255) eqn:E.
  - apply resume_power. apply Z.leb_le. exact E.
  - apply Z.leb_gt in E. rewrite resume_eq, applyRamp_power.
    replace (Z.to_nat (256 - currentPower s)) with O by lia. reflexivity.
Qed.

(** X2.  [pause] entered at any level [p]: after the settle delay of one
    second it applies [p], [p - 1], ..., 0, one driver call per level and
    35 ms after each, and stops of itself; [isPaused] is set and nothing
    else of the state moves but the brightness.  At [p = 0] that is the
    single call with level 0; were [p] negative there would be no call at
    all and the brightness would stay. *)
Theorem pause_from_any_level (s : State) :
  let p := currentPower s in
  let n := Z.to_nat (p + 1) in
  trace (pause s) = trace s ++ CallPause :: Sleep Second :: rampEffects (downTo n p) /\
  glows (trace (pause s)) = glows (trace s) ++ downTo n p /\
  List.length (downTo n p) = n /\
  (forall k : nat, (k < n)%nat -> nth k (downTo n p) 0 = p - Z.of_nat k) /\
  (forall (fuel : nat) (s1 : State),
     pauseLoop (n + fuel) p s1 = (Z.min p (-1), applyRamp (downTo n p) s1)) /\
  isPaused (pause s) = true /\
  currentPower (pause s) = (if 0 <=? p then 0 else p) /\
  (p = 0 -> glows (trace (pause s)) = glows (trace s) ++ [0]) /\
  (p < 0 -> glows (trace (pause s)) = glows (trace s)) /\
  lastState (pause s) = lastState s /\ pinger (pause s) = pinger s /\
  isRunning (pause s) = isRunning s /\ cfg (pause s) = cfg s.
Proof.
  intros p n.
  destruct (pause_frame s) as (F1 & F2 & _ & F4 & F5 & F6).
  split; [apply pause_trace|]. split; [apply pause_glows|].
  split; [apply length_downTo|].
  split; [intros k Hk; apply nth_downTo; exact Hk|].
  split; [intros fuel s1; rewrite pauseLoop_fuel by reflexivity;
          apply pauseLoop_run; reflexivity|].
  split; [exact F1|]. split; [apply pause_power_eq|].
  split; [intro E; rewrite pause_glows; fold p; rewrite E; reflexivity|].
  split; [intro E; rewrite pause_glows; fold p;
          replace (Z.to_nat (p + 1)) with O by lia; apply app_nil_r|].
  auto.
Qed.

(** X3.  [resume] entered at any level [p]: after the settle delay of one
    second it applies [p], [p + 1], ..., 255, one driver call per level and
    35 ms after each, and stops of itself; [isPaused] is cleared.  The ramp
    always ends at full brightness, whatever the time of day; at [p = 255]
    it is the single call with level 255, and above 255 there would be no
    call at all. *)
Theorem resume_from_any_level (s : State) :
  let p := currentPower s in
  let n := Z.to_nat (256 - p) in
  trace (resume s) = trace s ++ CallResume :: Sleep Second :: rampEffects (upTo n p) /\
  glows (trace (resume s)) = glows (trace s) ++ upTo n p /\
  List.length (upTo n p) = n /\
  (forall k : nat, (k < n)%nat -> nth k (upTo n p) 0 = p + Z.of_nat k) /\
  (forall (fuel : nat) (s1 : State),
     resumeLoop (n + fuel) p s1 = (Z.max p 256, applyRamp (upTo n p) s1)) /\
  isPaused (resume s) = false /\
  currentPower (resume s) = (if p <=? 255 then 255 else p) /\
  (p = 255 -> glows (trace (resume s)) = glows (trace s) ++ [255]) /\
  (255 < p -> glows (trace (resume s)) = glows (trace s)) /\
  lastState (resume s) = lastState s /\ pinger (resume s) = pinger s /\
  isRunning (resume s) = isRunning s /\ cfg (resume s) = cfg s.
Proof.
  intros p n.
  destruct (resume_frame s) as (F1 & F2 & _ & F4 & F5 & F6).
  split; [apply resume_trace|]. split; [apply resume_glows|].
  split; [apply length_upTo|].
  split; [intros k Hk; apply nth_upTo; exact Hk|].
  split; [intros fuel s1; rewrite resumeLoop_fuel by reflexivity;
          apply resumeLoop_run; reflexivity|].
  split; [exact F1|]. split; [apply resume_power_eq|].
  split; [intro E; rewrite resume_glows; fold p; rewrite E; reflexivity|].
  split; [intro E; rewrite resume_glows; fold p;
          replace (Z.to_nat (256 - p)) with O by lia; apply app_nil_r|].
  auto.
Qed.

(** *** How long the quick ramps take *)

Lemma slept_app (a b : list Effect) : slept (a ++ b) = slept a + slept b.
Proof.
  induction a as [|e a IH]; [reflexivity|].
  destruct e; cbn [app slept]; rewrite IH; lia.
Qed.

Lemma slept_rampEffects (ls : list Z) :
  slept (rampEffects ls) = Z.of_nat (List.length ls) * (35 * Millisecond).
Proof.
  induction ls as [|l ls IH]; [reflexivity|].
  cbn [rampEffects slept List.length]. rewrite IH. lia.
Qed.

Lemma pause_slept (s : State) :
  slept (trace (pause s))
  = slept (trace s) + Second
    + Z.of_nat (Z.to_nat (currentPower s + 1)) * (35 * Millisecond).
Proof.
  rewrite pause_trace, slept_app. cbn [slept].
  rewrite slept_rampEffects, length_downTo. lia.
Qed.

Lemma resume_slept (s : State) :
  slept (trace (resume s))
  = slept (trace s) + Second
    + Z.of_nat (Z.to_nat (256 - currentPower s)) * (35 * Millisecond).
Proof.
  rewrite resume_trace, slept_app. cbn [slept].
  rewrite slept_rampEffects, length_upTo. lia.
Qed.

(** X4.  From a level [p] in 0..255 the quick ramps sleep for one second
    plus 35 ms per level applied: [pause] for 1 s + (p + 1) * 35 ms,
    [resume] for 1 s + (256 - p) * 35 ms, each at most 9.96 s, whatever
    the transition time. *)
Theorem quick_ramp_latency (s : State) :
  validLevel (currentPower s) ->
  let p := currentPower s in
  slept (trace (pause s)) - slept (trace s) = Second + (p + 1) * (35 * Millisecond) /\
  slept (trace (resume s)) - slept (trace s) = Second + (256 - p) * (35 * Millisecond) /\
  slept (trace (pause s)) - slept (trace s) <= 9960 * Millisecond /\
  slept (trace (resume s)) - slept (trace s) <= 9960 * Millisecond.
Proof.
  intros V p. unfold validLevel in V. fold p in V.
  rewrite pause_slept, resume_slept. fold p.
  rewrite !Z2Nat.id by lia.
  unfold Second, Millisecond. repeat split; lia.
Qed.

(** X5.  A pause followed by a resume does not bring back the brightness
    held before: from a level [p] in 0..255 the driver sees [p], ..., 0 and
    then 0, 1, ..., 255, and the process is left unpaused at 255; the two
    ramps together sleep for 2 s + (p + 257) * 35 ms. *)
Theorem pause_then_resume_ends_at_full (s : State) :
  validLevel (currentPower s) ->
  let p := currentPower s in
  glows (trace (resume (pause s)))
  = glows (trace s) ++ downTo (Z.to_nat (p + 1)) p ++ upTo 256 0 /\
  currentPower (resume (pause s)) = 255 /\
  isPaused (resume (pause s)) = false /\
  slept (trace (resume (pause s))) - slept (trace s)
  = 2 * Second + (p + 257) * (35 * Millisecond).
Proof.
  intros V p. unfold validLevel in V. fold p in V.
  assert (P0 : currentPower (pause s) = 0) by (apply pause_power; lia).
  destruct (resume_frame (pause s)) as (F & _).
  split.
  { rewrite resume_glows, pause_glows, P0. fold p. rewrite <- app_assoc. reflexivity. }
  split; [apply resume_power; lia|]. split; [exact F|].
  rewrite resume_slept, pause_slept, P0. fold p.
  rewrite Z2Nat.id by lia. change (Z.of_nat (Z.to_nat (256 - 0))) with 256.
  unfold Second, Millisecond. lia.
Qed.

(** *** The main loop while paused *)

Section Paused.
Variables NextSunrise NextSunset PreviousSunset : Time -> Q -> Q -> Time.

Lemma ticks_paused (cs : list Clock) (s : State) :
  isPaused s = true ->
  ticks NextSunrise NextSunset cs s
  = fold_left (fun x (_ : Clock) => emit (Sleep (sleepDuration s)) x) cs s.
Proof.
  intro H.
  assert (G : forall x, isPaused x = true -> sleepDuration x = sleepDuration s ->
              ticks NextSunrise NextSunset cs x
              = fold_left (fun y (_ : Clock) => emit (Sleep (sleepDuration s)) y) cs x).
  { induction cs as [|c cs IH]; intros x Hx Hs; [reflexivity|].
    cbn [ticks fold_left]. rewrite tick_paused by exact Hx. rewrite Hs.
    apply IH; [exact Hx | exact Hs]. }
  apply G; [exact H | reflexivity].
Qed.

Lemma fold_sleep_trace (d : Duration) (cs : list Clock) (x : State) :
  let x' := fold_left (fun y (_ : Clock) => emit (Sleep d) y) cs x in
  trace x' = trace x ++ repeat (Sleep d) (List.length cs) /\
  glow x' = glow x /\ currentPower x' = currentPower x /\
  fadeInTime x' = fadeInTime x /\ fadeOutTime x' = fadeOutTime x /\
  isPaused x' = isPaused x /\ cfg x' = cfg x /\ lastState x' = lastState x /\
  pinger x' = pinger x /\ isRunning x' = isRunning x.
Proof.
  revert x. induction cs as [|c cs IH]; intro x; cbn [fold_left List.length repeat].
  - rewrite app_nil_r. repeat split; reflexivity.
  - destruct (IH (emit (Sleep d) x)) as (A & B & C & D & E & F & G & H & I & J).
    cbn zeta in *. rewrite A, B, C, D, E, F, G, H, I, J. state_simpl.
    rewrite <- app_assoc. repeat split; reflexivity.
Qed.

Lemma glows_repeat_sleep (d : Duration) (n : nat) : glows (repeat (Sleep d) n) = [].
Proof. induction n as [|n IH]; [reflexivity|]. cbn [repeat glows]. exact IH. Qed.

(** X6.  While [isPaused] holds the main loop only sleeps: however many
    iterations pass and whatever the clock reads, there is no driver
    call, the brightness stays, and neither fade time is recomputed, so
    the schedule is the one from before the pause when the loop takes up
    again. *)
Theorem paused_loop_only_sleeps (cs : list Clock) (s : State) :
  isPaused s = true ->
  let s' := ticks NextSunrise NextSunset cs s in
  trace s' = trace s ++ repeat (Sleep (sleepDuration s)) (List.length cs) /\
  glows (trace s') = glows (trace s) /\
  glow s' = glow s /\ currentPower s' = currentPower s /\
  fadeInTime s' = fadeInTime s /\ fadeOutTime s' = fadeOutTime s /\
  isPaused s' = true.
Proof.
  intros H s'. unfold s'. rewrite ticks_paused by exact H.
  destruct (fold_sleep_trace (sleepDuration s) cs s) as (A & B & C & D & E & F & _).
  cbn zeta in *. rewrite A, B, C, D, E, F, glows_app, glows_repeat_sleep, app_nil_r.
  repeat split; try reflexivity. exact H.
Qed.
End Paused.

(** *** What ends the process *)

Section Endings.
Variables NextSunrise NextSunset PreviousSunset : Time -> Q -> Q -> Time.


(** X8.  [main] reaches its loop exactly when the configuration file
    parses, the transition speed is read and positive, the PiGlow object
    is created and host resolution returns no error; every other start
    ends in [log.Fatal].  The loop is entered with the LEDs set to 0 by
    the one driver call made so far, unpaused, the liveness state unknown,
    the two fade times as far apart as the sunrise and the sunset they
    are computed from, and a ping goroutine exactly when the host
    resolved to an address. *)
Theorem main_enters_loop_iff (b : Boot) :
  (main NextSunrise PreviousSunset b = None <->
   bootConfig b = None \/ bootSpeed b = None \/
   (exists T, bootSpeed b = Some T /\ T <= 0) \/
   bootPiglow b = false \/ bootResolve b = ResolveError) /\
  (forall s0 : State,
     main NextSunrise PreviousSunset b = Some s0 ->
     glows (trace s0) = [0] /\ currentPower s0 = 0 /\ glow s0 = 0 /\
     isPaused s0 = false /\ isRunning s0 = true /\ lastState s0 = PingUnknown /\
     bootConfig b = Some (cfg s0) /\ bootSpeed b = Some (transitionTime s0) /\
     0 < transitionTime s0 /\
     transitionDuration s0 = wrap64 (transitionTime s0 * Second) /\
     sleepDuration s0 = sleepFor (transitionTime s0) /\
     (let sunrise := NextSunrise (bootNow b) (Latitude (cfg s0)) (Longitude (cfg s0)) in
      let sunset := PreviousSunset sunrise (Latitude (cfg s0)) (Longitude (cfg s0)) in
      fadeOutTime s0 = Add sunrise (halfBefore (transitionDuration s0)) /\
      fadeInTime s0 = Add sunset (halfBefore (transitionDuration s0)) /\
      fadeOutTime s0 - fadeInTime s0 = sunrise - sunset) /\
     (pinger s0 = PcLoop <-> exists ip, bootResolve b = Resolved (Some ip)) /\
     (pinger s0 = PcNone <-> bootResolve b = Resolved None)).
Proof.
  unfold main.
  destruct (bootConfig b) as [c|] eqn:EC.
  2: { split; [split; auto|]. intros s0 E. discriminate. }
  destruct (bootSpeed b) as [T|] eqn:ES.
  2: { split; [split; auto|]. intros s0 E. discriminate. }
  destruct (T <=? 0) eqn:HT.
  { apply Z.leb_le in HT. split; [split; eauto 6|]. intros s0 E. discriminate. }
  apply Z.leb_gt in HT.
  destruct (bootPiglow b) eqn:EP.
  2: { split; [split; auto|]. intros s0 E. discriminate. }
  unfold initPing.
  destruct (bootResolve b) as [|[ip|]] eqn:ER.
  - split; [split; auto|]. intros s0 E. discriminate.
  - split.
    { split; [discriminate|].
      intros [H|[H|[(T' & H & H')|[H|H]]]]; try discriminate.
      injection H as <-. lia. }
    intros s0 E. injection E as <-. state_simpl. unfold Add.
    repeat split; try reflexivity; try assumption; try lia; try discriminate.
    + intros _. exists ip. reflexivity.
  - split.
    { split; [discriminate|].
      intros [H|[H|[(T' & H & H')|[H|H]]]]; try discriminate.
      injection H as <-. lia. }
    intros s0 E. injection E as <-. state_simpl. unfold Add.
    repeat split; try reflexivity; try assumption; try lia; try discriminate.
    + intros (ip & H). discriminate.
Qed.
End Endings.

(** *** After an interrupt *)

Ltac calls_simpl :=
  unfold calls; state_simpl; rewrite ?pauses_app, ?resumes_app; cbn;
  rewrite ?Nat.add_0_r; try reflexivity.

Lemma calls_setGlow (p : Z) (s : State) : calls (setGlow p s) = calls s.
Proof. calls_simpl. Qed.

Lemma calls_rampBody (i : Z) (s : State) : calls (rampBody i s) = calls s.
Proof. calls_simpl. Qed.

Lemma rampStep_quiet (s : State) :
  calls (rampStep s) = calls s /\ isRunning (rampStep s) = isRunning s /\
  isPaused (rampStep s) = isPaused s /\
  (pausing (pinger s) = false -> cfg (rampStep s) = cfg s) /\
  (pinger s = PcLoop \/ pinger s = PcNone -> rampStep s = s).
Proof.
  unfold rampStep.
  destruct (pinger s) as [| |r|[|] i] eqn:P.
  - repeat split; auto.
  - repeat split; auto.
  - repeat split; try reflexivity; try calls_simpl.
    intros [H|H]; discriminate.
  - destruct (0 <=? i); (split; [calls_simpl|]);
      repeat split; try reflexivity; intros [H|H]; discriminate.
  - destruct (i <=? 255); (split; [calls_simpl|]);
      repeat split; try reflexivity; intros [H|H]; discriminate.
Qed.

Section Shutdown.
Variables NextSunrise NextSunset PreviousSunset : Time -> Q -> Q -> Time.

(** Only the interrupt changes [isRunning]. *)
Lemma step_isRunning (s s' : State) (ev : Event) :
  step NextSunrise NextSunset s ev = Some s' -> ev <> EvInterrupt ->
  isRunning s' = isRunning s.
Proof.
  intros E N. destruct ev as [c|r| |parsed|]; cbn [step] in E.
  - unfold mainIter in E. destruct (isRunning s) eqn:R; [|discriminate].
    injection E as <-.
    destruct (tick_calls NextSunrise NextSunset c s) as (_ & _ & _ & K).
    rewrite K. exact R.
  - unfold roundStep in E.
    destruct (pinger s); try (injection E as <-; reflexivity).
    destruct (isRunning s) eqn:R.
    + destruct r as [[|n]|]; [| |discriminate].
      * destruct (lastState (set_isRecv false s)); injection E as <-;
          state_simpl; exact R.
      * destruct (lastState (set_isRecv true (set_isRecv false s)));
          injection E as <-; state_simpl; exact R.
    + injection E as <-. state_simpl. exact R.
  - injection E as <-. apply rampStep_quiet.
  - destruct parsed; [|discriminate]. injection E as <-. reflexivity.
  - contradiction N. reflexivity.
Qed.



End Shutdown.

(** *** The log file and the PID file *)

Section Files.
Variables NextSunrise NextSunset PreviousSunset : Time -> Q -> Q -> Time.

Lemma outcome_returned (evs : list Event) (s s1 : State) :
  outcome NextSunrise NextSunset s evs = Ended Returned s1 ->
  isRunning s = true ->
  exists evs1 c evs2, evs = evs1 ++ EvMain c :: evs2 /\ In EvInterrupt evs1.
Proof.
  revert s. induction evs as [|ev evs IH]; intros s E R; cbn [outcome] in E;
    [discriminate|].
  destruct (step NextSunrise NextSunset s ev) as [s'|] eqn:E1.
  - assert (D : ev = EvInterrupt \/ ev <> EvInterrupt)
      by (destruct ev; auto; right; discriminate).
    destruct D as [->|N].
    + clear IH R E1.
      assert (G : forall (l : list Event) (x : State),
                outcome NextSunrise NextSunset x l = Ended Returned s1 ->
                exists l1 c l2, l = l1 ++ EvMain c :: l2).
      { induction l as [|e l IHl]; intros x Hx; cbn [outcome] in Hx; [discriminate|].
        destruct (step NextSunrise NextSunset x e) as [x'|] eqn:Ex.
        - destruct (IHl x' Hx) as (l1 & c & l2 & ->).
          exists (e :: l1), c, l2. reflexivity.
        - destruct e; try discriminate. exists [], c, l. reflexivity. }
      destruct (G evs s' E) as (l1 & c & l2 & ->).
      exists (EvInterrupt :: l1), c, l2. split; [reflexivity | left; reflexivity].
    + rewrite <- (step_isRunning NextSunrise NextSunset s s' ev E1 N) in R.
      destruct (IH s' E R) as (l1 & c & l2 & -> & I).
      exists (ev :: l1), c, l2. split; [reflexivity | right; exact I].
  - destruct ev; try discriminate.
    cbn [step] in E1. unfold mainIter in E1. rewrite R in E1. discriminate.
Qed.

(** X10.  The deferred clean-up runs on the return from [main] only.  The
    PID file is removed exactly when a PID file was asked for and the
    process ends by returning from [main], which takes an interrupt
    followed by a test of the main loop; the log file is closed under
    the same condition, after the removal.  A process that ends in
    [log.Fatal], whether at start-up, on a reload that does not parse or
    on a ping error, leaves the PID file it wrote behind. *)
Theorem cleanup_only_on_return (f : Flags) (os : Files) (b : Boot) (evs : list Event) :
  let ops := fst (process NextSunrise NextSunset PreviousSunset f os b evs) in
  let ending := snd (process NextSunrise NextSunset PreviousSunset f os b evs) in
  (forall p, In (RemovePid p) ops <->
             ending = Some Returned /\ pidPath f <> EmptyString /\ p = pidPath f) /\
  (In CloseLog ops <-> ending = Some Returned /\ logPath f <> "-"%string) /\
  (forall p, In (WritePid p) ops -> ending = Some Fatal -> ~ In (RemovePid p) ops) /\
  (ending = Some Returned ->
   (exists evs1 c evs2, evs = evs1 ++ EvMain c :: evs2 /\ In EvInterrupt evs1) /\
   ops = (if String.eqb (logPath f) "-" then [] else [OpenLog (logPath f)])
         ++ (if String.eqb (pidPath f) EmptyString then [] else [WritePid (pidPath f)])
         ++ (if String.eqb (pidPath f) EmptyString then [] else [RemovePid (pidPath f)])
         ++ (if String.eqb (logPath f) "-" then [] else [CloseLog])).
Proof.
  intros ops ending.
  assert (A : forall p, In (RemovePid p) ops <->
             ending = Some Returned /\ pidPath f <> EmptyString /\ p = pidPath f).
  { intro p. unfold ops, ending, process.
    destruct (String.eqb_spec (logPath f) "-") as [EL|NL];
      destruct (String.eqb_spec (pidPath f) EmptyString) as [EP|NP];
      cbn [negb andb app];
      repeat match goal with
      | |- context [if negb ?b then _ else _] => destruct b; cbn [negb]
      end;
      try (destruct (main NextSunrise PreviousSunset b) as [s0|];
           [destruct (outcome NextSunrise NextSunset s0 evs) as [s1|[|] s1]|]);
      cbn [fst snd app In];
      (split;
       [ intro H; repeat (destruct H as [H|H]; try discriminate);
         try contradiction; try (injection H as <-; auto)
       | intros (H1 & H2 & H3); try discriminate; try contradiction; subst; auto ]). }
  split; [exact A|].
  split.
  { unfold ops, ending, process.
    destruct (String.eqb_spec (logPath f) "-") as [EL|NL];
      destruct (String.eqb_spec (pidPath f) EmptyString) as [EP|NP];
      cbn [negb andb app];
      repeat match goal with
      | |- context [if negb ?b then _ else _] => destruct b; cbn [negb]
      end;
      try (destruct (main NextSunrise PreviousSunset b) as [s0|];
           [destruct (outcome NextSunrise NextSunset s0 evs) as [s1|[|] s1]|]);
      cbn [fst snd app In];
      (split;
       [ intro H; repeat (destruct H as [H|H]; try discriminate);
         try contradiction; auto
       | intros (H1 & H2); try discriminate; try contradiction; auto 6 ]). }
  split.
  { intros p _ EF R. apply A in R. destruct R as (R & _). congruence. }
  intro ER. unfold ops, ending, process in *.
  destruct (String.eqb (logPath f) "-");
    destruct (String.eqb (pidPath f) EmptyString);
    cbn [negb andb app] in *;
    repeat match goal with
    | H : context [if negb ?b then _ else _] |- _ => destruct b; cbn [negb] in *
    end;
    try discriminate;
    (destruct (main NextSunrise PreviousSunset b) as [s0|] eqn:EM; [|discriminate]);
    (destruct (outcome NextSunrise NextSunset s0 evs) as [s1|[|] s1] eqn:EO;
     try discriminate);
    (split; [|reflexivity]);
    (eapply outcome_returned; [exact EO|]);
    apply (proj2 (main_enters_loop_iff NextSunrise PreviousSunset b) s0 EM).
Qed.
End Files.

(** *** The sleep of the main loop *)

Module SleepFacts.

Import Float64.
Local Open Scope Q_scope.

(** A product of two bounded factors, rounded. *)
Lemma mul_up (x y t kx ky : Q) :
  0 <= x -> x <= t * kx -> 0 <= y -> y <= ky -> 0 <= t -> 0 <= kx ->
  round (x * y) <= t * (kx * ky * (1 + eps64)).
Proof.
  intros X0 X1 Y0 Y1 T0 K0.
  assert (P0 : 0 <= x * y) by (apply Qmult_le_0_compat; assumption).
  destruct (round_err (x * y) P0) as [_ U].
  assert (E : 0 < 1 + eps64) by reflexivity.
  apply Qle_trans with (x * y * (1 + eps64)); [exact U|].
  setoid_replace (t * (kx * ky * (1 + eps64))) with (t * kx * ky * (1 + eps64)) by ring.
  apply Qmult_le_compat_r; [|apply Qlt_le_weak; exact E].
  apply Qle_trans with (t * kx * y).
  - apply Qmult_le_compat_r; assumption.
  - rewrite (Qmult_comm (t * kx) y), (Qmult_comm (t * kx) ky).
    apply Qmult_le_compat_r; [exact Y1|]. apply Qmult_le_0_compat; assumption.
Qed.

Lemma mul_down (x y t kx ky : Q) :
  t * kx <= x -> ky <= y -> 0 <= t -> 0 <= kx -> 0 <= ky ->
  t * (kx * ky * (1 - eps64)) <= round (x * y).
Proof.
  intros X1 Y1 T0 K0 K1.
  assert (TK : 0 <= t * kx) by (apply Qmult_le_0_compat; assumption).
  assert (X0 : 0 <= x) by (apply Qle_trans with (t * kx); assumption).
  assert (Y0 : 0 <= y) by (apply Qle_trans with ky; assumption).
  assert (P0 : 0 <= x * y) by (apply Qmult_le_0_compat; assumption).
  destruct (round_err (x * y) P0) as [L _].
  assert (E : 0 < 1 - eps64) by reflexivity.
  apply Qle_trans with (x * y * (1 - eps64)); [|exact L].
  setoid_replace (t * (kx * ky * (1 - eps64))) with (t * kx * ky * (1 - eps64)) by ring.
  apply Qmult_le_compat_r; [|apply Qlt_le_weak; exact E].
  apply Qle_trans with (t * kx * y).
  - rewrite (Qmult_comm (t * kx) y), (Qmult_comm (t * kx) ky).
    apply Qmult_le_compat_r; assumption.
  - apply Qmult_le_compat_r; assumption.
Qed.

Lemma sleepValue_bounds (T : Z) :
  (0 < T < 2 ^ 53)%Z ->
  inject_Z T * 3529411 <= sleepValue T /\ sleepValue T <= inject_Z T * 3529412.
Proof.
  intro HT.
  assert (T0 : 0 <= inject_Z T) by (change 0 with (inject_Z 0); rewrite <- Zle_Qle; lia).
  assert (ET : of_int T == inject_Z T) by (apply round_int; lia).
  assert (E255 : of_int MAX_POWER == 255) by (vm_compute; reflexivity).
  assert (Q0 : 0 <= of_int T / of_int MAX_POWER).
  { rewrite ET, E255. apply Qle_shift_div_l; [reflexivity|]. lra. }
  destruct (round_err _ Q0) as [A1 A2]. pose proof (round_nonneg _ Q0) as A0.
  fold (div (of_int T) (of_int MAX_POWER)) in A0, A1, A2.
  set (a := div (of_int T) (of_int MAX_POWER)) in *.
  rewrite ET, E255 in A1, A2.
  assert (C9 : (0 <= 9 # 10)) by (vm_compute; discriminate).
  destruct (round_err _ C9) as [C1 C2]. pose proof (round_nonneg _ C9) as C0.
  set (c := round (9 # 10)) in *.
  assert (Ua : a <= inject_Z T * ((1 # 255) * (1 + eps64))).
  { apply Qle_trans with (inject_Z T / 255 * (1 + eps64)); [exact A2|].
    apply Qle_lteq. right. field. }
  assert (La : inject_Z T * ((1 # 255) * (1 - eps64)) <= a).
  { apply Qle_trans with (inject_Z T / 255 * (1 - eps64)); [|exact A1].
    apply Qle_lteq. right. field. }
  assert (Ka : 0 <= (1 # 255) * (1 + eps64)) by (vm_compute; discriminate).
  assert (Ka' : 0 <= (1 # 255) * (1 - eps64)) by (vm_compute; discriminate).
  assert (Kc' : 0 <= (9 # 10) * (1 - eps64)) by (vm_compute; discriminate).
  pose proof (mul_up a c (inject_Z T) _ _ A0 Ua C0 C2 T0 Ka) as Ub.
  pose proof (mul_down a c (inject_Z T) _ _ La C1 T0 Ka' Kc') as Lb.
  fold (mul a c) in Ub, Lb.
  assert (B0 : 0 <= mul a c).
  { unfold mul. apply round_nonneg. apply Qmult_le_0_compat; assumption. }
  set (b := mul a c) in *.
  assert (Kb : 0 <= (1 # 255) * (1 + eps64) * ((9 # 10) * (1 + eps64)) * (1 + eps64))
    by (vm_compute; discriminate).
  assert (Kb' : 0 <= (1 # 255) * (1 - eps64) * ((9 # 10) * (1 - eps64)) * (1 - eps64))
    by (vm_compute; discriminate).
  pose proof (mul_up b 1000000000 (inject_Z T) _ 1000000000 B0 Ub
                ltac:(vm_compute; discriminate) (Qle_refl _) T0 Kb) as Uv.
  pose proof (mul_down b 1000000000 (inject_Z T) _ 1000000000 Lb (Qle_refl _) T0 Kb'
                ltac:(vm_compute; discriminate)) as Lv.
  fold (mul b 1000000000) in Uv, Lv.
  change (mul b 1000000000) with (sleepValue T) in Uv, Lv.
  split.
  - apply Qle_trans with (2 := Lv).
    rewrite (Qmult_comm (inject_Z T) 3529411), (Qmult_comm (inject_Z T)).
    apply Qmult_le_compat_r; [vm_compute; discriminate | exact T0].
  - apply Qle_trans with (1 := Uv).
    rewrite (Qmult_comm (inject_Z T) 3529412), (Qmult_comm (inject_Z T)).
    apply Qmult_le_compat_r; [vm_compute; discriminate | exact T0].
Qed.

(** The conversion to [int] of a value between two integers in range. *)
Lemma float64_to_int_between (x : Q) (lo hi : Z) :
  (0 <= lo)%Z -> (hi <= maxInt64)%Z ->
  inject_Z lo <= x -> x <= inject_Z hi ->
  (lo <= float64_to_int x <= hi)%Z.
Proof.
  intros L0 H1 Lx Hx.
  assert (F : (lo <= Qfloor x <= hi)%Z).
  { split; [apply Qfloor_ge; exact Lx|].
    rewrite Zle_Qle. apply Qle_trans with x; [apply Qfloor_le | exact Hx]. }
  assert (Q : Z.quot (Qnum x) (Zpos (Qden x)) = Qfloor x).
  { unfold Qfloor. destruct x as [n d]. cbn [Qnum Qden].
    apply Z.quot_div_nonneg; [|reflexivity].
    assert (0 <= n # d) by (apply Qle_trans with (inject_Z lo);
      [change 0 with (inject_Z 0); rewrite <- Zle_Qle; exact L0 | exact Lx]).
    unfold Qle in H. cbn in H. lia. }
  unfold float64_to_int. rewrite Q.
  assert (R : ((minInt64 <=? Qfloor x) && (Qfloor x <=? maxInt64))%bool = true).
  { apply andb_true_intro. split; apply Z.leb_le; unfold minInt64 in *; lia. }
  rewrite R. exact F.
Qed.

End SleepFacts.

Lemma sleepFor_between (T : Z) :
  0 < T -> T * Second <= maxInt64 ->
  let d := float64_to_int (sleepValue T) in
  3529411 * T <= d <= 3529412 * T.
Proof.
  intros HT Hm d. unfold Second, maxInt64 in Hm.
  destruct (SleepFacts.sleepValue_bounds T ltac:(lia)) as [L U].
  apply SleepFacts.float64_to_int_between.
  - lia.
  - unfold maxInt64. lia.
  - rewrite inject_Z_mult, Qmult_comm. exact L.
  - rewrite inject_Z_mult, Qmult_comm. exact U.
Qed.

(** X11.  The sleep of the main loop, for a transition of [T] seconds whose
    duration fits an [int64]: it is positive, at most one second, and at
    most the 255th part of the transition, so that no brightness level is
    skipped for want of an iteration.  For [T] up to 283 it lies between
    3529411 ns and 3529412 ns per second of transition (0.9 * T / 255 s);
    from 284 on it is the full second. *)
Theorem sleep_duration_bounds (T : Z) :
  0 < T -> T * Second <= maxInt64 ->
  0 < sleepFor T <= Second /\
  255 * sleepFor T <= T * Second /\
  (T <= 283 -> 3529411 * T <= sleepFor T <= 3529412 * T) /\
  (284 <= T -> sleepFor T = Second).
Proof.
  intros HT Hm. pose proof (sleepFor_between T HT Hm) as B. cbn zeta in B.
  unfold sleepFor. fold (sleepValue T).
  set (d := float64_to_int (sleepValue T)) in *. clearbody d.
  unfold Second in *.
  destruct (1000000000 <? d) eqn:E.
  - apply Z.ltb_lt in E. repeat split; lia.
  - apply Z.ltb_ge in E. repeat split; lia.
Qed.

(** *** The two ends and the middle of a ramp *)

Module RampFacts.

Local Open Scope Q_scope.

Lemma exactRatio_lower (T e n : Z) (d : positive) :
  (0 < T)%Z -> (n * (T * Second) <= 255 * e * Zpos d)%Z -> n # d <= exactRatio T e.
Proof.
  intros HT H. unfold exactRatio.
  apply Qle_shift_div_l.
  - change 0 with (inject_Z 0). rewrite <- Zlt_Qlt. unfold Second. lia.
  - unfold Qle, Qmult, inject_Z. cbn [Qnum Qden]. rewrite Pos.mul_1_r. lia.
Qed.

Lemma exactRatio_upper (T e n : Z) (d : positive) :
  (0 < T)%Z -> (255 * e * Zpos d <= n * (T * Second))%Z -> exactRatio T e <= n # d.
Proof.
  intros HT H. unfold exactRatio.
  apply Qle_shift_div_r.
  - change 0 with (inject_Z 0). rewrite <- Zlt_Qlt. unfold Second. lia.
  - unfold Qle, Qmult, inject_Z. cbn [Qnum Qden]. rewrite Pos.mul_1_r. lia.
Qed.

(** The computed ratio against rational bounds on the exact one. *)
Lemma fadeRatio_lower (T e : Z) (q : Q) :
  (0 < T)%Z -> (0 <= e <= maxInt64)%Z -> 0 <= q -> q <= exactRatio T e ->
  q * (1 - 7 * eps64) <= fadeRatio T e.
Proof.
  intros HT He Q0 H. destruct (fadeRatio_err T e HT He) as [L _].
  apply Qle_trans with (2 := L).
  apply Qmult_le_compat_r; [exact H | vm_compute; discriminate].
Qed.

Lemma fadeRatio_upper (T e : Z) (q : Q) :
  (0 < T)%Z -> (0 <= e <= maxInt64)%Z -> exactRatio T e <= q ->
  fadeRatio T e <= q * (1 + 7 * eps64).
Proof.
  intros HT He H. destruct (fadeRatio_err T e HT He) as [_ U].
  apply Qle_trans with (1 := U).
  apply Qmult_le_compat_r; [exact H | vm_compute; discriminate].
Qed.

Lemma Qceiling_above (x : Q) (z : Z) : inject_Z z < x -> (z < Qceiling x)%Z.
Proof.
  intro H. rewrite Zlt_Qlt. apply Qlt_le_trans with x; [exact H | apply Qle_ceiling].
Qed.

Lemma Qfloor_below (x : Q) (z : Z) : x < inject_Z z -> (Qfloor x < z)%Z.
Proof.
  intro H. rewrite Zlt_Qlt. apply Qle_lt_trans with x; [apply Qfloor_le | exact H].
Qed.

End RampFacts.

Lemma fadeInPower_open (T e : Z) :
  0 < T -> 0 < e <= maxInt64 -> 1 <= fadeInPower T e.
Proof.
  intros HT He.
  destruct (fadeInPower_eq T e HT ltac:(lia)) as [-> _].
  assert (P : (0 < fadeRatio T e)%Q).
  { destruct (fadeRatio_err T e HT ltac:(lia)) as [L _].
    eapply Qlt_le_trans; [|exact L].
    apply Qmult_lt_0_compat; [|reflexivity].
    unfold exactRatio. apply Qlt_shift_div_l.
    - change 0%Q with (inject_Z 0). rewrite <- Zlt_Qlt. unfold Second. lia.
    - rewrite Qmult_0_l. change 0%Q with (inject_Z 0). rewrite <- Zlt_Qlt. lia. }
  pose proof (RampFacts.Qceiling_above _ 0 P). lia.
Qed.

Lemma fadeOutPower_start (T e : Z) :
  0 < T -> 0 <= e <= maxInt64 -> 256 * e <= T * Second -> fadeOutPower T e = 255.
Proof.
  intros HT He H.
  destruct (fadeOutPower_eq T e HT He) as [-> F0].
  assert (U : (exactRatio T e <= 255 # 256)%Q)
    by (apply RampFacts.exactRatio_upper; [exact HT | lia]).
  pose proof (RampFacts.fadeRatio_upper T e _ HT He U) as R.
  assert (F1 : Qfloor (fadeRatio T e) < 1).
  { apply RampFacts.Qfloor_below. eapply Qle_lt_trans; [exact R | reflexivity]. }
  lia.
Qed.

Lemma fadeOutPower_late (T e : Z) :
  0 < T -> T * Second <= e <= maxInt64 -> fadeOutPower T e <= 1.
Proof.
  intros HT He.
  assert (He' : 0 <= e <= maxInt64) by (unfold Second in He; lia).
  destruct (fadeOutPower_eq T e HT He') as [-> F0].
  assert (L : (255 # 1 <= exactRatio T e)%Q)
    by (apply RampFacts.exactRatio_lower; [exact HT | lia]).
  pose proof (RampFacts.fadeRatio_lower T e (255 # 1) HT He' ltac:(vm_compute; discriminate) L) as R.
  assert (F1 : 254 <= Qfloor (fadeRatio T e)).
  { apply Qfloor_ge. eapply Qle_trans; [|exact R]. vm_compute. discriminate. }
  lia.
Qed.

Lemma fadeOutPower_done (T e : Z) :
  0 < T -> T * Second + T <= e <= maxInt64 -> fadeOutPower T e = 0.
Proof.
  intros HT He.
  assert (He' : 0 <= e <= maxInt64) by (unfold Second in He; lia).
  destruct (fadeOutPower_eq T e HT He') as [-> F0].
  assert (L : (255000000255 # 1000000000 <= exactRatio T e)%Q)
    by (apply RampFacts.exactRatio_lower; [exact HT | unfold Second in *; lia]).
  pose proof (RampFacts.fadeRatio_lower T e (255000000255 # 1000000000) HT He' ltac:(vm_compute; discriminate) L) as R.
  assert (F1 : 255 <= Qfloor (fadeRatio T e)).
  { apply Qfloor_ge. eapply Qle_trans; [|exact R]. vm_compute. discriminate. }
  lia.
Qed.

Lemma fade_midpoint (T : Z) :
  0 < T -> T * Second <= maxInt64 ->
  fadeInPower T (T * 500000000) = 128 /\ fadeOutPower T (T * 500000000) = 128.
Proof.
  intros HT Hm.
  assert (He : 0 <= T * 500000000 <= maxInt64) by (unfold Second in Hm; lia).
  assert (L : (255 # 2 <= exactRatio T (T * 500000000)%Z)%Q)
    by (apply RampFacts.exactRatio_lower; [exact HT | unfold Second; lia]).
  assert (U : (exactRatio T (T * 500000000)%Z <= 255 # 2)%Q)
    by (apply RampFacts.exactRatio_upper; [exact HT | unfold Second; lia]).
  pose proof (RampFacts.fadeRatio_lower T _ (255 # 2) HT He ltac:(vm_compute; discriminate) L) as RL.
  pose proof (RampFacts.fadeRatio_upper T _ _ HT He U) as RU.
  assert (A : (inject_Z 127 < fadeRatio T (T * 500000000)%Z)%Q)
    by (eapply Qlt_le_trans; [|exact RL]; reflexivity).
  assert (B : (fadeRatio T (T * 500000000)%Z < inject_Z 128)%Q)
    by (eapply Qle_lt_trans; [exact RU|]; reflexivity).
  pose proof (RampFacts.Qceiling_above _ _ A) as C1.
  pose proof (Qceiling_le _ 128 (Qlt_le_weak _ _ B)) as C2.
  pose proof (Qfloor_ge _ 127 (Qlt_le_weak _ _ A)) as F1.
  pose proof (RampFacts.Qfloor_below _ _ B) as F2.
  destruct (fadeInPower_eq T _ HT He) as [-> _].
  destruct (fadeOutPower_eq T _ HT He) as [-> _].
  lia.
Qed.

Section Ends.
Variables NextSunrise NextSunset PreviousSunset : Time -> Q -> Q -> Time.

Lemma fadeIn_applies (c : Clock) (s : State) :
  0 < Sub (nowIn c) (fadeInTime s) ->
  currentPower (fadeIn NextSunset c s)
  = fadeInPower (transitionTime s) (Sub (nowIn c) (fadeInTime s)) /\
  glows (trace (fadeIn NextSunset c s))
  = glows (trace s) ++ [fadeInPower (transitionTime s) (Sub (nowIn c) (fadeInTime s))].
Proof.
  intro H.
  destruct (fadeIn_cases NextSunset c s) as [[H0 _]|[(_ & _ & ->)|(_ & _ & ->)]];
    [lia| |]; glows_simpl; auto.
Qed.

Lemma fadeOut_applies (c : Clock) (s : State) :
  0 < Sub (nowOut c) (fadeOutTime s) ->
  currentPower (fadeOut NextSunrise c s)
  = fadeOutPower (transitionTime s) (Sub (nowOut c) (fadeOutTime s)) /\
  glows (trace (fadeOut NextSunrise c s))
  = glows (trace s) ++ [fadeOutPower (transitionTime s) (Sub (nowOut c) (fadeOutTime s))].
Proof.
  intro H.
  destruct (fadeOut_cases NextSunrise c s) as [[H0 _]|[(_ & _ & ->)|(_ & _ & ->)]];
    [lia| |]; glows_simpl; auto.
Qed.

(** X12.  The ends of the two ramps, in spite of the rounding.  As soon as
    the fade-in window is open the level applied is at least 1, and once
    a full transition has passed it is exactly 255 and the next fade-in
    is scheduled.  The fade-out starts at 255, during the first 256th of
    the transition; after a full transition its level is at most 1, and
    from one nanosecond per second of transition later it is exactly 0
    and the next fade-out is scheduled. *)
Theorem ramps_reach_their_ends (c : Clock) (s : State) :
  0 < transitionTime s ->
  let T := transitionTime s in
  let eIn := Sub (nowIn c) (fadeInTime s) in
  let eOut := Sub (nowOut c) (fadeOutTime s) in
  (0 < eIn -> 1 <= currentPower (fadeIn NextSunset c s)) /\
  (T * Second <= eIn ->
   currentPower (fadeIn NextSunset c s) = 255 /\
   fadeInTime (fadeIn NextSunset c s)
   = Add (NextSunset (nowSunset c) (Latitude (cfg s)) (Longitude (cfg s)))
         (halfBefore (transitionDuration s))) /\
  (0 < eOut -> 256 * eOut <= T * Second ->
   currentPower (fadeOut NextSunrise c s) = 255 /\
   fadeOutTime (fadeOut NextSunrise c s) = fadeOutTime s) /\
  (T * Second <= eOut -> currentPower (fadeOut NextSunrise c s) <= 1) /\
  (T * Second + T <= eOut ->
   currentPower (fadeOut NextSunrise c s) = 0 /\
   fadeOutTime (fadeOut NextSunrise c s)
   = Add (NextSunrise (nowSunrise c) (Latitude (cfg s)) (Longitude (cfg s)))
         (halfBefore (transitionDuration s))).
Proof.
  intros HT T eIn eOut.
  pose proof (Sub_range (nowIn c) (fadeInTime s)) as RI. fold eIn in RI.
  pose proof (Sub_range (nowOut c) (fadeOutTime s)) as RO. fold eOut in RO.
  assert (TS : 0 < T * Second) by (unfold Second, T; lia).
  split; [|split; [|split; [|split]]].
  - intro H. destruct (fadeIn_applies c s H) as [-> _].
    apply fadeInPower_open; [exact HT | fold eIn; lia].
  - intro H.
    assert (F : fadeInPower T eIn = 255) by (apply fadeInPower_full; [exact HT | lia]).
    assert (C : completesIn c s = true).
    { unfold completesIn. fold eIn. fold T. rewrite F.
      apply andb_true_intro. split; [apply Z.ltb_lt; lia | reflexivity]. }
    destruct (fadeIn_completes NextSunset c s C) as (A & B & _). auto.
  - intros H0 H.
    assert (F : fadeOutPower T eOut = 255)
      by (apply fadeOutPower_start; [exact HT | lia | exact H]).
    destruct (fadeOut_applies c s H0) as [-> _]. fold eOut. fold T.
    split; [exact F|].
    assert (C : completesOut c s = false).
    { unfold completesOut. fold eOut. fold T. rewrite F.
      apply andb_false_intro2. reflexivity. }
    apply (fadeOut_continues NextSunrise c s C).
  - intro H. destruct (fadeOut_applies c s ltac:(fold eOut; lia)) as [-> _].
    apply fadeOutPower_late; [exact HT | fold eOut; lia].
  - intro H.
    assert (F : fadeOutPower T eOut = 0)
      by (apply fadeOutPower_done; [exact HT | unfold T in *; lia]).
    assert (C : completesOut c s = true).
    { unfold completesOut. fold eOut. fold T. rewrite F.
      apply andb_true_intro. split; [apply Z.ltb_lt; unfold T in *; lia | reflexivity]. }
    destruct (fadeOut_completes NextSunrise c s C) as (A & B & _). auto.
Qed.

(** X13.  A ramp is centred on its solar event.  With the fade time half
    a transition before the sunset, an iteration whose clock reads the
    sunset applies level 128 in the fade-in; with it half a transition
    before the sunrise, an iteration at the sunrise applies 128 in the
    fade-out. *)
Theorem brightness_at_the_solar_event (c : Clock) (s : State) (solar : Time) :
  0 < transitionTime s ->
  transitionTime s * Second <= maxInt64 ->
  transitionDuration s = wrap64 (transitionTime s * Second) ->
  (fadeInTime s = Add solar (halfBefore (transitionDuration s)) ->
   nowIn c = solar ->
   glows (trace (fadeIn NextSunset c s)) = glows (trace s) ++ [128] /\
   currentPower (fadeIn NextSunset c s) = 128) /\
  (fadeOutTime s = Add solar (halfBefore (transitionDuration s)) ->
   nowOut c = solar ->
   glows (trace (fadeOut NextSunrise c s)) = glows (trace s) ++ [128] /\
   currentPower (fadeOut NextSunrise c s) = 128).
Proof.
  intros HT Hm HD.
  destruct (fade_midpoint (transitionTime s) HT Hm) as [MI MO].
  assert (HB : halfBefore (transitionDuration s) = - (transitionTime s * 500000000)).
  { rewrite HD, halfBefore_exact by assumption. reflexivity. }
  assert (E : forall t, t = Add solar (halfBefore (transitionDuration s)) ->
              Sub solar t = transitionTime s * 500000000).
  { intros t ->. rewrite HB. unfold Add. rewrite Sub_exact;
      unfold minInt64, maxInt64, Second in *; lia. }
  split; intros F N.
  - assert (O : 0 < Sub (nowIn c) (fadeInTime s))
      by (rewrite N, (E _ F); lia).
    destruct (fadeIn_applies c s O) as [-> ->]. rewrite N, (E _ F), MI. auto.
  - assert (O : 0 < Sub (nowOut c) (fadeOutTime s))
      by (rewrite N, (E _ F); lia).
    destruct (fadeOut_applies c s O) as [-> ->]. rewrite N, (E _ F), MO. auto.
Qed.
End Ends.

(** *** The liveness gate *)

(** X14.  Within one round the number of replies does not matter: any
    round with a reply does what a round with a single reply does, and
    leaves the liveness state Up; a round without reply leaves it Down. *)
Theorem replies_count_once (n : nat) (s : State) :
  pingRound (S n) s = pingRound 1 s /\
  lastState (pingRound (S n) s) = PingUp /\
  lastState (pingRound 0 s) = PingDown.
Proof.
  split; [rewrite !pingRound_reply; reflexivity|].
  split; [apply pingRound_reply_calls | apply pingRound_silent_calls].
Qed.

Section Gate.
Variables NextSunrise NextSunset PreviousSunset : Time -> Q -> Q -> Time.






End Gate.

(** *** The further properties at concrete inputs *)

(** X4 at a concrete input. *)
Lemma quick_ramp_latency_witness :
  validLevel (currentPower lit180) /\
  slept (trace (pause lit180)) - slept (trace lit180) = 7335 * Millisecond /\
  slept (trace (resume lit180)) - slept (trace lit180) = 3660 * Millisecond.
Proof.
  assert (V : validLevel (currentPower lit180)) by (vm_compute; split; discriminate).
  destruct (quick_ramp_latency lit180 V) as (A & B & _).
  split; [exact V|].
  split; [exact (eq_trans A ltac:(vm_compute; reflexivity))
         | exact (eq_trans B ltac:(vm_compute; reflexivity))].
Defined.

(** X5 at a concrete input. *)
Lemma pause_then_resume_ends_at_full_witness :
  validLevel (currentPower lit180) /\
  currentPower (resume (pause lit180)) = 255 /\
  isPaused (resume (pause lit180)) = false /\
  List.length (glows (trace (resume (pause lit180)))) = 437%nat.
Proof.
  assert (V : validLevel (currentPower lit180)) by (vm_compute; split; discriminate).
  destruct (pause_then_resume_ends_at_full lit180 V) as (A & B & C & _).
  split; [exact V|]. split; [exact B|]. split; [exact C|].
  rewrite A. vm_compute. reflexivity.
Defined.

(** X6 at a concrete input. *)
Lemma paused_loop_only_sleeps_witness :
  let s := set_isPaused true evening in
  let cs := [clockAt (18 * Hour); clockAt (19 * Hour); clockAt (30 * Hour)] in
  isPaused s = true /\
  glows (trace (ticks MeanNextSunrise MeanNextSunset cs s)) = [] /\
  fadeInTime (ticks MeanNextSunrise MeanNextSunset cs s) = 17 * Hour + 30 * Minute /\
  trace (ticks MeanNextSunrise MeanNextSunset cs s) = [Sleep Second; Sleep Second; Sleep Second].
Proof.
  intros s cs.
  assert (H : isPaused s = true) by reflexivity.
  destruct (paused_loop_only_sleeps MeanNextSunrise MeanNextSunset cs s H)
    as (A & B & _ & _ & C & _).
  split; [exact H|]. split; [exact B|]. split; [exact C | exact A].
Defined.


(** X11 at a concrete input. *)
Lemma sleep_duration_bounds_witness :
  0 < 100 /\ 100 * Second <= maxInt64 /\
  sleepFor 100 = 352941176 /\ 255 * sleepFor 100 <= 100 * Second /\
  sleepFor 3600 = Second.
Proof.
  assert (H1 : 0 < 100) by reflexivity.
  assert (H2 : 100 * Second <= maxInt64) by (vm_compute; discriminate).
  assert (H3 : 0 < 3600) by reflexivity.
  assert (H4 : 3600 * Second <= maxInt64) by (vm_compute; discriminate).
  destruct (sleep_duration_bounds 100 H1 H2) as (_ & A & _).
  destruct (sleep_duration_bounds 3600 H3 H4) as (_ & _ & _ & B).
  assert (H5 : 284 <= 3600) by (vm_compute; discriminate).
  split; [exact H1|]. split; [exact H2|].
  split; [vm_compute; reflexivity|]. split; [exact A | exact (B H5)].
Defined.

(** X12 at a concrete input. *)
Lemma ramps_reach_their_ends_witness :
  let c := clockAt (18 * Hour + 30 * Minute) in
  let c' := clockAt (6 * Hour + 30 * Minute + 3600) in
  0 < transitionTime evening /\
  currentPower (fadeIn MeanNextSunset c evening) = 255 /\
  fadeInTime (fadeIn MeanNextSunset c evening) = 41 * Hour + 30 * Minute /\
  currentPower (fadeOut MeanNextSunrise c' morning) = 0 /\
  fadeOutTime (fadeOut MeanNextSunrise c' morning) = 29 * Hour + 30 * Minute.
Proof.
  intros c c'.
  assert (H : 0 < transitionTime evening) by reflexivity.
  assert (H' : 0 < transitionTime morning) by reflexivity.
  destruct (ramps_reach_their_ends MeanNextSunrise MeanNextSunset c evening H)
    as (_ & A & _).
  destruct (ramps_reach_their_ends MeanNextSunrise MeanNextSunset c' morning H')
    as (_ & _ & _ & _ & B).
  destruct (A ltac:(vm_compute; discriminate)) as (A1 & A2).
  destruct (B ltac:(vm_compute; discriminate)) as (B1 & B2).
  split; [exact H|]. split; [exact A1|].
  split; [exact (eq_trans A2 ltac:(vm_compute; reflexivity))|].
  split; [exact B1|]. exact (eq_trans B2 ltac:(vm_compute; reflexivity)).
Defined.

(** X13 at a concrete input. *)
Lemma brightness_at_the_solar_event_witness :
  0 < transitionTime evening /\
  transitionTime evening * Second <= maxInt64 /\
  glows (trace (fadeIn MeanNextSunset (clockAt (18 * Hour)) evening)) = [128] /\
  glows (trace (fadeOut MeanNextSunrise (clockAt (6 * Hour)) morning)) = [128].
Proof.
  assert (H1 : 0 < transitionTime evening) by reflexivity.
  assert (H2 : transitionTime evening * Second <= maxInt64) by (vm_compute; discriminate).
  assert (H3 : transitionDuration evening = wrap64 (transitionTime evening * Second))
    by (vm_compute; reflexivity).
  destruct (brightness_at_the_solar_event MeanNextSunrise MeanNextSunset
              (clockAt (18 * Hour)) evening (18 * Hour) H1 H2 H3) as (A & _).
  destruct (brightness_at_the_solar_event MeanNextSunrise MeanNextSunset
              (clockAt (6 * Hour)) morning (6 * Hour) H1 H2 H3) as (_ & B).
  destruct (A ltac:(vm_compute; reflexivity) eq_refl) as (A1 & _).
  destruct (B ltac:(vm_compute; reflexivity) eq_refl) as (B1 & _).
  split; [exact H1|]. split; [exact H2|]. split; [exact A1 | exact B1].
Defined.



(** X17 at a concrete input. *)
Lemma ping_round_refined_witness :
  pinger lit180 = PcLoop /\ isRunning lit180 = true /\
  exists k : nat,
    run MeanNextSunrise MeanNextSunset lit180 (EvRound (Some O) :: repeat EvRamp k)
    = Some (pingRound 0 lit180).
Proof.
  split; [reflexivity|]. split; [reflexivity|].
  exact (ping_round_refined MeanNextSunrise MeanNextSunset 0 lit180 eq_refl eq_refl).
Defined.
